(** * Thread-local slot registry ([source/common/thread_local/thread_local_impl.cc])

    A shallow embedding of [Envoy::ThreadLocal::InstanceImpl] and of its
    [SlotImpl] handles.  The registry object, the heap of slot handles, the
    [thread_local] storage of every thread and the callbacks waiting in the
    dispatchers are gathered in one record, [World]; every member function
    is a function from worlds to results.

    Conventions.
    - [ASSERT(c)] aborts: a failed assertion is the result [Fail AssertFailed].
    - Null dereferences, out-of-range vector accesses and accesses to a
      destroyed slot are [Fail Undefined].
    - [uint32_t] conversions are written [u32]; sizes, [uint64_t] indices and
      list positions are natural numbers.
    - A [std::shared_ptr] is owned by the places that hold a copy of it; its
      deleter runs when the last of these places disappears. *)

From stdpp Require Import base option list gmap.
From Stdlib Require Import NArith Lia.

Local Open Scope nat_scope.

(** ** Machine integers *)

(** Conversion of an index to [uint32_t]. *)
Definition u32 (n : nat) : nat := N.to_nat (N.of_nat n mod 2 ^ 32)%N.

(** [n] is representable in a [uint32_t]. *)
Definition fits_u32 (n : nat) : Prop := (N.of_nat n < 2 ^ 32)%N.

(** ** Results *)

Inductive Failure :=
| AssertFailed   (* an ASSERT does not hold *)
| Undefined      (* null dereference, access out of range, use after free *)
| Blocked        (* the thread is inside absl::Mutex::Await *)
| Idle.          (* the dispatcher has nothing to run *)

Inductive Result (A : Type) :=
| Ok (a : A)
| Fail (f : Failure).
Arguments Ok {A} a.
Arguments Fail {A} f.

Global Instance Result_ret : MRet Result := λ A a, Ok a.
Global Instance Result_bind : MBind Result := λ A B k r,
  match r with
  | Ok a => k a
  | Fail f => Fail f
  end.

Definition ASSERT (c : bool) : Result unit :=
  if c then Ok tt else Fail AssertFailed.

(** ** Data *)

Inductive State := Initializing | Running | Shutdown.

Global Instance State_eq_dec : EqDecision State.
Proof. solve_decision. Defined.

Abbreviation Thread := (nat) (only parsing).
(** An [Event::Dispatcher] is named after the thread whose loop it is:
    what is posted to dispatcher [d] runs on thread [d]. *)
Abbreviation Dispatcher := (Thread) (only parsing).
(** Identity of a [SlotImpl] object; also names the [still_alive_] token
    that the object created. *)
Abbreviation SlotId := (nat) (only parsing).
(** Identity of a [cb_guard] control block. *)
Abbreviation Guard := (nat) (only parsing).
(** [ThreadLocalObjectSharedPtr]: [None] is the null pointer. *)
Abbreviation Obj := (nat) (only parsing).
Abbreviation Cell := (option Obj) (only parsing).

(** The closures the code builds ([Event::PostCb]). *)
Inductive Callback :=
| UserCb (name : nat)
    (* a callback of the caller, opaque *)
| ClearCb (index : nat)
    (* removeSlot: [index] { if (index < size) data_[index] = nullptr; } *)
| InitCb (index : nat) (cb : Dispatcher → Cell) (d : Dispatcher)
    (* set: [index, cb, &dispatcher] { setThreadLocal(index, cb(dispatcher)); } *)
| UpdateCb (this : SlotId) (cb : Cell → Cell)
    (* SlotImpl::runOnAllThreads: [this, cb] { setThreadLocal(index_, cb(get())); } *)
| WrappedCb (still_alive : option SlotId) (cb : Callback).
    (* wrapCallback: [still_alive = still_alive_, cb] { cb(); } *)

(** What a dispatcher holds in its queue. *)
Inductive Task :=
| Call (cb : Callback)
| GuardCall (g : Guard)
    (* runOnAllThreads: [cb_guard] { call the guarded callback } *)
| RegisterCall (d : Dispatcher).
    (* registerThread: [&dispatcher] { thread_local_data_.dispatcher_ = &dispatcher; } *)

Inductive Event :=
| EvRun (t : Thread) (cb : Callback)       (* cb() was called on thread t *)
| EvPost (d : Dispatcher) (k : Task)       (* d.post(k) *)
| EvDispatch (d : Dispatcher) (k : Task)   (* the loop of d took k from its queue *)
| EvRelease (g : Guard)                    (* the release action of guard g ran *)
| EvReset (t : Thread) (i : nat).          (* shutdownThread reset cell i of thread t *)

Record SlotImpl := {
  index_ : nat;
  still_alive_ : bool;       (* the handle still owns a reference to its token *)
  ready_to_destroy_ : bool;
}.

Record ThreadLocalData := {
  dispatcher_ : option Dispatcher;
  data_ : list Cell;
}.

Record World := {
  (* InstanceImpl *)
  state_ : State;
  main_thread_id_ : Thread;
  main_thread_dispatcher_ : option Dispatcher;
  registered_threads_ : list Dispatcher;
  slots_ : list (option SlotId);
  free_slot_indexes_ : list nat;
  (* static thread_local ThreadLocalData thread_local_data_ *)
  thread_local_data_ : gmap Thread ThreadLocalData;
  (* live SlotImpl objects *)
  heap : gmap SlotId SlotImpl;
  next_slot : SlotId;
  (* live cb_guard control blocks: the guarded callback and the completion *)
  guards : list (option (Callback * Callback));
  (* callbacks posted and not yet run, oldest first; the queue of
     dispatcher d is the sub-sequence of the entries for d *)
  posted : list (Dispatcher * Task);
  (* threads inside the Await of ~SlotImpl, with the slot they destroy *)
  waiting : list (Thread * SlotId);
  log : list Event;
}.

Definition set_state (x : State) (w : World) : World :=
  {| state_ := x; main_thread_id_ := main_thread_id_ w;
     main_thread_dispatcher_ := main_thread_dispatcher_ w;
     registered_threads_ := registered_threads_ w; slots_ := slots_ w;
     free_slot_indexes_ := free_slot_indexes_ w;
     thread_local_data_ := thread_local_data_ w; heap := heap w;
     next_slot := next_slot w; guards := guards w; posted := posted w;
     waiting := waiting w; log := log w |}.

Definition set_main_thread_dispatcher (x : option Dispatcher) (w : World) : World :=
  {| state_ := state_ w; main_thread_id_ := main_thread_id_ w;
     main_thread_dispatcher_ := x;
     registered_threads_ := registered_threads_ w; slots_ := slots_ w;
     free_slot_indexes_ := free_slot_indexes_ w;
     thread_local_data_ := thread_local_data_ w; heap := heap w;
     next_slot := next_slot w; guards := guards w; posted := posted w;
     waiting := waiting w; log := log w |}.

Definition set_registered_threads (x : list Dispatcher) (w : World) : World :=
  {| state_ := state_ w; main_thread_id_ := main_thread_id_ w;
     main_thread_dispatcher_ := main_thread_dispatcher_ w;
     registered_threads_ := x; slots_ := slots_ w;
     free_slot_indexes_ := free_slot_indexes_ w;
     thread_local_data_ := thread_local_data_ w; heap := heap w;
     next_slot := next_slot w; guards := guards w; posted := posted w;
     waiting := waiting w; log := log w |}.

Definition set_slots (x : list (option SlotId)) (w : World) : World :=
  {| state_ := state_ w; main_thread_id_ := main_thread_id_ w;
     main_thread_dispatcher_ := main_thread_dispatcher_ w;
     registered_threads_ := registered_threads_ w; slots_ := x;
     free_slot_indexes_ := free_slot_indexes_ w;
     thread_local_data_ := thread_local_data_ w; heap := heap w;
     next_slot := next_slot w; guards := guards w; posted := posted w;
     waiting := waiting w; log := log w |}.

Definition set_free_slot_indexes (x : list nat) (w : World) : World :=
  {| state_ := state_ w; main_thread_id_ := main_thread_id_ w;
     main_thread_dispatcher_ := main_thread_dispatcher_ w;
     registered_threads_ := registered_threads_ w; slots_ := slots_ w;
     free_slot_indexes_ := x;
     thread_local_data_ := thread_local_data_ w; heap := heap w;
     next_slot := next_slot w; guards := guards w; posted := posted w;
     waiting := waiting w; log := log w |}.

Definition set_thread_local_data (x : gmap Thread ThreadLocalData) (w : World) : World :=
  {| state_ := state_ w; main_thread_id_ := main_thread_id_ w;
     main_thread_dispatcher_ := main_thread_dispatcher_ w;
     registered_threads_ := registered_threads_ w; slots_ := slots_ w;
     free_slot_indexes_ := free_slot_indexes_ w;
     thread_local_data_ := x; heap := heap w;
     next_slot := next_slot w; guards := guards w; posted := posted w;
     waiting := waiting w; log := log w |}.

Definition set_heap (x : gmap SlotId SlotImpl) (w : World) : World :=
  {| state_ := state_ w; main_thread_id_ := main_thread_id_ w;
     main_thread_dispatcher_ := main_thread_dispatcher_ w;
     registered_threads_ := registered_threads_ w; slots_ := slots_ w;
     free_slot_indexes_ := free_slot_indexes_ w;
     thread_local_data_ := thread_local_data_ w; heap := x;
     next_slot := next_slot w; guards := guards w; posted := posted w;
     waiting := waiting w; log := log w |}.

Definition set_next_slot (x : SlotId) (w : World) : World :=
  {| state_ := state_ w; main_thread_id_ := main_thread_id_ w;
     main_thread_dispatcher_ := main_thread_dispatcher_ w;
     registered_threads_ := registered_threads_ w; slots_ := slots_ w;
     free_slot_indexes_ := free_slot_indexes_ w;
     thread_local_data_ := thread_local_data_ w; heap := heap w;
     next_slot := x; guards := guards w; posted := posted w;
     waiting := waiting w; log := log w |}.

Definition set_guards (x : list (option (Callback * Callback))) (w : World) : World :=
  {| state_ := state_ w; main_thread_id_ := main_thread_id_ w;
     main_thread_dispatcher_ := main_thread_dispatcher_ w;
     registered_threads_ := registered_threads_ w; slots_ := slots_ w;
     free_slot_indexes_ := free_slot_indexes_ w;
     thread_local_data_ := thread_local_data_ w; heap := heap w;
     next_slot := next_slot w; guards := x; posted := posted w;
     waiting := waiting w; log := log w |}.

Definition set_posted (x : list (Dispatcher * Task)) (w : World) : World :=
  {| state_ := state_ w; main_thread_id_ := main_thread_id_ w;
     main_thread_dispatcher_ := main_thread_dispatcher_ w;
     registered_threads_ := registered_threads_ w; slots_ := slots_ w;
     free_slot_indexes_ := free_slot_indexes_ w;
     thread_local_data_ := thread_local_data_ w; heap := heap w;
     next_slot := next_slot w; guards := guards w; posted := x;
     waiting := waiting w; log := log w |}.

Definition set_waiting (x : list (Thread * SlotId)) (w : World) : World :=
  {| state_ := state_ w; main_thread_id_ := main_thread_id_ w;
     main_thread_dispatcher_ := main_thread_dispatcher_ w;
     registered_threads_ := registered_threads_ w; slots_ := slots_ w;
     free_slot_indexes_ := free_slot_indexes_ w;
     thread_local_data_ := thread_local_data_ w; heap := heap w;
     next_slot := next_slot w; guards := guards w; posted := posted w;
     waiting := x; log := log w |}.

Definition set_log (x : list Event) (w : World) : World :=
  {| state_ := state_ w; main_thread_id_ := main_thread_id_ w;
     main_thread_dispatcher_ := main_thread_dispatcher_ w;
     registered_threads_ := registered_threads_ w; slots_ := slots_ w;
     free_slot_indexes_ := free_slot_indexes_ w;
     thread_local_data_ := thread_local_data_ w; heap := heap w;
     next_slot := next_slot w; guards := guards w; posted := posted w;
     waiting := waiting w; log := x |}.

Definition emit (e : Event) (w : World) : World := set_log (log w ++ [e]) w.

(** ** Thread-local storage *)

Definition no_data : ThreadLocalData := {| dispatcher_ := None; data_ := [] |}.

(** [thread_local_data_] as seen by thread [t]. *)
Definition tld (t : Thread) (w : World) : ThreadLocalData :=
  default no_data (thread_local_data_ w !! t).

Definition set_data (t : Thread) (data : list Cell) (w : World) : World :=
  set_thread_local_data
    (<[t := {| dispatcher_ := dispatcher_ (tld t w); data_ := data |}]>
       (thread_local_data_ w)) w.

Definition set_dispatcher (t : Thread) (d : option Dispatcher) (w : World) : World :=
  set_thread_local_data
    (<[t := {| dispatcher_ := d; data_ := data_ (tld t w) |}]>
       (thread_local_data_ w)) w.

(** Runs on thread [t] code that updates [thread_local_data_.data_]. *)
Definition on_thread (t : Thread) (f : list Cell → Result (list Cell))
    (w : World) : Result World :=
  data ← f (data_ (tld t w)); mret (set_data t data w).

(** [InstanceImpl::setThreadLocal], on the vector of the calling thread.
    [index] is the [uint32_t] parameter; [index + 1] is computed in
    [uint32_t]; [std::vector::resize] is [resize]. *)
Definition setThreadLocal (index : nat) (object : Cell) (data : list Cell)
    : Result (list Cell) :=
  let data :=
    if bool_decide (length data ≤ index)
    then resize (u32 (index + 1)) None data
    else data in
  if bool_decide (index < length data)
  then Ok (<[index := object]> data)
  else Fail Undefined.

(** ** Slot handles: reading *)

Definition deref (slot : SlotId) (w : World) : Result SlotImpl :=
  match heap w !! slot with
  | Some s => Ok s
  | None => Fail Undefined
  end.

(** [SlotImpl::currentThreadRegistered] *)
Definition currentThreadRegistered (t : Thread) (s : SlotImpl) (w : World) : bool :=
  bool_decide (index_ s < length (data_ (tld t w))).

(** [SlotImpl::get] *)
Definition SlotImpl_get (t : Thread) (slot : SlotId) (w : World) : Result Cell :=
  s ← deref slot w;
  _ ← ASSERT (currentThreadRegistered t s w);
  match data_ (tld t w) !! index_ s with
  | Some c => Ok c
  | None => Fail Undefined
  end.

(** [SlotImpl::wrapCallback]: the closure copies [still_alive_], which is
    empty once the destructor has reset it. *)
Definition wrapCallback (slot : SlotId) (s : SlotImpl) (cb : Callback) : Callback :=
  WrappedCb (if still_alive_ s then Some slot else None) cb.

(** ** Running callbacks *)

(** The effect of [cb()] on thread [t]. *)
Fixpoint call (t : Thread) (cb : Callback) (w : World) : Result World :=
  match cb with
  | UserCb _ => Ok w
  | ClearCb index =>
      if bool_decide (index < length (data_ (tld t w)))
      then Ok (set_data t (<[index := None]> (data_ (tld t w))) w)
      else Ok w
  | InitCb index cb d => on_thread t (setThreadLocal index (cb d)) w
  | UpdateCb this cb =>
      s ← deref this w;
      v ← SlotImpl_get t this w;
      on_thread t (setThreadLocal (u32 (index_ s)) (cb v)) w
  | WrappedCb _ cb => call t cb w
  end.

Definition run (t : Thread) (cb : Callback) (w : World) : Result World :=
  call t cb (emit (EvRun t cb) w).

(** [dispatcher.post(k)] *)
Definition post (d : Dispatcher) (k : Task) (w : World) : World :=
  emit (EvPost d k) (set_posted (posted w ++ [(d, k)]) w).

(** [for (Event::Dispatcher& dispatcher : ds) dispatcher.post(k(dispatcher));] *)
Definition post_all (ds : list Dispatcher) (k : Dispatcher → Task) (w : World) : World :=
  foldl (λ w d, post d (k d) w) w ds.

(** ** Shared pointers *)

(** The [still_alive_] tokens a closure holds a copy of. *)
Fixpoint cb_tokens (cb : Callback) : list SlotId :=
  match cb with
  | WrappedCb a cb => option_list a ++ cb_tokens cb
  | _ => []
  end.

Definition task_tokens (k : Task) : list SlotId :=
  match k with
  | Call cb => cb_tokens cb
  | _ => []
  end.

Definition guard_tokens (g : option (Callback * Callback)) : list SlotId :=
  match g with
  | Some (cb, complete) => cb_tokens cb ++ cb_tokens complete
  | None => []
  end.

Definition occurrences (s : SlotId) (l : list SlotId) : nat :=
  length (filter (λ x, x = s) l).

(** Copies of the token of [s] held by posted callbacks and by guards. *)
Definition pending (s : SlotId) (w : World) : nat :=
  occurrences s (posted w ≫= λ p, task_tokens p.2)
  + occurrences s (guards w ≫= guard_tokens).

(** Owners of the token that slot [s] created: the handle, until its
    destructor resets [still_alive_], and the closures that captured it. *)
Definition use_count (s : SlotId) (w : World) : nat :=
  match heap w !! s with
  | Some slot => if still_alive_ slot then 1 else 0
  | None => 0
  end + pending s w.

(** [ready_to_destroy_ = true] *)
Definition mark_ready (s : SlotImpl) : SlotImpl :=
  {| index_ := index_ s; still_alive_ := still_alive_ s;
     ready_to_destroy_ := true |}.

(** [still_alive_.reset()] *)
Definition reset_handle (s : SlotImpl) : SlotImpl :=
  {| index_ := index_ s; still_alive_ := false;
     ready_to_destroy_ := ready_to_destroy_ s |}.

(** The deleter given to [still_alive_] in the constructor of [SlotImpl];
    [this] is the slot [s]. *)
Definition token_deleter (s : SlotId) (w : World) : Result World :=
  if decide (state_ w = Running) then
    slot ← deref s w;
    mret (set_heap (<[s := mark_ready slot]> (heap w)) w)
  else Ok w.

(** A copy of the token of [s] has just been destroyed. *)
Definition release_token (s : SlotId) (w : World) : Result World :=
  if bool_decide (use_count s w = 0) then token_deleter s w else Ok w.

Fixpoint release_tokens (ss : list SlotId) (w : World) : Result World :=
  match ss with
  | [] => Ok w
  | s :: ss => w ← release_token s w; release_tokens ss w
  end.

Definition is_guard_call (g : Guard) (k : Task) : bool :=
  match k with
  | GuardCall g' => bool_decide (g' = g)
  | _ => false
  end.

(** Copies of [cb_guard] held by posted closures. *)
Definition guard_count (g : Guard) (w : World) : nat :=
  length (filter (λ p, is_guard_call g p.2) (posted w)).

Definition main_dispatcher (w : World) : Result Dispatcher :=
  match main_thread_dispatcher_ w with
  | Some d => Ok d
  | None => Fail Undefined
  end.

(** The deleter given to [cb_guard]: posts the completion to the main
    dispatcher, then deletes the guarded callback. *)
Definition guard_deleter (g : Guard) (w : World) : Result World :=
  match guards w !! g with
  | Some (Some (cb, all_threads_complete_cb)) =>
      d ← main_dispatcher w;
      let w := post d (Call all_threads_complete_cb) (emit (EvRelease g) w) in
      let w := set_guards (<[g := None]> (guards w)) w in
      release_tokens (cb_tokens cb ++ cb_tokens all_threads_complete_cb) w
  | _ => Fail Undefined
  end.

(** A copy of [cb_guard] has just been destroyed. *)
Definition release_guard (g : Guard) (w : World) : Result World :=
  if bool_decide (guard_count g w = 0) then guard_deleter g w else Ok w.

(** ** The registry *)

Definition on_main_thread (t : Thread) (w : World) : bool :=
  bool_decide (t = main_thread_id_ w).

Definition not_shutdown (w : World) : bool :=
  bool_decide (state_ w ≠ Shutdown).

(** [InstanceImpl::runOnAllThreads(cb)] *)
Definition runOnAllThreads (t : Thread) (cb : Callback) (w : World) : Result World :=
  _ ← ASSERT (on_main_thread t w);
  _ ← ASSERT (not_shutdown w);
  let w := post_all (registered_threads_ w) (λ _, Call cb) w in
  (* Handle main thread. *)
  run t cb w.

(** [InstanceImpl::runOnAllThreads(cb, all_threads_complete_cb)].  The
    guard is entered in [guards]; the local [cb_guard] is destroyed when
    the function returns. *)
Definition runOnAllThreads_complete (t : Thread) (cb all_threads_complete_cb : Callback)
    (w : World) : Result World :=
  _ ← ASSERT (on_main_thread t w);
  _ ← ASSERT (not_shutdown w);
  w ← run t cb w;
  let cb_guard := length (guards w) in
  let w := set_guards (guards w ++ [Some (cb, all_threads_complete_cb)]) w in
  let w := post_all (registered_threads_ w) (λ _, GuardCall cb_guard) w in
  release_guard cb_guard w.

(** [new SlotImpl] for the given index: the member initialiser of
    [ready_to_destroy_] is in the header; the flag starts false. *)
Definition new_SlotImpl (index : nat) (w : World) : SlotId * World :=
  let slot := next_slot w in
  (slot,
   set_next_slot (S slot)
     (set_heap (<[slot := {| index_ := index; still_alive_ := true;
                             ready_to_destroy_ := false |}]> (heap w)) w)).

(** [InstanceImpl::allocateSlot] *)
Definition allocateSlot (t : Thread) (w : World) : Result (SlotId * World) :=
  _ ← ASSERT (on_main_thread t w);
  _ ← ASSERT (not_shutdown w);
  match free_slot_indexes_ w with
  | [] =>
      let '(slot, w) := new_SlotImpl (length (slots_ w)) w in
      mret (slot, set_slots (slots_ w ++ [Some slot]) w)
  | front :: rest =>
      let idx := u32 front in
      let w := set_free_slot_indexes rest w in
      _ ← ASSERT (bool_decide (idx < length (slots_ w)));
      let '(slot, w) := new_SlotImpl idx w in
      mret (slot, set_slots (<[idx := Some slot]> (slots_ w)) w)
  end.

(** [InstanceImpl::removeSlot].  The element type of [free_slot_indexes_]
    is declared in the header: the queue keeps the index as it is pushed,
    and [allocateSlot] converts the front it reads to [uint32_t]. *)
Definition removeSlot (t : Thread) (slot : SlotId) (w : World) : Result World :=
  _ ← ASSERT (on_main_thread t w);
  if decide (state_ w = Shutdown) then Ok w else
  s ← deref slot w;
  let index := index_ s in
  if bool_decide (index < length (slots_ w)) then
    let w := set_slots (<[index := None]> (slots_ w)) w in
    _ ← ASSERT (bool_decide (index ∉ free_slot_indexes_ w));
    let w := set_free_slot_indexes (free_slot_indexes_ w ++ [index]) w in
    runOnAllThreads t (ClearCb index) w
  else Fail Undefined.

(** The end of [~SlotImpl]: [parent_.removeSlot] on this slot, then the object
    is gone. *)
Definition SlotImpl_dtor_finish (t : Thread) (slot : SlotId) (w : World) : Result World :=
  w ← removeSlot t slot w;
  mret (set_heap (delete slot (heap w)) w).

(** [~SlotImpl], up to the [Await]: resets [still_alive_]; in the running
    state the thread then waits for [ready_to_destroy_], in the other
    states the destructor runs to its end. *)
Definition SlotImpl_dtor (t : Thread) (slot : SlotId) (w : World) : Result World :=
  s ← deref slot w;
  if still_alive_ s then
    let w := set_heap (<[slot := reset_handle s]> (heap w)) w in
    w ← release_token slot w;
    if decide (state_ w = Running)
    then mret (set_waiting ((t, slot) :: waiting w) w)
    else SlotImpl_dtor_finish t slot w
  else Fail Undefined.

(** [~SlotImpl], from the [Await] on: returns from the wait once
    [ready_to_destroy_] holds. *)
Definition SlotImpl_dtor_resume (t : Thread) (slot : SlotId) (w : World) : Result World :=
  if bool_decide ((t, slot) ∈ waiting w) then
    s ← deref slot w;
    if ready_to_destroy_ s
    then SlotImpl_dtor_finish t slot
           (set_waiting (filter (λ p, p ≠ (t, slot)) (waiting w)) w)
    else Fail Blocked
  else Fail Idle.

(** [SlotImpl::set] *)
Definition SlotImpl_set (t : Thread) (slot : SlotId) (cb : Dispatcher → Cell)
    (w : World) : Result World :=
  s ← deref slot w;
  _ ← ASSERT (on_main_thread t w);
  _ ← ASSERT (not_shutdown w);
  let w :=
    post_all (registered_threads_ w)
      (λ dispatcher,
         let index := u32 (index_ s) in
         Call (wrapCallback slot s (InitCb index cb dispatcher))) w in
  (* Handle main thread. *)
  d ← main_dispatcher w;
  on_thread t (setThreadLocal (u32 (index_ s)) (cb d)) w.

(** [SlotImpl::runOnAllThreads(Event::PostCb cb)] *)
Definition SlotImpl_runOnAllThreads (t : Thread) (slot : SlotId) (cb : Callback)
    (w : World) : Result World :=
  s ← deref slot w;
  runOnAllThreads t (wrapCallback slot s cb) w.

(** [SlotImpl::runOnAllThreads(Event::PostCb cb, Event::PostCb main_callback)] *)
Definition SlotImpl_runOnAllThreads_complete (t : Thread) (slot : SlotId)
    (cb main_callback : Callback) (w : World) : Result World :=
  s ← deref slot w;
  runOnAllThreads_complete t (wrapCallback slot s cb) main_callback w.

(** [SlotImpl::runOnAllThreads(const UpdateCb& cb)] *)
Definition SlotImpl_runOnAllThreads_update (t : Thread) (slot : SlotId)
    (cb : Cell → Cell) (w : World) : Result World :=
  SlotImpl_runOnAllThreads t slot (UpdateCb slot cb) w.

(** [SlotImpl::runOnAllThreads(const UpdateCb& cb, Event::PostCb complete_cb)] *)
Definition SlotImpl_runOnAllThreads_update_complete (t : Thread) (slot : SlotId)
    (cb : Cell → Cell) (complete_cb : Callback) (w : World) : Result World :=
  SlotImpl_runOnAllThreads_complete t slot (UpdateCb slot cb) complete_cb w.

(** [InstanceImpl::registerThread] *)
Definition registerThread (t : Thread) (dispatcher : Dispatcher) (main_thread : bool)
    (w : World) : Result World :=
  _ ← ASSERT (on_main_thread t w);
  _ ← ASSERT (not_shutdown w);
  if main_thread then
    mret (set_dispatcher t (Some dispatcher)
            (set_main_thread_dispatcher (Some dispatcher) w))
  else
    _ ← ASSERT (bool_decide (dispatcher ∉ registered_threads_ w));
    mret (post dispatcher (RegisterCall dispatcher)
            (set_registered_threads (registered_threads_ w ++ [dispatcher]) w)).

(** [InstanceImpl::startGlobalThreading] *)
Definition startGlobalThreading (w : World) : Result World :=
  _ ← ASSERT (bool_decide (state_ w = Initializing));
  mret (set_state Running w).

(** [InstanceImpl::shutdownGlobalThreading] *)
Definition shutdownGlobalThreading (t : Thread) (w : World) : Result World :=
  _ ← ASSERT (on_main_thread t w);
  _ ← ASSERT (not_shutdown w);
  mret (set_state Shutdown w).

(** [it->reset()] on cell [i] of thread [t]. *)
Definition reset_cell (t : Thread) (w : World) (i : nat) : World :=
  emit (EvReset t i) (set_data t (<[i := None]> (data_ (tld t w))) w).

(** [InstanceImpl::shutdownThread]: the loop goes from [rbegin()] to
    [rend()], then the vector is cleared. *)
Definition shutdownThread (t : Thread) (w : World) : Result World :=
  _ ← ASSERT (bool_decide (state_ w = Shutdown));
  let w := foldl (reset_cell t) w (reverse (seq 0 (length (data_ (tld t w))))) in
  mret (set_data t [] w).

(** [InstanceImpl::~InstanceImpl]: [data_.clear()] empties the vector of the
    thread that destroys the registry. *)
Definition InstanceImpl_dtor (t : Thread) (w : World) : Result World :=
  _ ← ASSERT (on_main_thread t w);
  _ ← ASSERT (bool_decide (state_ w = Shutdown));
  mret (set_data t [] w).

(** [InstanceImpl::dispatcher] *)
Definition dispatcher (t : Thread) (w : World) : Result Dispatcher :=
  _ ← ASSERT (bool_decide (dispatcher_ (tld t w) ≠ None));
  match dispatcher_ (tld t w) with
  | Some d => Ok d
  | None => Fail Undefined
  end.

(** ** Dispatchers *)

(** The oldest entry of the queue of [d], and what remains. *)
Fixpoint take_first (d : Dispatcher) (q : list (Dispatcher * Task))
    : option (Task * list (Dispatcher * Task)) :=
  match q with
  | [] => None
  | (d', k) :: q =>
      if decide (d' = d) then Some (k, q)
      else '(k', q') ← take_first d q; Some (k', (d', k) :: q')
  end.

(** One turn of the loop of dispatcher [d]: the oldest posted callback is
    run on thread [d], then destroyed. *)
Definition dispatch (d : Dispatcher) (w : World) : Result World :=
  match take_first d (posted w) with
  | None => Fail Idle
  | Some (k, rest) =>
      let w := emit (EvDispatch d k) (set_posted rest w) in
      match k with
      | Call cb => w ← run d cb w; release_tokens (cb_tokens cb) w
      | GuardCall g =>
          match guards w !! g with
          | Some (Some (cb, _)) => w ← run d cb w; release_guard g w
          | _ => Fail Undefined
          end
      | RegisterCall d' => mret (set_dispatcher d (Some d') w)
      end
  end.

(** ** Executions *)

Inductive Op :=
| OpAllocateSlot (t : Thread)
| OpDestroySlot (t : Thread) (slot : SlotId)
| OpResumeDestroySlot (t : Thread) (slot : SlotId)
| OpSet (t : Thread) (slot : SlotId) (cb : Dispatcher → Cell)
| OpRunOnAllThreads (t : Thread) (slot : SlotId) (cb : nat)
| OpRunOnAllThreadsComplete (t : Thread) (slot : SlotId) (cb main_callback : nat)
| OpUpdateOnAllThreads (t : Thread) (slot : SlotId) (cb : Cell → Cell)
| OpUpdateOnAllThreadsComplete (t : Thread) (slot : SlotId) (cb : Cell → Cell)
    (complete_cb : nat)
| OpRegisterThread (t : Thread) (dispatcher : Dispatcher) (main_thread : bool)
| OpStartGlobalThreading (t : Thread)
| OpShutdownGlobalThreading (t : Thread)
| OpShutdownThread (t : Thread)
| OpDispatch (d : Dispatcher).

(** The thread that performs [op]. *)
Definition op_thread (op : Op) : Thread :=
  match op with
  | OpAllocateSlot t | OpDestroySlot t _ | OpResumeDestroySlot t _ | OpSet t _ _
  | OpRunOnAllThreads t _ _ | OpRunOnAllThreadsComplete t _ _ _
  | OpUpdateOnAllThreads t _ _ | OpUpdateOnAllThreadsComplete t _ _ _
  | OpRegisterThread t _ _ | OpStartGlobalThreading t | OpShutdownGlobalThreading t
  | OpShutdownThread t | OpDispatch t => t
  end.

(** Thread [t] is inside the [Await] of a destructor. *)
Definition blocked (t : Thread) (w : World) : bool :=
  bool_decide (t ∈ (waiting w).*1).

Definition perform (op : Op) (w : World) : Result World :=
  match op with
  | OpAllocateSlot t => p ← allocateSlot t w; mret p.2
  | OpDestroySlot t slot => SlotImpl_dtor t slot w
  | OpResumeDestroySlot t slot => SlotImpl_dtor_resume t slot w
  | OpSet t slot cb => SlotImpl_set t slot cb w
  | OpRunOnAllThreads t slot cb => SlotImpl_runOnAllThreads t slot (UserCb cb) w
  | OpRunOnAllThreadsComplete t slot cb main_callback =>
      SlotImpl_runOnAllThreads_complete t slot (UserCb cb) (UserCb main_callback) w
  | OpUpdateOnAllThreads t slot cb => SlotImpl_runOnAllThreads_update t slot cb w
  | OpUpdateOnAllThreadsComplete t slot cb complete_cb =>
      SlotImpl_runOnAllThreads_update_complete t slot cb (UserCb complete_cb) w
  | OpRegisterThread t d main_thread => registerThread t d main_thread w
  | OpStartGlobalThreading _ => startGlobalThreading w
  | OpShutdownGlobalThreading t => shutdownGlobalThreading t w
  | OpShutdownThread t => shutdownThread t w
  | OpDispatch d => dispatch d w
  end.

(** A thread inside [Await] does nothing but return from it. *)
Definition step (op : Op) (w : World) : Result World :=
  match op with
  | OpResumeDestroySlot _ _ => perform op w
  | _ => if blocked (op_thread op) w then Fail Blocked else perform op w
  end.

Fixpoint exec (ops : list Op) (w : World) : Result World :=
  match ops with
  | [] => Ok w
  | op :: ops => w ← step op w; exec ops w
  end.

(** The registry as its constructor leaves it, built on thread [main]. *)
Definition init (main : Thread) : World :=
  {| state_ := Initializing; main_thread_id_ := main;
     main_thread_dispatcher_ := None; registered_threads_ := [];
     slots_ := []; free_slot_indexes_ := [];
     thread_local_data_ := ∅; heap := ∅; next_slot := 0; guards := [];
     posted := []; waiting := []; log := [] |}.

Definition reachable (w : World) : Prop :=
  ∃ main ops, exec ops (init main) = Ok w.

(** ** Invariants *)

(** Bookkeeping of the slot indices. *)
Record registry_inv (w : World) : Prop := {
  free_null : ∀ i, i ∈ free_slot_indexes_ w → slots_ w !! i = Some None;
  free_nodup : NoDup (free_slot_indexes_ w);
  slots_live : state_ w ≠ Shutdown →
    ∀ i s, slots_ w !! i = Some (Some s) →
      ∃ slot, heap w !! s = Some slot ∧ index_ slot = i;
  live_registered : ∀ s slot,
    heap w !! s = Some slot → slots_ w !! index_ slot = Some (Some s);
  heap_fresh : ∀ s slot, heap w !! s = Some slot → s < next_slot w;
}.

(** The guard an event is about. *)
Definition event_guard (e : Event) : option Guard :=
  match e with
  | EvRelease g | EvPost _ (GuardCall g) | EvDispatch _ (GuardCall g) => Some g
  | _ => None
  end.

(** Guards and the closures that hold them. *)
Record guards_inv (w : World) : Prop := {
  registered_nodup : NoDup (registered_threads_ w);
  posted_guard_live : ∀ d g,
    (d, GuardCall g) ∈ posted w → ∃ c, guards w !! g = Some (Some c);
  log_guard_bound : ∀ e g,
    e ∈ log w → event_guard e = Some g → g < length (guards w);
}.

(** Liveness tokens and the destructors waiting for them.  Between the
    destruction of a closure and the release of the tokens [ss] it held,
    the last clause is not yet restored for these tokens. *)
Record tokens_inv_upto (ss : list SlotId) (w : World) : Prop := {
  ready_no_owner : ∀ s slot,
    heap w !! s = Some slot → ready_to_destroy_ slot = true → use_count s w = 0;
  waiting_reset : ∀ t s,
    (t, s) ∈ waiting w → ∃ slot, heap w !! s = Some slot ∧ still_alive_ slot = false;
  waiting_nodup : NoDup (waiting w).*2;
  waiting_main_running : ∀ s,
    (main_thread_id_ w, s) ∈ waiting w → state_ w = Running;
  waiting_main_ready : ∀ s slot,
    s ∉ ss → (main_thread_id_ w, s) ∈ waiting w → heap w !! s = Some slot →
    pending s w = 0 → ready_to_destroy_ slot = true;
  tokens_heap_fresh : ∀ s slot, heap w !! s = Some slot → s < next_slot w;
}.

Definition tokens_inv (w : World) : Prop := tokens_inv_upto [] w.

(** Two heaps with the same slots, where [ready_to_destroy_] may have been
    set in the second. *)
Definition same_slots (h h' : gmap SlotId SlotImpl) : Prop :=
  ∀ s, option_Forall2
         (λ a b, index_ a = index_ b ∧ still_alive_ a = still_alive_ b ∧
                 (ready_to_destroy_ a = true → ready_to_destroy_ b = true))
         (h !! s) (h' !! s).

(** The heap [h] is what the release of the tokens [ss] makes of the heap
    of [w]. *)
Definition released (ss : list SlotId) (w : World) (h : gmap SlotId SlotImpl) : Prop :=
  same_slots (heap w) h ∧
  (∀ s b, h !! s = Some b → ready_to_destroy_ b = true →
     (∃ a, heap w !! s = Some a ∧ ready_to_destroy_ a = true) ∨ use_count s w = 0) ∧
  (state_ w = Running →
   ∀ s, s ∈ ss → use_count s w = 0 → ∃ b, h !! s = Some b ∧ ready_to_destroy_ b = true).

(** ** The sentences on the order of a broadcast *)

(** The call of [cb] on thread [t] is the first of [events]: it comes
    before every post. *)
Definition main_thread_first (t : Thread) (cb : Callback) (events : list Event) : Prop :=
  ∃ posts, events = EvRun t cb :: posts.

Definition is_release (g : Guard) (e : Event) : bool :=
  match e with
  | EvRelease g' => bool_decide (g' = g)
  | _ => false
  end.

Definition is_guard_dispatch (d : Dispatcher) (g : Guard) (e : Event) : bool :=
  match e with
  | EvDispatch d' (GuardCall g') => bool_decide (d' = d) && bool_decide (g' = g)
  | _ => false
  end.

(** How many times the release action of guard [g] ran. *)
Definition releases (g : Guard) (l : list Event) : nat :=
  length (filter (λ e, is_release g e) l).

(** How many times the loop of [d] ran a closure holding guard [g]. *)
Definition guard_dispatches (d : Dispatcher) (g : Guard) (l : list Event) : nat :=
  length (filter (λ e, is_guard_dispatch d g e) l).

(** Copies of guard [g] in the queue of dispatcher [d]. *)
Definition guard_queued (d : Dispatcher) (g : Guard) (q : list (Dispatcher * Task)) : nat :=
  length (filter (λ p, bool_decide (p.1 = d) && is_guard_call g p.2) q).

(** The index of every live slot. *)
Definition heap_index (w : World) : gmap SlotId nat := index_ <$> heap w.

(** [w'] has the registry bookkeeping of [w]. *)
Definition registry_frame (w w' : World) : Prop :=
  state_ w' = state_ w ∧ slots_ w' = slots_ w ∧
  free_slot_indexes_ w' = free_slot_indexes_ w ∧
  heap_index w' = heap_index w ∧ next_slot w' = next_slot w.

(** ** The guard of one broadcast *)

(** The step from [w] to [w'] neither runs nor releases a copy of guard
    [g], and posts none. *)
Definition quiet (g : Guard) (w w' : World) : Prop :=
  guards w' !! g = guards w !! g ∧ length (guards w) ≤ length (guards w') ∧
  (∀ d, guard_queued d g (posted w') = guard_queued d g (posted w)) ∧
  guard_count g w' = guard_count g w ∧
  ∃ evs, log w' = log w ++ evs ∧ releases g evs = 0 ∧
         ∀ d, guard_dispatches d g evs = 0.



(** ** The lifecycle *)

(** Initializing, then Running, then Shutdown. *)
Definition state_rank (s : State) : nat :=
  match s with
  | Initializing => 0
  | Running => 1
  | Shutdown => 2
  end.

(** ** Example executions *)

(** The world that the operations [ops] make of a new registry built on
    thread 0. *)
Definition world_after (ops : list Op) : World :=
  match exec ops (init 0) with
  | Ok w => w
  | Fail _ => init 0
  end.

(** Thread 0 is the main thread and has dispatcher 0; the workers 1 and 2
    are registered; two slots are allocated. *)
Definition setup : list Op :=
  [OpRegisterThread 0 0 true; OpRegisterThread 0 1 false;
   OpRegisterThread 0 2 false; OpAllocateSlot 0; OpAllocateSlot 0].

(** The initializer of the examples: the object of a thread is the name
    of its dispatcher plus ten. *)
Definition example_init (d : Dispatcher) : Cell := Some (10 + d).

(** ** Storage and queues along executions *)

(** From [w] to [w'], thread [t] has written to its own vector of cells and
    to nothing else of the thread-local storage; the vector is not shorter. *)
Definition tls_grow (t : Thread) (w w' : World) : Prop :=
  thread_local_data_ w' = thread_local_data_ w ∨
  ∃ data,
    length (data_ (tld t w)) ≤ length data ∧
    thread_local_data_ w' =
      <[t := {| dispatcher_ := dispatcher_ (tld t w); data_ := data |}]>
        (thread_local_data_ w).

(** The callbacks waiting in the queue of dispatcher [d], oldest first. *)
Definition queue (d : Dispatcher) (w : World) : list Task :=
  (filter (λ p, p.1 = d) (posted w)).*2.

(** [op] is a turn of the loop of dispatcher [d]. *)
Definition is_dispatch (d : Dispatcher) (op : Op) : bool :=
  match op with
  | OpDispatch d' => bool_decide (d' = d)
  | _ => false
  end.

(** The turns that dispatcher [d] takes in [ops]. *)
Definition turns (d : Dispatcher) (ops : list Op) : nat :=
  length (filter (λ op, is_dispatch d op) ops).

(** * Properties *)

(** ** Machine integers and results *)

Lemma u32_fits n : fits_u32 n → u32 n = n.
Proof.
  unfold u32, fits_u32. intros H. rewrite N.mod_small by done. apply Nat2N.id.
Qed.

Lemma fits_u32_le n m : n ≤ m → fits_u32 m → fits_u32 n.
Proof. unfold fits_u32. lia. Qed.

Lemma bind_Ok {A B} (r : Result A) (k : A → Result B) b :
  r ≫= k = Ok b ↔ ∃ a, r = Ok a ∧ k a = Ok b.
Proof.
  destruct r as [a|f]; simpl; split.
  - eauto.
  - by intros (? & [= ->] & ?).
  - done.
  - by intros (? & ? & ?).
Qed.

Lemma ASSERT_Ok c u : ASSERT c = Ok u ↔ c = true.
Proof. destruct c, u; simpl; split; done. Qed.

Lemma ASSERT_true c : c = true → ASSERT c = Ok tt.
Proof. by intros ->. Qed.

Lemma ASSERT_false c : c = false → ASSERT c = Fail AssertFailed.
Proof. by intros ->. Qed.

(** [setThreadLocal] when [index + 1] does not wrap. *)
Lemma setThreadLocal_fits index object data :
  fits_u32 (index + 1) →
  ∃ data',
    setThreadLocal index object data = Ok data' ∧
    data' = <[index := object]>
              (if bool_decide (length data ≤ index)
               then resize (index + 1) None data else data) ∧
    index < length data'.
Proof.
  intros Hfit. unfold setThreadLocal. cbv zeta. rewrite (u32_fits _ Hfit).
  destruct (decide (length data ≤ index)) as [Hlen|Hlen].
  - rewrite (bool_decide_true _ Hlen).
    rewrite bool_decide_true by (rewrite length_resize; lia).
    eexists. split; [done|]. split; [done|].
    rewrite length_insert, length_resize. lia.
  - rewrite (bool_decide_false _ Hlen). rewrite bool_decide_true by lia.
    eexists. split; [done|]. split; [done|]. rewrite length_insert. lia.
Qed.

(** Storage of one thread *)

Lemma tld_set_data t data w : data_ (tld t (set_data t data w)) = data.
Proof. unfold tld, set_data. simpl. by rewrite lookup_insert_eq. Qed.

Lemma tld_set_data_ne t t' data w : t ≠ t' → tld t' (set_data t data w) = tld t' w.
Proof. intros. unfold tld, set_data. simpl. by rewrite lookup_insert_ne. Qed.

Lemma tld_emit t e w : tld t (emit e w) = tld t w.
Proof. done. Qed.

Lemma post_all_eq ds k w :
  post_all ds k w =
  set_log (log w ++ map (λ d, EvPost d (k d)) ds)
    (set_posted (posted w ++ map (λ d, (d, k d)) ds) w).
Proof.
  unfold post_all. revert w. induction ds as [|d ds IH]; intros w; simpl.
  - destruct w; unfold set_log, set_posted; simpl. by rewrite !app_nil_r.
  - rewrite IH. unfold post, emit, set_log, set_posted; simpl.
    by rewrite <- !app_assoc.
Qed.

(** [call] touches the storage of the calling thread only. *)
Lemma on_thread_Ok t f w w' :
  on_thread t f w = Ok w' →
  ∃ data, f (data_ (tld t w)) = Ok data ∧ w' = set_data t data w.
Proof.
  unfold on_thread. intros (data & Hf & [= <-])%bind_Ok. eauto.
Qed.

Lemma call_Ok t cb w w' :
  call t cb w = Ok w' → w' = w ∨ ∃ data, w' = set_data t data w.
Proof.
  induction cb as [name|index|index cb d|this cb|a cb IH]; simpl.
  - intros [= <-]. by left.
  - case_bool_decide; intros [= <-]; eauto.
  - intros (data & _ & ->)%on_thread_Ok. eauto.
  - intros (s & _ & (v & _ & (data & _ & ->)%on_thread_Ok)%bind_Ok)%bind_Ok. eauto.
  - done.
Qed.

Lemma call_frame t cb w w' :
  call t cb w = Ok w' →
  ∃ x, w' = set_thread_local_data x w ∧ ∀ t', t' ≠ t → default no_data (x !! t') = tld t' w.
Proof.
  intros [->|[data ->]]%call_Ok.
  - exists (thread_local_data_ w). split; [by destruct w|done].
  - eexists. split; [done|]. intros t' Hne. by rewrite lookup_insert_ne.
Qed.

(** [call] reads the heap and the storage of its thread only. *)
Section call_commutes.
Variable f : World → World.
Hypothesis f_heap : ∀ w, heap (f w) = heap w.
Hypothesis f_tld : ∀ w, thread_local_data_ (f w) = thread_local_data_ w.
Hypothesis f_comm : ∀ x w, f (set_thread_local_data x w) = set_thread_local_data x (f w).

Lemma tld_commutes t w : tld t (f w) = tld t w.
Proof. unfold tld. by rewrite f_tld. Qed.

Lemma set_data_commutes t data w : set_data t data (f w) = f (set_data t data w).
Proof. unfold set_data. by rewrite f_comm, tld_commutes, f_tld. Qed.

Lemma on_thread_commutes t g w :
  on_thread t g (f w) = w1 ← on_thread t g w; mret (f w1).
Proof.
  unfold on_thread. rewrite tld_commutes.
  destruct (g _); simpl; [|done]. by rewrite set_data_commutes.
Qed.

Lemma call_commutes t cb w :
  call t cb (f w) = w1 ← call t cb w; mret (f w1).
Proof.
  induction cb as [name|index|index cb d|this cb|a cb IH]; simpl; try done.
  - rewrite tld_commutes. case_bool_decide; simpl; [|done].
    by rewrite set_data_commutes.
  - apply on_thread_commutes.
  - unfold deref, SlotImpl_get, deref, currentThreadRegistered.
    rewrite f_heap, tld_commutes.
    destruct (heap w !! this); simpl; [|done].
    destruct (ASSERT _); simpl; [|done].
    destruct (data_ (tld t w) !! _); simpl; [|done].
    apply on_thread_commutes.
Qed.
End call_commutes.

Lemma call_set_log l t cb w :
  call t cb (set_log l w) = w1 ← call t cb w; mret (set_log l w1).
Proof. by apply call_commutes. Qed.

Lemma call_set_posted l t cb w :
  call t cb (set_posted l w) = w1 ← call t cb w; mret (set_posted l w1).
Proof. by apply call_commutes. Qed.

Lemma call_set_guards l t cb w :
  call t cb (set_guards l w) = w1 ← call t cb w; mret (set_guards l w1).
Proof. by apply call_commutes. Qed.

Lemma call_set_slots l t cb w :
  call t cb (set_slots l w) = w1 ← call t cb w; mret (set_slots l w1).
Proof. by apply call_commutes. Qed.

Lemma call_set_free_slot_indexes l t cb w :
  call t cb (set_free_slot_indexes l w) = w1 ← call t cb w; mret (set_free_slot_indexes l w1).
Proof. by apply call_commutes. Qed.


(** ** Effects of the primitives *)

Lemma run_Ok t cb w w' :
  run t cb w = Ok w' →
  ∃ x, w' = set_thread_local_data x (emit (EvRun t cb) w).
Proof.
  unfold run. intros (x & -> & _)%call_frame. eauto.
Qed.

Lemma occurrences_app s l1 l2 :
  occurrences s (l1 ++ l2) = occurrences s l1 + occurrences s l2.
Proof. unfold occurrences. by rewrite filter_app, length_app. Qed.

Lemma occurrences_nil s : occurrences s [] = 0.
Proof. done. Qed.

Lemma occurrences_zero s l : occurrences s l = 0 ↔ s ∉ l.
Proof.
  unfold occurrences. rewrite length_zero_iff_nil. split.
  - intros Hnil Hin. assert (s ∈ filter (λ x, x = s) l) as Hs
      by (by apply list_elem_of_filter).
    rewrite Hnil in Hs. by apply not_elem_of_nil in Hs.
  - intros Hnin. apply elem_of_nil_inv. intros x [-> ?]%list_elem_of_filter. done.
Qed.

Lemma same_slots_refl h : same_slots h h.
Proof. intros s. destruct (h !! s); by constructor. Qed.

Lemma same_slots_trans h1 h2 h3 :
  same_slots h1 h2 → same_slots h2 h3 → same_slots h1 h3.
Proof.
  intros H12 H23 s. specialize (H12 s). specialize (H23 s).
  destruct H12 as [a b (?&?&?)|]; inversion H23 as [b' c (?&?&?)|]; simplify_eq;
    constructor. repeat split; try congruence. auto.
Qed.

Lemma same_slots_lookup h h' s b :
  same_slots h h' → h' !! s = Some b →
  ∃ a, h !! s = Some a ∧ index_ a = index_ b ∧ still_alive_ a = still_alive_ b ∧
       (ready_to_destroy_ a = true → ready_to_destroy_ b = true).
Proof.
  intros H Hb. specialize (H s). rewrite Hb in H.
  inversion H as [a b' (?&?&?)|]; simplify_eq. eauto 10.
Qed.

Lemma same_slots_lookup_l h h' s a :
  same_slots h h' → h !! s = Some a →
  ∃ b, h' !! s = Some b ∧ index_ a = index_ b ∧ still_alive_ a = still_alive_ b ∧
       (ready_to_destroy_ a = true → ready_to_destroy_ b = true).
Proof.
  intros H Ha. specialize (H s). rewrite Ha in H.
  inversion H as [a' b (?&?&?)|]; simplify_eq. eauto 10.
Qed.

Lemma same_slots_None h h' s : same_slots h h' → h !! s = None ↔ h' !! s = None.
Proof.
  intros H. specialize (H s). split; intros Hn; rewrite Hn in H; by inversion H.
Qed.

Lemma same_slots_set_ready h s slot :
  h !! s = Some slot →
  same_slots h (<[s := mark_ready slot]> h).
Proof.
  intros Hs s'. destruct (decide (s = s')) as [<-|Hne].
  - rewrite lookup_insert_eq, Hs. by constructor.
  - rewrite lookup_insert_ne by done. apply same_slots_refl.
Qed.

Lemma use_count_same_slots s w h :
  same_slots (heap w) h → use_count s (set_heap h w) = use_count s w.
Proof.
  intros H. unfold use_count, pending. simpl. specialize (H s).
  destruct H as [a b (?&->&?)|]; done.
Qed.

Lemma released_refl ss w : state_ w ≠ Running → released ss w (heap w).
Proof.
  intros Hs. split; [apply same_slots_refl|]. split; [eauto|done].
Qed.

Lemma token_deleter_Ok s w w' :
  token_deleter s w = Ok w' →
  (state_ w ≠ Running ∧ w' = w) ∨
  (state_ w = Running ∧ ∃ slot, heap w !! s = Some slot ∧
     w' = set_heap (<[s := mark_ready slot]> (heap w)) w).
Proof.
  unfold token_deleter, deref. case_decide as Hs; [|intros [= <-]; by left].
  destruct (heap w !! s) as [slot|]; simpl; [|done]. intros [= <-]. right. eauto.
Qed.

Lemma release_token_Ok s w w' :
  release_token s w = Ok w' → ∃ h, w' = set_heap h w ∧ released [s] w h.
Proof.
  unfold release_token. case_bool_decide as Hc.
  - intros [[Hs ->]|(Hs & slot & Hslot & ->)]%token_deleter_Ok.
    + exists (heap w). split; [by destruct w|]. by apply released_refl.
    + eexists. split; [done|]. split; [by apply same_slots_set_ready|]. split.
      * intros s' b. destruct (decide (s = s')) as [<-|Hne].
        -- auto.
        -- rewrite lookup_insert_ne by done. eauto.
      * intros _ s' ->%list_elem_of_singleton _. rewrite lookup_insert_eq. eauto.
  - intros [= <-]. exists (heap w). split; [by destruct w|].
    split; [apply same_slots_refl|]. split; [eauto|].
    intros _ s' ->%list_elem_of_singleton. done.
Qed.

Lemma release_tokens_Ok ss w w' :
  release_tokens ss w = Ok w' → ∃ h, w' = set_heap h w ∧ released ss w h.
Proof.
  revert w. induction ss as [|s ss IH]; intros w; simpl.
  - intros [= <-]. exists (heap w). split; [by destruct w|].
    split; [apply same_slots_refl|]. split; [eauto|].
    intros _ s []%not_elem_of_nil.
  - intros (w1 & (h1 & -> & (Hsame1 & Hnew1 & Hdone1))%release_token_Ok
              & (h & -> & (Hsame & Hnew & Hdone))%IH)%bind_Ok.
    simpl in *. exists h. split; [done|]. split; [|split].
    + by eapply same_slots_trans.
    + intros s' b Hb Hr. destruct (Hnew s' b Hb Hr) as [(a & Ha & Hra)|Hc].
      * eauto.
      * right. by rewrite use_count_same_slots in Hc.
    + intros Hs s' [->|Hin]%elem_of_cons Hc.
      * destruct (Hdone1 Hs s) as (b & Hb & Hrb); [by left|done|].
        destruct (same_slots_lookup_l _ _ _ _ Hsame Hb) as (c & Hc' & _ & _ & Hrc).
        eauto.
      * apply Hdone; [done..|]. by rewrite use_count_same_slots.
Qed.

(** Queues *)

Lemma take_first_Some d q k rest :
  take_first d q = Some (k, rest) →
  ∃ q1 q2, q = q1 ++ (d, k) :: q2 ∧ rest = q1 ++ q2 ∧ ∀ p, p ∈ q1 → p.1 ≠ d.
Proof.
  revert rest. induction q as [|[d' k'] q IH]; intros rest; simpl; [done|].
  case_decide as Hd.
  - intros [= <- <-]. subst d'. exists [], q. split; [done|]. split; [done|].
    intros p []%not_elem_of_nil.
  - destruct (take_first d q) as [[k1 q1]|]; simpl; [|done].
    intros [= <- <-]. destruct (IH _ eq_refl) as (q1' & q2 & -> & -> & Hq1).
    exists ((d', k') :: q1'), q2. split; [done|]. split; [done|].
    intros p [->|Hin]%elem_of_cons; [done|by apply Hq1].
Qed.

Lemma release_guard_Ok g w w' :
  release_guard g w = Ok w' →
  (guard_count g w ≠ 0 ∧ w' = w) ∨
  (guard_count g w = 0 ∧
   ∃ cb c d h,
     guards w !! g = Some (Some (cb, c)) ∧ main_thread_dispatcher_ w = Some d ∧
     let w1 := set_guards (<[g := None]> (guards w))
                 (post d (Call c) (emit (EvRelease g) w)) in
     w' = set_heap h w1 ∧ released (cb_tokens cb ++ cb_tokens c) w1 h).
Proof.
  unfold release_guard. case_bool_decide as Hc; [|intros [= <-]; by left].
  unfold guard_deleter, main_dispatcher.
  destruct (guards w !! g) as [[[cb c]|]|] eqn:Hg; try done.
  destruct (main_thread_dispatcher_ w) as [d|] eqn:Hd; simpl; [|done].
  intros (h & -> & Hrel)%release_tokens_Ok. right. split; [done|].
  exists cb, c, d, h. eauto.
Qed.

(** ** Effects of the operations *)

Lemma main_and_running_Ok {A} t w (k : Result A) r :
  (_ ← ASSERT (on_main_thread t w); _ ← ASSERT (not_shutdown w); k) = Ok r →
  t = main_thread_id_ w ∧ state_ w ≠ Shutdown ∧ k = Ok r.
Proof.
  unfold on_main_thread, not_shutdown.
  intros (_ & Ht%ASSERT_Ok%bool_decide_eq_true
            & (_ & Hs%ASSERT_Ok%bool_decide_eq_true & H)%bind_Ok)%bind_Ok.
  done.
Qed.

Lemma runOnAllThreads_unfold t cb w :
  t = main_thread_id_ w → state_ w ≠ Shutdown →
  runOnAllThreads t cb w =
  run t cb (post_all (registered_threads_ w) (λ _, Call cb) w).
Proof.
  intros Ht Hs. unfold runOnAllThreads, on_main_thread, not_shutdown.
  by rewrite !bool_decide_true.
Qed.

Lemma runOnAllThreads_Ok t cb w w' :
  runOnAllThreads t cb w = Ok w' →
  t = main_thread_id_ w ∧ state_ w ≠ Shutdown ∧
  ∃ x, w' = set_thread_local_data x
              (emit (EvRun t cb) (post_all (registered_threads_ w) (λ _, Call cb) w)).
Proof.
  intros (Ht & Hs & Hrun%run_Ok)%main_and_running_Ok. done.
Qed.

Lemma runOnAllThreads_complete_Ok t cb c w w' :
  runOnAllThreads_complete t cb c w = Ok w' →
  t = main_thread_id_ w ∧ state_ w ≠ Shutdown ∧
  ∃ x,
    release_guard (length (guards w))
      (post_all (registered_threads_ w) (λ _, GuardCall (length (guards w)))
         (set_guards (guards w ++ [Some (cb, c)])
            (set_thread_local_data x (emit (EvRun t cb) w)))) = Ok w'.
Proof.
  intros (Ht & Hs & (w1 & (x & ->)%run_Ok & H)%bind_Ok)%main_and_running_Ok.
  split; [done|]. split; [done|]. by exists x.
Qed.

Lemma allocateSlot_Ok t w slot w' :
  allocateSlot t w = Ok (slot, w') →
  t = main_thread_id_ w ∧ state_ w ≠ Shutdown ∧ slot = next_slot w ∧
  ((free_slot_indexes_ w = [] ∧
    w' = set_slots (slots_ w ++ [Some slot])
           (set_next_slot (S slot)
              (set_heap (<[slot := {| index_ := length (slots_ w); still_alive_ := true;
                                      ready_to_destroy_ := false |}]> (heap w)) w))) ∨
   (∃ front rest,
      free_slot_indexes_ w = front :: rest ∧ u32 front < length (slots_ w) ∧
      w' = set_slots (<[u32 front := Some slot]> (slots_ w))
             (set_next_slot (S slot)
                (set_heap (<[slot := {| index_ := u32 front; still_alive_ := true;
                                        ready_to_destroy_ := false |}]> (heap w))
                   (set_free_slot_indexes rest w))))).
Proof.
  intros (Ht & Hs & H)%main_and_running_Ok. split; [done|]. split; [done|].
  destruct (free_slot_indexes_ w) as [|front rest] eqn:Hfree.
  - simpl in H. injection H as <- <-. split; [done|]. by left.
  - apply bind_Ok in H as (_ & Hlt%ASSERT_Ok%bool_decide_eq_true & H).
    simpl in *. injection H as <- <-. split; [done|]. right. eauto.
Qed.

Lemma removeSlot_Ok t slot w w' :
  removeSlot t slot w = Ok w' →
  t = main_thread_id_ w ∧
  ((state_ w = Shutdown ∧ w' = w) ∨
   (state_ w ≠ Shutdown ∧
    ∃ s x, heap w !! slot = Some s ∧ index_ s < length (slots_ w) ∧
      (index_ s ∉ free_slot_indexes_ w) ∧
      w' = set_thread_local_data x
             (emit (EvRun t (ClearCb (index_ s)))
                (post_all (registered_threads_ w) (λ _, Call (ClearCb (index_ s)))
                   (set_free_slot_indexes (free_slot_indexes_ w ++ [index_ s])
                      (set_slots (<[index_ s := None]> (slots_ w)) w)))))).
Proof.
  unfold removeSlot, on_main_thread, deref.
  intros (_ & Ht%ASSERT_Ok%bool_decide_eq_true & H)%bind_Ok. split; [done|].
  case_decide as Hs; [injection H as <-; by left|]. right. split; [done|].
  destruct (heap w !! slot) as [s|] eqn:Hslot; simpl in H; [|done].
  case_bool_decide as Hlt; [|done].
  apply bind_Ok in H as (_ & Hfree%ASSERT_Ok%bool_decide_eq_true & H).
  simpl in Hfree.
  apply runOnAllThreads_Ok in H as (_ & _ & x & ->). simpl.
  exists s, x. done.
Qed.

Lemma SlotImpl_dtor_finish_Ok t slot w w' :
  SlotImpl_dtor_finish t slot w = Ok w' →
  ∃ w1, removeSlot t slot w = Ok w1 ∧ w' = set_heap (delete slot (heap w1)) w1.
Proof. unfold SlotImpl_dtor_finish. intros (w1 & ? & [= <-])%bind_Ok. eauto. Qed.

Lemma SlotImpl_dtor_Ok t slot w w' :
  SlotImpl_dtor t slot w = Ok w' →
  ∃ s h,
    heap w !! slot = Some s ∧ still_alive_ s = true ∧
    released [slot] (set_heap (<[slot := reset_handle s]> (heap w)) w) h ∧
    ((state_ w = Running ∧ w' = set_waiting ((t, slot) :: waiting w) (set_heap h w)) ∨
     (state_ w ≠ Running ∧ SlotImpl_dtor_finish t slot (set_heap h w) = Ok w')).
Proof.
  unfold SlotImpl_dtor, deref.
  destruct (heap w !! slot) as [s|] eqn:Hslot; simpl; [|done].
  destruct (still_alive_ s) eqn:Halive; [|done].
  intros (w1 & (h & -> & Hrel)%release_token_Ok & H)%bind_Ok. simpl in H.
  exists s, h. split; [done|]. split; [done|]. split; [done|].
  case_decide as Hs.
  - left. injection H as <-. done.
  - right. done.
Qed.

Lemma SlotImpl_dtor_resume_Ok t slot w w' :
  SlotImpl_dtor_resume t slot w = Ok w' →
  (t, slot) ∈ waiting w ∧
  ∃ s, heap w !! slot = Some s ∧ ready_to_destroy_ s = true ∧
    SlotImpl_dtor_finish t slot
      (set_waiting (filter (λ p, p ≠ (t, slot)) (waiting w)) w) = Ok w'.
Proof.
  unfold SlotImpl_dtor_resume, deref. case_bool_decide as Hw; [|done].
  destruct (heap w !! slot) as [s|] eqn:Hslot; simpl; [|done].
  destruct (ready_to_destroy_ s) eqn:Hr; [|done]. eauto.
Qed.

Lemma SlotImpl_set_Ok t slot cb w w' :
  SlotImpl_set t slot cb w = Ok w' →
  t = main_thread_id_ w ∧ state_ w ≠ Shutdown ∧
  ∃ s d data,
    heap w !! slot = Some s ∧ main_thread_dispatcher_ w = Some d ∧
    w' = set_data t data
           (post_all (registered_threads_ w)
              (λ dispatcher,
                 Call (wrapCallback slot s (InitCb (u32 (index_ s)) cb dispatcher))) w) ∧
    setThreadLocal (u32 (index_ s)) (cb d) (data_ (tld t w)) = Ok data.
Proof.
  unfold SlotImpl_set, deref, main_dispatcher.
  destruct (heap w !! slot) as [s|] eqn:Hslot; simpl; [|done].
  intros (Ht & Hs & H)%main_and_running_Ok. split; [done|]. split; [done|].
  rewrite post_all_eq in H. simpl in H.
  destruct (main_thread_dispatcher_ w) as [d|] eqn:Hd; simpl in H; [|done].
  apply on_thread_Ok in H as (data & Hdata & ->).
  exists s, d, data. rewrite post_all_eq. done.
Qed.

Lemma registerThread_Ok t d main_thread w w' :
  registerThread t d main_thread w = Ok w' →
  t = main_thread_id_ w ∧ state_ w ≠ Shutdown ∧
  if main_thread
  then w' = set_dispatcher t (Some d) (set_main_thread_dispatcher (Some d) w)
  else (d ∉ registered_threads_ w) ∧
       w' = post d (RegisterCall d)
              (set_registered_threads (registered_threads_ w ++ [d]) w).
Proof.
  intros (Ht & Hs & H)%main_and_running_Ok. split; [done|]. split; [done|].
  destruct main_thread.
  - by injection H as <-.
  - apply bind_Ok in H as (_ & Hd%ASSERT_Ok%bool_decide_eq_true & [= <-]). done.
Qed.

Lemma startGlobalThreading_Ok w w' :
  startGlobalThreading w = Ok w' →
  state_ w = Initializing ∧ w' = set_state Running w.
Proof.
  unfold startGlobalThreading.
  by intros (_ & Hs%ASSERT_Ok%bool_decide_eq_true & [= <-])%bind_Ok.
Qed.

Lemma shutdownGlobalThreading_Ok t w w' :
  shutdownGlobalThreading t w = Ok w' →
  t = main_thread_id_ w ∧ state_ w ≠ Shutdown ∧ w' = set_state Shutdown w.
Proof. by intros (Ht & Hs & [= <-])%main_and_running_Ok. Qed.

Lemma foldl_reset_cell_eq t l w :
  ∃ x, foldl (reset_cell t) w l =
       set_thread_local_data x (set_log (log w ++ map (EvReset t) l) w).
Proof.
  revert w. induction l as [|i l IH]; intros w; simpl.
  - exists (thread_local_data_ w). rewrite app_nil_r. by destruct w.
  - destruct (IH (reset_cell t w i)) as (x & ->). exists x.
    unfold reset_cell, emit, set_data. simpl. by rewrite <- app_assoc.
Qed.

Lemma log_foldl_reset_cell t l w :
  log (foldl (reset_cell t) w l) = log w ++ map (EvReset t) l.
Proof.
  revert w. induction l as [|i l IH]; intros w; simpl.
  - by rewrite app_nil_r.
  - rewrite IH. simpl. by rewrite <- app_assoc.
Qed.

Lemma tld_foldl_reset_cell_ne t t' l w :
  t ≠ t' → tld t' (foldl (reset_cell t) w l) = tld t' w.
Proof.
  intros Hne. revert w. induction l as [|i l IH]; intros w; simpl; [done|].
  rewrite IH. unfold reset_cell. rewrite tld_emit. by apply tld_set_data_ne.
Qed.

Lemma shutdownThread_Ok t w w' :
  shutdownThread t w = Ok w' →
  state_ w = Shutdown ∧
  ∃ x, w' = set_thread_local_data x
              (set_log (log w ++ map (EvReset t)
                          (reverse (seq 0 (length (data_ (tld t w)))))) w).
Proof.
  unfold shutdownThread.
  intros (_ & Hs%ASSERT_Ok%bool_decide_eq_true & [= <-])%bind_Ok. split; [done|].
  destruct (foldl_reset_cell_eq t (reverse (seq 0 (length (data_ (tld t w))))) w)
    as (x & ->).
  eexists. unfold set_data. simpl. done.
Qed.

Lemma dispatch_Ok d w w' :
  dispatch d w = Ok w' →
  ∃ k q1 q2,
    posted w = q1 ++ (d, k) :: q2 ∧ (∀ p, p ∈ q1 → p.1 ≠ d) ∧
    let w1 := emit (EvDispatch d k) (set_posted (q1 ++ q2) w) in
    match k with
    | Call cb =>
        ∃ x h, released (cb_tokens cb)
                 (set_thread_local_data x (emit (EvRun d cb) w1)) h ∧
               w' = set_heap h (set_thread_local_data x (emit (EvRun d cb) w1))
    | GuardCall g =>
        ∃ cb c x, guards w !! g = Some (Some (cb, c)) ∧
          release_guard g (set_thread_local_data x (emit (EvRun d cb) w1)) = Ok w'
    | RegisterCall d' => w' = set_dispatcher d (Some d') w1
    end.
Proof.
  unfold dispatch.
  destruct (take_first d (posted w)) as [[k rest]|] eqn:Htake; [|done].
  apply take_first_Some in Htake as (q1 & q2 & Hq & -> & Hq1).
  intros H. exists k, q1, q2. split; [done|]. split; [done|].
  destruct k as [cb|g|d']; simpl in *.
  - apply bind_Ok in H as (w2 & (x & ->)%run_Ok & (h & -> & Hrel)%release_tokens_Ok).
    eauto.
  - destruct (guards w !! g) as [[[cb c]|]|] eqn:Hg; try done.
    apply bind_Ok in H as (w2 & (x & ->)%run_Ok & H). eauto 10.
  - by injection H as <-.
Qed.

(** ** The registry invariant *)

Lemma heap_index_lookup w s i :
  heap_index w !! s = Some i ↔ ∃ slot, heap w !! s = Some slot ∧ index_ slot = i.
Proof.
  unfold heap_index. rewrite lookup_fmap_Some. split; intros (slot & ? & ?); eauto.
Qed.

Lemma same_slots_index h h' : same_slots h h' → index_ <$> h' = index_ <$> h.
Proof.
  intros H. apply map_eq. intros s. rewrite !lookup_fmap. specialize (H s).
  destruct (h !! s), (h' !! s); inversion H as [?? (?&?&?)|]; simpl; congruence.
Qed.

Lemma registry_frame_refl w : registry_frame w w.
Proof. done. Qed.

Lemma registry_frame_trans w1 w2 w3 :
  registry_frame w1 w2 → registry_frame w2 w3 → registry_frame w1 w3.
Proof. unfold registry_frame. intros (?&?&?&?&?) (?&?&?&?&?). repeat split; congruence. Qed.

Lemma registry_frame_released ss w h :
  released ss w h → registry_frame w (set_heap h w).
Proof.
  intros (Hsame & _). unfold registry_frame, heap_index. simpl.
  by rewrite (same_slots_index _ _ Hsame).
Qed.

Lemma registry_inv_frame w w' :
  registry_frame w w' → registry_inv w → registry_inv w'.
Proof.
  intros (Hs & Hsl & Hf & Hh & Hn) [H1 H2 H3 H4 H5]. split.
  - rewrite Hf, Hsl. done.
  - by rewrite Hf.
  - rewrite Hs, Hsl. intros Hns i s Hi. apply heap_index_lookup.
    rewrite Hh. apply heap_index_lookup. by apply H3.
  - rewrite Hsl. intros s slot Hslot.
    assert (heap_index w' !! s = Some (index_ slot)) as Hi
      by (apply heap_index_lookup; eauto).
    rewrite Hh in Hi. apply heap_index_lookup in Hi as (slot0 & Hslot0 & <-).
    by apply H4.
  - rewrite Hn. intros s slot Hslot.
    assert (heap_index w' !! s = Some (index_ slot)) as Hi
      by (apply heap_index_lookup; eauto).
    rewrite Hh in Hi. apply heap_index_lookup in Hi as (slot0 & Hslot0 & _).
    by eapply H5.
Qed.

(** Operations that leave the bookkeeping alone. *)

Lemma release_guard_registry_frame g w w' :
  release_guard g w = Ok w' → registry_frame w w'.
Proof.
  intros [[_ ->]|(_ & cb & c & d & h & _ & _ & H)]%release_guard_Ok; [done|].
  simpl in H. destruct H as [-> Hrel].
  apply registry_frame_released in Hrel. done.
Qed.

Lemma post_all_registry_frame ds k w : registry_frame w (post_all ds k w).
Proof. by rewrite post_all_eq. Qed.

Lemma runOnAllThreads_registry_frame t cb w w' :
  runOnAllThreads t cb w = Ok w' → registry_frame w w'.
Proof.
  intros (_ & _ & x & ->)%runOnAllThreads_Ok. by rewrite post_all_eq.
Qed.

Lemma runOnAllThreads_complete_registry_frame t cb c w w' :
  runOnAllThreads_complete t cb c w = Ok w' → registry_frame w w'.
Proof.
  intros (_ & _ & x & H%release_guard_registry_frame)%runOnAllThreads_complete_Ok.
  by rewrite post_all_eq in H.
Qed.

Lemma SlotImpl_set_registry_frame t slot cb w w' :
  SlotImpl_set t slot cb w = Ok w' → registry_frame w w'.
Proof.
  intros (_ & _ & s & d & data & _ & _ & -> & _)%SlotImpl_set_Ok.
  by rewrite post_all_eq.
Qed.

Lemma registerThread_registry_frame t d m w w' :
  registerThread t d m w = Ok w' → registry_frame w w'.
Proof.
  intros (_ & _ & H)%registerThread_Ok. destruct m; [by subst|].
  by destruct H as [_ ->].
Qed.

Lemma shutdownThread_registry_frame t w w' :
  shutdownThread t w = Ok w' → registry_frame w w'.
Proof. by intros (_ & x & ->)%shutdownThread_Ok. Qed.

Lemma dispatch_registry_frame d w w' :
  dispatch d w = Ok w' → registry_frame w w'.
Proof.
  intros (k & q1 & q2 & _ & _ & H)%dispatch_Ok. simpl in H.
  destruct k as [cb|g|d'].
  - destruct H as (x & h & Hrel%registry_frame_released & ->). done.
  - destruct H as (cb & c & x & _ & H%release_guard_registry_frame). done.
  - by subst.
Qed.

(** Allocation. *)

Lemma registry_inv_index_lt w i s :
  slots_ w !! i = Some s → i < length (slots_ w).
Proof. apply lookup_lt_Some. Qed.

Lemma allocateSlot_registry_inv t w slot w' :
  registry_inv w → fits_u32 (length (slots_ w)) →
  allocateSlot t w = Ok (slot, w') → registry_inv w'.
Proof.
  intros [H1 H2 H3 H4 H5] Hfit (_ & Hs & -> & H)%allocateSlot_Ok.
  assert (heap w !! next_slot w = None) as Hfresh.
  { destruct (heap w !! next_slot w) as [slot|] eqn:E; [|done].
    apply H5 in E. lia. }
  destruct H as [[Hfree ->]|(front & rest & Hfree & Hlt & ->)].
  - split; simpl.
    + rewrite Hfree. intros i []%not_elem_of_nil.
    + done.
    + intros _ i s [[_ Hi]|[-> [= <-]]]%lookup_snoc_Some.
      * destruct (H3 Hs i s Hi) as (slot & Hslot & <-).
        exists slot. split; [|done]. rewrite lookup_insert_ne; [done|].
        intros <-. by rewrite Hfresh in Hslot.
      * rewrite lookup_insert_eq. eauto.
    + intros s slot. destruct (decide (next_slot w = s)) as [<-|Hne].
      * rewrite lookup_insert_eq. intros [= <-]. simpl.
        rewrite lookup_app_r by done. by rewrite Nat.sub_diag.
      * rewrite lookup_insert_ne by done. intros Hslot%H4.
        by apply lookup_app_l_Some.
    + intros s slot. destruct (decide (next_slot w = s)) as [<-|Hne].
      * lia.
      * rewrite lookup_insert_ne by done. intros ?%H5. lia.
  - assert (front ∈ free_slot_indexes_ w) as Hin by (rewrite Hfree; by left).
    assert (front < length (slots_ w)) as Hfront
      by (eapply lookup_lt_Some, H1, Hin).
    rewrite (u32_fits front) in * by (by eapply fits_u32_le; [|done]; lia).
    rewrite Hfree in H1, H2. apply NoDup_cons in H2 as [Hnin H2].
    split; simpl.
    + intros i Hi. rewrite list_lookup_insert_ne by (by intros <-).
      apply H1. by right.
    + done.
    + intros _ i s. destruct (decide (front = i)) as [<-|Hne].
      * rewrite list_lookup_insert_eq by done. intros [= <-].
        rewrite lookup_insert_eq. eauto.
      * rewrite list_lookup_insert_ne by done. intros Hi.
        destruct (H3 Hs i s Hi) as (slot & Hslot & <-).
        exists slot. split; [|done]. rewrite lookup_insert_ne; [done|].
        intros <-. by rewrite Hfresh in Hslot.
    + intros s slot. destruct (decide (next_slot w = s)) as [<-|Hne].
      * rewrite lookup_insert_eq. intros [= <-]. simpl.
        by rewrite list_lookup_insert_eq.
      * rewrite lookup_insert_ne by done. intros Hslot.
        rewrite list_lookup_insert_ne; [by apply H4|].
        intros Heq. apply H4 in Hslot. rewrite <- Heq in Hslot.
        rewrite (H1 front) in Hslot; [done|by left].
    + intros s slot. destruct (decide (next_slot w = s)) as [<-|Hne].
      * lia.
      * rewrite lookup_insert_ne by done. intros ?%H5. lia.
Qed.

(** Destruction. *)

Lemma heap_index_reset w slot s :
  heap w !! slot = Some s →
  index_ <$> <[slot := reset_handle s]> (heap w) = index_ <$> heap w.
Proof.
  intros Hs. rewrite fmap_insert. simpl. apply insert_id.
  by rewrite lookup_fmap, Hs.
Qed.

Lemma reset_registry_frame w slot s h :
  heap w !! slot = Some s →
  released [slot] (set_heap (<[slot := reset_handle s]> (heap w)) w) h →
  registry_frame w (set_heap h w).
Proof.
  intros Hs (Hsame & _). unfold registry_frame, heap_index. simpl in *.
  by rewrite (same_slots_index _ _ Hsame), heap_index_reset.
Qed.

Lemma SlotImpl_dtor_finish_registry_inv t slot w w' :
  registry_inv w → SlotImpl_dtor_finish t slot w = Ok w' → registry_inv w'.
Proof.
  intros [H1 H2 H3 H4 H5] (w1 & Hrm & ->)%SlotImpl_dtor_finish_Ok.
  apply removeSlot_Ok in Hrm as (_ & [[Hs ->]|(Hs & s & x & Hslot & Hlt & Hnin & ->)]).
  - split; simpl; [done|done|done| |].
    + intros s slot0 [Hne Hs0]%lookup_delete_Some. by apply H4.
    + intros s slot0 [Hne Hs0]%lookup_delete_Some. by eapply H5.
  - rewrite post_all_eq. split; simpl.
    + intros j [Hj| ->%list_elem_of_singleton]%elem_of_app.
      * destruct (decide (index_ s = j)) as [<-|Hne]; [done|].
        rewrite list_lookup_insert_ne by done. by apply H1.
      * by apply list_lookup_insert_eq.
    + apply NoDup_app. split; [done|]. split; [|apply NoDup_singleton].
      intros j Hj ->%list_elem_of_singleton. done.
    + intros _ j s'. destruct (decide (index_ s = j)) as [<-|Hne].
      * by rewrite list_lookup_insert_eq.
      * rewrite list_lookup_insert_ne by done. intros Hj.
        destruct (H3 Hs j s' Hj) as (slot' & Hslot' & <-).
        exists slot'. split; [|done]. rewrite lookup_delete_ne; [done|].
        intros <-. congruence.
    + intros s' slot' [Hne Hs']%lookup_delete_Some.
      rewrite list_lookup_insert_ne; [by apply H4|].
      intros Heq. apply H4 in Hs', Hslot. rewrite Heq in Hslot. congruence.
    + intros s' slot' [Hne Hs']%lookup_delete_Some. by eapply H5.
Qed.

Lemma registry_inv_set_waiting l w : registry_inv w → registry_inv (set_waiting l w).
Proof. by apply registry_inv_frame. Qed.

Lemma registry_inv_set_state st w :
  (st ≠ Shutdown → state_ w ≠ Shutdown) →
  registry_inv w → registry_inv (set_state st w).
Proof. intros Hst [H1 H2 H3 H4 H5]. split; simpl; auto. Qed.

Lemma perform_registry_inv op w w' :
  registry_inv w → fits_u32 (length (slots_ w)) →
  perform op w = Ok w' → registry_inv w'.
Proof.
  intros Hinv Hfit. destruct op; simpl.
  - intros ([slot w1] & H & [= <-])%bind_Ok. by eapply allocateSlot_registry_inv.
  - intros (s & h & Hslot & _ & Hrel & [[_ ->]|[_ Hfin]])%SlotImpl_dtor_Ok.
    + apply registry_inv_set_waiting.
      eapply registry_inv_frame; [|done]. by eapply reset_registry_frame.
    + eapply SlotImpl_dtor_finish_registry_inv; [|done].
      eapply registry_inv_frame; [|done]. by eapply reset_registry_frame.
  - intros (_ & s & _ & _ & Hfin)%SlotImpl_dtor_resume_Ok.
    eapply SlotImpl_dtor_finish_registry_inv; [|done].
    by apply registry_inv_set_waiting.
  - intros ?%SlotImpl_set_registry_frame. by eapply registry_inv_frame.
  - unfold SlotImpl_runOnAllThreads.
    intros (s & _ & ?%runOnAllThreads_registry_frame)%bind_Ok.
    by eapply registry_inv_frame.
  - unfold SlotImpl_runOnAllThreads_complete.
    intros (s & _ & ?%runOnAllThreads_complete_registry_frame)%bind_Ok.
    by eapply registry_inv_frame.
  - unfold SlotImpl_runOnAllThreads_update, SlotImpl_runOnAllThreads.
    intros (s & _ & ?%runOnAllThreads_registry_frame)%bind_Ok.
    by eapply registry_inv_frame.
  - unfold SlotImpl_runOnAllThreads_update_complete, SlotImpl_runOnAllThreads_complete.
    intros (s & _ & ?%runOnAllThreads_complete_registry_frame)%bind_Ok.
    by eapply registry_inv_frame.
  - intros ?%registerThread_registry_frame. by eapply registry_inv_frame.
  - intros (Hs & ->)%startGlobalThreading_Ok.
    apply registry_inv_set_state; [|done]. intros _. by rewrite Hs.
  - intros (_ & _ & ->)%shutdownGlobalThreading_Ok.
    by apply registry_inv_set_state.
  - intros ?%shutdownThread_registry_frame. by eapply registry_inv_frame.
  - intros ?%dispatch_registry_frame. by eapply registry_inv_frame.
Qed.

Lemma step_perform op w w' : step op w = Ok w' → perform op w = Ok w'.
Proof.
  unfold step. destruct op; try done; by destruct (blocked _ w).
Qed.

(** The slot sequence grows by allocation only, and only when no index is
    free. *)
Lemma removeSlot_slots_length t slot w w' :
  removeSlot t slot w = Ok w' → length (slots_ w') = length (slots_ w).
Proof.
  intros (_ & [[_ ->]|(_ & s & x & _ & _ & _ & ->)])%removeSlot_Ok; [done|].
  rewrite post_all_eq. simpl. by rewrite length_insert.
Qed.

Lemma SlotImpl_dtor_finish_slots_length t slot w w' :
  SlotImpl_dtor_finish t slot w = Ok w' → length (slots_ w') = length (slots_ w).
Proof.
  intros (w1 & Hrm%removeSlot_slots_length & ->)%SlotImpl_dtor_finish_Ok. done.
Qed.

Lemma perform_slots w op w' :
  perform op w = Ok w' →
  length (slots_ w') = length (slots_ w) ∨
  (free_slot_indexes_ w = [] ∧ slots_ w' = slots_ w ++ [Some (next_slot w)]).
Proof.
  destruct op; simpl.
  - intros ([slot w1] & (_ & _ & -> & H)%allocateSlot_Ok & [= <-])%bind_Ok.
    destruct H as [[Hfree ->]|(front & rest & Hfree & Hlt & ->)]; simpl.
    + by right.
    + left. by rewrite length_insert.
  - intros (s & h & Hslot & _ & Hrel & [[_ ->]|[_ Hfin]])%SlotImpl_dtor_Ok;
      [by left|]. left. by apply SlotImpl_dtor_finish_slots_length in Hfin.
  - intros (_ & s & _ & _ & Hfin%SlotImpl_dtor_finish_slots_length)%SlotImpl_dtor_resume_Ok.
    by left.
  - intros (_ & Hsl & _)%SlotImpl_set_registry_frame. left. by rewrite Hsl.
  - unfold SlotImpl_runOnAllThreads.
    intros (s & _ & (_ & Hsl & _)%runOnAllThreads_registry_frame)%bind_Ok.
    left. by rewrite Hsl.
  - unfold SlotImpl_runOnAllThreads_complete.
    intros (s & _ & (_ & Hsl & _)%runOnAllThreads_complete_registry_frame)%bind_Ok.
    left. by rewrite Hsl.
  - unfold SlotImpl_runOnAllThreads_update, SlotImpl_runOnAllThreads.
    intros (s & _ & (_ & Hsl & _)%runOnAllThreads_registry_frame)%bind_Ok.
    left. by rewrite Hsl.
  - unfold SlotImpl_runOnAllThreads_update_complete, SlotImpl_runOnAllThreads_complete.
    intros (s & _ & (_ & Hsl & _)%runOnAllThreads_complete_registry_frame)%bind_Ok.
    left. by rewrite Hsl.
  - intros (_ & Hsl & _)%registerThread_registry_frame. left. by rewrite Hsl.
  - intros (_ & ->)%startGlobalThreading_Ok. by left.
  - intros (_ & _ & ->)%shutdownGlobalThreading_Ok. by left.
  - intros (_ & Hsl & _)%shutdownThread_registry_frame. left. by rewrite Hsl.
  - intros (_ & Hsl & _)%dispatch_registry_frame. left. by rewrite Hsl.
Qed.

Lemma perform_slots_length w op w' :
  perform op w = Ok w' → length (slots_ w) ≤ length (slots_ w').
Proof.
  intros [->|[_ ->]]%perform_slots; [done|]. rewrite length_app. lia.
Qed.

(** Executions *)

Lemma exec_app ops1 ops2 w :
  exec (ops1 ++ ops2) w = w1 ← exec ops1 w; exec ops2 w1.
Proof.
  revert w. induction ops1 as [|op ops1 IH]; intros w; simpl; [done|].
  destruct (step op w); simpl; [apply IH|done].
Qed.

Lemma exec_snoc_Ok ops op w w' :
  exec (ops ++ [op]) w = Ok w' ↔ ∃ w1, exec ops w = Ok w1 ∧ step op w1 = Ok w'.
Proof.
  rewrite exec_app, bind_Ok. simpl. split; intros (w1 & H1 & H2); exists w1;
    (split; [done|]).
  - by apply bind_Ok in H2 as (w2 & ? & [= <-]).
  - by rewrite H2.
Qed.

Lemma reachable_init main : reachable (init main).
Proof. by exists main, []. Qed.

Lemma reachable_step op w w' : reachable w → step op w = Ok w' → reachable w'.
Proof.
  intros (main & ops & Hops) Hstep. exists main, (ops ++ [op]).
  apply exec_snoc_Ok. eauto.
Qed.

Lemma reachable_exec ops w w' : reachable w → exec ops w = Ok w' → reachable w'.
Proof.
  revert w. induction ops as [|op ops IH]; intros w Hw; simpl.
  - by intros [= <-].
  - intros (w1 & Hstep & Hexec)%bind_Ok. eapply IH; [|done].
    by eapply reachable_step.
Qed.

Lemma reachable_ind (P : World → Prop) :
  (∀ main, P (init main)) →
  (∀ op w w', reachable w → P w → step op w = Ok w' → P w') →
  ∀ w, reachable w → P w.
Proof.
  intros Hinit Hstep w (main & ops & Hops). revert w Hops.
  induction ops as [|op ops IH] using rev_ind; intros w.
  - intros [= <-]. apply Hinit.
  - intros (w1 & Hw1 & Hop)%exec_snoc_Ok.
    eapply Hstep; [by exists main, ops|by apply IH|done].
Qed.

Lemma registry_inv_init main : registry_inv (init main).
Proof.
  split; simpl; try done.
  - intros i []%not_elem_of_nil.
  - apply NoDup_nil_2.
Qed.

Lemma reachable_registry_inv w :
  reachable w → fits_u32 (length (slots_ w)) → registry_inv w.
Proof.
  intros Hw. induction Hw as [main|op w w' Hw IH Hstep] using reachable_ind.
  - intros _. apply registry_inv_init.
  - intros Hfit. apply step_perform in Hstep.
    assert (fits_u32 (length (slots_ w))) as Hfit'
      by (eapply fits_u32_le; [by eapply perform_slots_length|done]).
    by eapply perform_registry_inv; [apply IH| |].
Qed.

(** ** The invariant of the liveness tokens *)

Lemma occurrences_pos s l : 0 < occurrences s l ↔ s ∈ l.
Proof.
  destruct (decide (s ∈ l)) as [Hin|Hnin].
  - split; [done|]. intros _.
    destruct (occurrences s l) eqn:E; [|lia].
    by apply occurrences_zero in E.
  - split; [|done]. apply occurrences_zero in Hnin. lia.
Qed.

Lemma use_count_alive s w slot :
  heap w !! s = Some slot → still_alive_ slot = true → 0 < use_count s w.
Proof. intros Hs Ha. unfold use_count. rewrite Hs, Ha. lia. Qed.

Lemma use_count_zero s w slot :
  heap w !! s = Some slot → use_count s w = 0 →
  still_alive_ slot = false ∧ pending s w = 0.
Proof.
  intros Hs. unfold use_count. rewrite Hs. destruct (still_alive_ slot); lia.
Qed.

Lemma use_count_reset s w slot :
  heap w !! s = Some slot → still_alive_ slot = false → use_count s w = pending s w.
Proof. intros Hs Ha. unfold use_count. by rewrite Hs, Ha. Qed.

Lemma tokens_inv_upto_weaken ss ss' w :
  (∀ s, s ∈ ss → s ∈ ss') → tokens_inv_upto ss w → tokens_inv_upto ss' w.
Proof.
  intros Hsub [H1 H2 H3 H4 H5 H6]. split; auto.
  intros s slot Hss'. apply H5. intros Hss. by apply Hss', Hsub.
Qed.

(** The closures change, the heap does not. *)
Lemma tokens_inv_change ss ss' w w' :
  heap w' = heap w → waiting w' = waiting w → state_ w' = state_ w →
  main_thread_id_ w' = main_thread_id_ w → next_slot w' = next_slot w →
  (∀ s, pending s w < pending s w' →
        ∃ slot, heap w !! s = Some slot ∧ still_alive_ slot = true) →
  (∀ s, s ∉ ss' → pending s w ≤ pending s w') →
  tokens_inv_upto ss w → tokens_inv_upto (ss' ++ ss) w'.
Proof.
  intros Hh Hw Hs Hm Hn Hup Hdown [H1 H2 H3 H4 H5 H6].
  split; rewrite ?Hh, ?Hw, ?Hs, ?Hm, ?Hn; try done.
  - intros s slot Hslot Hr.
    destruct (use_count_zero _ _ _ Hslot (H1 _ _ Hslot Hr)) as [Ha Hp].
    unfold use_count. rewrite Hh, Hslot, Ha. simpl.
    destruct (decide (pending s w < pending s w')) as [Hlt|]; [|lia].
    destruct (Hup _ Hlt) as (slot' & ? & ?). congruence.
  - intros s slot [Hss' Hss]%not_elem_of_app Hin Hslot Hp.
    apply (H5 s); [done..|]. specialize (Hdown _ Hss'). lia.
Qed.

Lemma tokens_inv_same ss w w' :
  heap w' = heap w → waiting w' = waiting w → state_ w' = state_ w →
  main_thread_id_ w' = main_thread_id_ w → next_slot w' = next_slot w →
  (∀ s, pending s w' = pending s w) →
  tokens_inv_upto ss w → tokens_inv_upto ss w'.
Proof.
  intros Hh Hw Hs Hm Hn Hp Hinv.
  apply (tokens_inv_change ss [] w w'); try done.
  - intros s. rewrite Hp. lia.
  - intros s _. by rewrite Hp.
Qed.

(** The deleters restore the last clause. *)
Lemma tokens_inv_released ss w h :
  tokens_inv_upto ss w → released ss w h → tokens_inv (set_heap h w).
Proof.
  intros [H1 H2 H3 H4 H5 H6] (Hsame & Hnew & Hdone). split; simpl.
  - intros s b Hb Hr. rewrite use_count_same_slots by done.
    destruct (Hnew s b Hb Hr) as [(a & Ha & Hra)|]; [by eapply H1|done].
  - intros t s (a & Ha & Haa)%H2.
    destruct (same_slots_lookup_l _ _ _ _ Hsame Ha) as (b & Hb & _ & Hab & _).
    exists b. split; [done|]. congruence.
  - done.
  - done.
  - intros s b _ Hin Hb Hp.
    destruct (same_slots_lookup _ _ _ _ Hsame Hb) as (a & Ha & _ & Hab & Hrab).
    destruct (decide (s ∈ ss)) as [Hss|Hss].
    + destruct (H2 _ _ Hin) as (a' & Ha' & Haa').
      destruct (Hdone (H4 _ Hin) s Hss) as (b' & Hb' & Hr').
      { rewrite (use_count_reset _ _ _ Ha' Haa'). done. }
      congruence.
    + apply Hrab. by eapply (H5 s).
  - intros s b Hb.
    destruct (same_slots_lookup _ _ _ _ Hsame Hb) as (a & Ha & _). by eapply H6.
Qed.

(** Tokens held by what is posted *)

Lemma pending_posted_app s l w :
  pending s (set_posted (posted w ++ l) w) =
  pending s w + occurrences s (l ≫= λ p, task_tokens p.2).
Proof. unfold pending. simpl. rewrite bind_app, occurrences_app. lia. Qed.

Lemma pending_posted_remove s q1 p q2 w :
  posted w = q1 ++ p :: q2 →
  pending s w = pending s (set_posted (q1 ++ q2) w) + occurrences s (task_tokens p.2).
Proof.
  intros Hq. unfold pending. simpl. rewrite Hq, !bind_app, bind_cons.
  rewrite !occurrences_app. lia.
Qed.

Lemma pending_guards_app s l w :
  pending s (set_guards (guards w ++ l) w) =
  pending s w + occurrences s (l ≫= guard_tokens).
Proof. unfold pending. simpl. rewrite bind_app, occurrences_app. lia. Qed.

Lemma pending_guards_delete s g c w :
  guards w !! g = Some c →
  pending s w = pending s (set_guards (<[g := None]> (guards w)) w)
                + occurrences s (guard_tokens c).
Proof.
  intros Hg. unfold pending. simpl.
  pose proof (take_drop_middle _ _ _ Hg) as Hsplit.
  rewrite insert_take_drop by (by eapply lookup_lt_Some).
  rewrite <- Hsplit at 1.
  rewrite !bind_app, !bind_cons, !occurrences_app. simpl. lia.
Qed.

Lemma bind_const_nil {A B} (l : list A) (f : A → list B) :
  (∀ x, x ∈ l → f x = []) → l ≫= f = [].
Proof.
  induction l as [|x l IH]; intros Hf; [done|].
  rewrite bind_cons, Hf by (by left). simpl. apply IH. intros y Hy. apply Hf. by right.
Qed.

Lemma occurrences_bind_pos {A} s (l : list A) (f : A → list nat) :
  0 < occurrences s (l ≫= f) → ∃ x, x ∈ l ∧ s ∈ f x.
Proof.
  intros (x & ? & ?)%occurrences_pos%list_elem_of_bind. eauto.
Qed.

Lemma cb_tokens_wrapCallback slot s cb :
  cb_tokens cb = [] →
  cb_tokens (wrapCallback slot s cb) = if still_alive_ s then [slot] else [].
Proof. intros Hcb. unfold wrapCallback. simpl. rewrite Hcb. by destruct (still_alive_ s). Qed.

Lemma elem_of_cb_tokens_wrapCallback s' slot s cb :
  cb_tokens cb = [] → s' ∈ cb_tokens (wrapCallback slot s cb) →
  s' = slot ∧ still_alive_ s = true.
Proof.
  intros Hcb. rewrite cb_tokens_wrapCallback by done.
  destruct (still_alive_ s); [|by intros []%not_elem_of_nil].
  by intros ->%list_elem_of_singleton.
Qed.

Lemma pending_post_all s ds k w :
  pending s (post_all ds k w) =
  pending s w + occurrences s (map (λ d, (d, k d)) ds ≫= λ p, task_tokens p.2).
Proof.
  rewrite post_all_eq. unfold pending. simpl. rewrite bind_app, occurrences_app. lia.
Qed.

(** Posting closures that hold tokens of live handles only. *)
Lemma tokens_inv_post_all ss ds k w :
  (∀ d s, s ∈ task_tokens (k d) →
          ∃ slot, heap w !! s = Some slot ∧ still_alive_ slot = true) →
  tokens_inv_upto ss w → tokens_inv_upto ss (post_all ds k w).
Proof.
  intros Hk Hinv.
  apply (tokens_inv_change ss [] w); try (by rewrite post_all_eq); try done.
  - intros s. rewrite pending_post_all. intros Hlt.
    assert (0 < occurrences s (map (λ d, (d, k d)) ds ≫= λ p, task_tokens p.2))
      as Hpos by lia.
    apply occurrences_bind_pos in Hpos
      as ([d k'] & (d' & [= -> ->] & _)%list_elem_of_fmap & Hs).
    by eapply Hk.
  - intros s _. rewrite pending_post_all. lia.
Qed.

Lemma tokens_inv_set_thread_local_data ss x w :
  tokens_inv_upto ss w → tokens_inv_upto ss (set_thread_local_data x w).
Proof. by apply tokens_inv_same. Qed.

Lemma tokens_inv_emit ss e w : tokens_inv_upto ss w → tokens_inv_upto ss (emit e w).
Proof. by apply tokens_inv_same. Qed.

Lemma runOnAllThreads_tokens_inv t cb w w' :
  (∀ s, s ∈ cb_tokens cb →
        ∃ slot, heap w !! s = Some slot ∧ still_alive_ slot = true) →
  tokens_inv w → runOnAllThreads t cb w = Ok w' → tokens_inv w'.
Proof.
  intros Hcb Hinv (_ & _ & x & ->)%runOnAllThreads_Ok.
  apply tokens_inv_set_thread_local_data, tokens_inv_emit.
  apply tokens_inv_post_all; [|done]. intros _. done.
Qed.

Lemma pending_guard_deleted s g cb c d w :
  guards w !! g = Some (Some (cb, c)) →
  pending s w =
  pending s (set_guards (<[g := None]> (guards w))
               (post d (Call c) (emit (EvRelease g) w)))
  + occurrences s (cb_tokens cb).
Proof.
  intros Hg. unfold pending. simpl.
  pose proof (take_drop_middle _ _ _ Hg) as Hsplit.
  rewrite insert_take_drop by (by eapply lookup_lt_Some).
  rewrite <- Hsplit at 1.
  rewrite !bind_app, !bind_cons, !occurrences_app. simpl.
  rewrite ?app_nil_r, ?occurrences_app, ?occurrences_nil. lia.
Qed.

Lemma release_guard_tokens_inv g w w' :
  tokens_inv w → release_guard g w = Ok w' → tokens_inv w'.
Proof.
  intros Hinv [[_ ->]|(_ & cb & c & d & h & Hg & _ & H)]%release_guard_Ok; [done|].
  simpl in H. destruct H as [-> Hrel].
  eapply tokens_inv_released; [|done].
  rewrite <- (app_nil_r (_ ++ _)).
  apply (tokens_inv_change [] _ w); try done.
  - intros s. rewrite (pending_guard_deleted s g cb c d w Hg). lia.
  - intros s [Hs _]%not_elem_of_app. apply occurrences_zero in Hs.
    rewrite (pending_guard_deleted s g cb c d w Hg). lia.
Qed.

Lemma runOnAllThreads_complete_tokens_inv t cb c w w' :
  (∀ s, s ∈ cb_tokens cb ++ cb_tokens c →
        ∃ slot, heap w !! s = Some slot ∧ still_alive_ slot = true) →
  tokens_inv w → runOnAllThreads_complete t cb c w = Ok w' → tokens_inv w'.
Proof.
  intros Hcb Hinv (_ & _ & x & H)%runOnAllThreads_complete_Ok.
  eapply release_guard_tokens_inv; [|done].
  apply tokens_inv_post_all; [intros _ s []%not_elem_of_nil|].
  apply (tokens_inv_change [] [] w); try done.
  - intros s. unfold pending. simpl. rewrite bind_app, occurrences_app. simpl.
    rewrite app_nil_r. intros Hlt. apply Hcb, occurrences_pos. lia.
  - intros s _. unfold pending. simpl. rewrite bind_app, occurrences_app. lia.
Qed.

(** Allocation *)

Lemma tokens_inv_new_slot w slot0 :
  ready_to_destroy_ slot0 = false →
  tokens_inv w →
  tokens_inv (set_next_slot (S (next_slot w))
                (set_heap (<[next_slot w := slot0]> (heap w)) w)).
Proof.
  intros Hr [H1 H2 H3 H4 H5 H6].
  assert (heap w !! next_slot w = None) as Hfresh.
  { destruct (heap w !! next_slot w) as [slot|] eqn:E; [|done].
    apply H6 in E. lia. }
  assert (∀ s slot, heap w !! s = Some slot → next_slot w ≠ s) as Hne
    by (intros s slot Hs <-; congruence).
  split; simpl.
  - intros s slot. destruct (decide (next_slot w = s)) as [<-|Hn].
    + rewrite lookup_insert_eq. intros [= <-]. congruence.
    + rewrite lookup_insert_ne by done. intros Hs Hrs.
      specialize (H1 _ _ Hs Hrs). unfold use_count in *. simpl.
      by rewrite lookup_insert_ne.
  - intros t s (slot & Hs & Ha)%H2. exists slot.
    rewrite lookup_insert_ne by apply (Hne _ _ Hs). done.
  - done.
  - done.
  - intros s slot _ Hin. destruct (H2 _ _ Hin) as (slot' & Hs' & _).
    rewrite lookup_insert_ne by apply (Hne _ _ Hs'). intros Hs Hp.
    eapply H5; [apply not_elem_of_nil|done..].
  - intros s slot. destruct (decide (next_slot w = s)) as [<-|Hn]; [lia|].
    rewrite lookup_insert_ne by done. intros ?%H6. lia.
Qed.

Lemma allocateSlot_tokens_inv t w slot w' :
  tokens_inv w → allocateSlot t w = Ok (slot, w') → tokens_inv w'.
Proof.
  intros Hinv (_ & _ & -> & [[_ ->]|(front & rest & _ & _ & ->)])%allocateSlot_Ok.
  - match goal with |- tokens_inv (set_slots _ ?W) =>
      apply (tokens_inv_same [] W); try done end.
    by apply tokens_inv_new_slot.
  - match goal with |- tokens_inv (set_slots _ ?W) =>
      apply (tokens_inv_same [] W); try done end.
    apply (tokens_inv_new_slot (set_free_slot_indexes rest w)); [done|].
    by apply (tokens_inv_same [] w).
Qed.

(** Destruction *)

Lemma tokens_inv_reset w slot s :
  heap w !! slot = Some s → still_alive_ s = true →
  tokens_inv w →
  tokens_inv_upto [slot] (set_heap (<[slot := reset_handle s]> (heap w)) w).
Proof.
  intros Hs Ha [H1 H2 H3 H4 H5 H6]. split; simpl.
  - intros s' slot'. destruct (decide (slot = s')) as [<-|Hne].
    + rewrite lookup_insert_eq. intros [= <-]. simpl. intros Hr.
      pose proof (use_count_alive _ _ _ Hs Ha). specialize (H1 _ _ Hs Hr). lia.
    + rewrite lookup_insert_ne by done. intros Hs' Hr.
      specialize (H1 _ _ Hs' Hr). unfold use_count in *. simpl.
      by rewrite lookup_insert_ne.
  - intros t s' (slot' & Hs' & Ha')%H2. exists slot'.
    rewrite lookup_insert_ne; [done|]. intros <-. congruence.
  - done.
  - done.
  - intros s' slot' Hne%not_elem_of_cons Hin. destruct Hne as [Hne _].
    rewrite lookup_insert_ne by done. intros Hs' Hp.
    eapply H5; [apply not_elem_of_nil|done..].
  - intros s' slot'. destruct (decide (slot = s')) as [<-|Hne].
    + intros _. by eapply H6.
    + rewrite lookup_insert_ne by done. apply H6.
Qed.

Lemma tokens_inv_delete w slot :
  slot ∉ (waiting w).*2 →
  tokens_inv w → tokens_inv (set_heap (delete slot (heap w)) w).
Proof.
  intros Hnw [H1 H2 H3 H4 H5 H6]. split; simpl.
  - intros s' slot' [Hne Hs']%lookup_delete_Some Hr.
    specialize (H1 _ _ Hs' Hr). unfold use_count in *. simpl.
    by rewrite lookup_delete_ne.
  - intros t s' Hin. destruct (H2 _ _ Hin) as (slot' & Hs' & Ha'). exists slot'.
    rewrite lookup_delete_ne; [done|]. intros <-. apply Hnw.
    apply list_elem_of_fmap. by exists (t, slot).
  - done.
  - done.
  - intros s' slot' _ Hin [Hne Hs']%lookup_delete_Some Hp.
    eapply H5; [apply not_elem_of_nil|done..].
  - intros s' slot' [Hne Hs']%lookup_delete_Some. by eapply H6.
Qed.

Lemma removeSlot_tokens_inv t slot w w' :
  tokens_inv w → removeSlot t slot w = Ok w' →
  tokens_inv w' ∧ waiting w' = waiting w.
Proof.
  intros Hinv (_ & [[_ ->]|(_ & s & x & _ & _ & _ & ->)])%removeSlot_Ok; [done|].
  split; [|by rewrite post_all_eq].
  apply tokens_inv_set_thread_local_data, tokens_inv_emit.
  apply tokens_inv_post_all; [intros _ s' []%not_elem_of_nil|].
  by apply (tokens_inv_same [] w).
Qed.

Lemma SlotImpl_dtor_finish_tokens_inv t slot w w' :
  slot ∉ (waiting w).*2 →
  tokens_inv w → SlotImpl_dtor_finish t slot w = Ok w' → tokens_inv w'.
Proof.
  intros Hnw Hinv (w1 & [Hinv1 Hw]%removeSlot_tokens_inv & ->)%SlotImpl_dtor_finish_Ok;
    [|done].
  apply tokens_inv_delete; [by rewrite Hw|done].
Qed.

Lemma SlotImpl_dtor_tokens_inv t slot w w' :
  tokens_inv w → SlotImpl_dtor t slot w = Ok w' → tokens_inv w'.
Proof.
  intros Hinv (s & h & Hs & Ha & Hrel & H)%SlotImpl_dtor_Ok.
  pose proof (tokens_inv_released _ _ _ (tokens_inv_reset _ _ _ Hs Ha Hinv) Hrel)
    as Hinv1.
  change (set_heap h (set_heap _ w)) with (set_heap h w) in Hinv1.
  assert (slot ∉ (waiting w).*2) as Hnw.
  { intros ([t' s'] & Heq & Hin)%list_elem_of_fmap. simpl in Heq. subst s'.
    destruct Hinv as [_ H2 _ _ _ _]. destruct (H2 _ _ Hin) as (s' & ? & ?).
    congruence. }
  destruct H as [[Hst ->]|[Hst Hfin]].
  - destruct Hinv1 as [H1 H2 H3 H4 H5 H6]. simpl in *. split; simpl; try done.
    + intros t' s' [Heq|Hin]%elem_of_cons; [|by eapply H2]. simplify_eq.
      destruct Hrel as (Hsame & _). simpl in Hsame.
      destruct (same_slots_lookup_l _ _ slot _ Hsame (lookup_insert_eq _ _ _))
        as (b & Hb & _ & Hab & _).
      exists b. split; [done|]. by rewrite <- Hab.
    + by apply NoDup_cons.
    + intros s' slot' _ [Heq|Hin]%elem_of_cons;
        [|intros; eapply H5; [apply not_elem_of_nil|done..]].
      simplify_eq. intros Hb Hp. destruct Hrel as (_ & _ & Hdone). simpl in Hdone.
      destruct (Hdone Hst slot) as (b & Hb' & Hr); [by left| |congruence].
      rewrite (use_count_reset _ _ (reset_handle s)); [exact Hp| |done].
      simpl. apply lookup_insert_eq.
  - eapply SlotImpl_dtor_finish_tokens_inv; [|exact Hinv1|exact Hfin]. exact Hnw.
Qed.

Lemma tokens_inv_set_waiting_filter (P : nat * nat → Prop) `{∀ p, Decision (P p)} w :
  tokens_inv w → tokens_inv (set_waiting (filter P (waiting w)) w).
Proof.
  intros [H1 H2 H3 H4 H5 H6]. split; simpl; try done.
  - intros t s [_ Hin]%list_elem_of_filter. by eapply H2.
  - apply (sublist_NoDup _ (waiting w).*2); [done|].
    apply fmap_sublist, sublist_filter.
  - intros s [_ Hin]%list_elem_of_filter. by apply (H4 s).
  - intros s slot _ [_ Hin]%list_elem_of_filter ??.
    eapply H5; [apply not_elem_of_nil|done..].
Qed.

Lemma SlotImpl_dtor_resume_tokens_inv t slot w w' :
  tokens_inv w → SlotImpl_dtor_resume t slot w = Ok w' → tokens_inv w'.
Proof.
  intros Hinv (Hin & s & Hs & Hr & Hfin)%SlotImpl_dtor_resume_Ok.
  eapply SlotImpl_dtor_finish_tokens_inv; [| |done].
  - simpl. intros ([t' s'] & Heq & [Hne Hin']%list_elem_of_filter)%list_elem_of_fmap.
    simpl in Heq. subst s'. apply Hne. f_equal.
    destruct Hinv as [_ _ H3 _ _ _].
    apply list_elem_of_lookup in Hin as (i & Hi), Hin' as (j & Hj).
    assert (i = j) as ->.
    { eapply NoDup_lookup; [done| |]; rewrite list_lookup_fmap.
      - by rewrite Hi. - by rewrite Hj. }
    congruence.
  - by apply tokens_inv_set_waiting_filter.
Qed.

(** The operations of a handle *)

Lemma wrapCallback_tokens_live slot s cb w :
  heap w !! slot = Some s → cb_tokens cb = [] →
  ∀ s', s' ∈ cb_tokens (wrapCallback slot s cb) →
        ∃ slot', heap w !! s' = Some slot' ∧ still_alive_ slot' = true.
Proof.
  intros Hs Hcb s' [-> Ha]%elem_of_cb_tokens_wrapCallback; eauto.
Qed.

Lemma SlotImpl_set_tokens_inv t slot cb w w' :
  tokens_inv w → SlotImpl_set t slot cb w = Ok w' → tokens_inv w'.
Proof.
  intros Hinv (_ & _ & s & d & data & Hs & _ & -> & _)%SlotImpl_set_Ok.
  apply tokens_inv_set_thread_local_data, tokens_inv_post_all; [|done].
  intros d'. by eapply wrapCallback_tokens_live.
Qed.

Lemma SlotImpl_runOnAllThreads_tokens_inv t slot cb w w' :
  cb_tokens cb = [] →
  tokens_inv w → SlotImpl_runOnAllThreads t slot cb w = Ok w' → tokens_inv w'.
Proof.
  unfold SlotImpl_runOnAllThreads, deref. intros Hcb Hinv.
  destruct (heap w !! slot) as [s|] eqn:Hs; simpl; [|done].
  apply runOnAllThreads_tokens_inv; [|done]. by eapply wrapCallback_tokens_live.
Qed.

Lemma SlotImpl_runOnAllThreads_complete_tokens_inv t slot cb c w w' :
  cb_tokens cb = [] → cb_tokens c = [] →
  tokens_inv w → SlotImpl_runOnAllThreads_complete t slot cb c w = Ok w' →
  tokens_inv w'.
Proof.
  unfold SlotImpl_runOnAllThreads_complete, deref. intros Hcb Hc Hinv.
  destruct (heap w !! slot) as [s|] eqn:Hs; simpl; [|done].
  apply runOnAllThreads_complete_tokens_inv; [|done].
  rewrite Hc, app_nil_r. by eapply wrapCallback_tokens_live.
Qed.

Lemma registerThread_tokens_inv t d m w w' :
  tokens_inv w → registerThread t d m w = Ok w' → tokens_inv w'.
Proof.
  intros Hinv (_ & _ & H)%registerThread_Ok. destruct m.
  - subst. by apply (tokens_inv_same [] w).
  - destruct H as [_ ->].
    apply (tokens_inv_same [] w); try done.
    intros s. unfold pending. simpl. rewrite bind_app, occurrences_app. simpl.
    rewrite occurrences_nil. lia.
Qed.

Lemma tokens_inv_set_state st w :
  (∀ s, (main_thread_id_ w, s) ∉ waiting w) →
  tokens_inv w → tokens_inv (set_state st w).
Proof.
  intros Hnw [H1 H2 H3 H4 H5 H6]. split; simpl; try done.
  intros s Hin. by destruct (Hnw s).
Qed.

Lemma dispatch_tokens_inv d w w' :
  tokens_inv w → dispatch d w = Ok w' → tokens_inv w'.
Proof.
  intros Hinv (k & q1 & q2 & Hq & _ & H)%dispatch_Ok. simpl in H.
  assert (∀ ss, (∀ s, s ∉ ss → occurrences s (task_tokens k) = 0) →
            tokens_inv_upto ss (set_posted (q1 ++ q2) w)) as Hrem.
  { intros ss Hss. rewrite <- (app_nil_r ss).
    apply (tokens_inv_change [] ss w); try done.
    - intros s. rewrite (pending_posted_remove s _ _ _ w Hq). simpl. lia.
    - intros s Hs%Hss. rewrite (pending_posted_remove s _ _ _ w Hq). simpl. lia. }
  destruct k as [cb|g|d']; simpl in *.
  - destruct H as (x & h & Hrel & ->).
    eapply tokens_inv_released; [|done].
    apply tokens_inv_set_thread_local_data, tokens_inv_emit, tokens_inv_emit.
    apply Hrem. intros s. apply occurrences_zero.
  - destruct H as (cb & c & x & _ & H).
    eapply release_guard_tokens_inv; [|done].
    apply tokens_inv_set_thread_local_data, tokens_inv_emit, tokens_inv_emit.
    by apply (Hrem []).
  - subst. apply tokens_inv_set_thread_local_data, tokens_inv_emit.
    by apply (Hrem []).
Qed.

Lemma step_tokens_inv op w w' :
  tokens_inv w → step op w = Ok w' → tokens_inv w'.
Proof.
  intros Hinv Hstep. pose proof (step_perform _ _ _ Hstep) as H.
  destruct op; simpl in H.
  - apply bind_Ok in H as ([slot w1] & H & [= <-]).
    by eapply allocateSlot_tokens_inv.
  - by eapply SlotImpl_dtor_tokens_inv.
  - by eapply SlotImpl_dtor_resume_tokens_inv.
  - by eapply SlotImpl_set_tokens_inv.
  - eapply SlotImpl_runOnAllThreads_tokens_inv; [|done|exact H]. done.
  - eapply SlotImpl_runOnAllThreads_complete_tokens_inv; [| |done|exact H]; done.
  - eapply SlotImpl_runOnAllThreads_tokens_inv; [|done|exact H]. done.
  - eapply SlotImpl_runOnAllThreads_complete_tokens_inv; [| |done|exact H]; done.
  - by eapply registerThread_tokens_inv.
  - apply startGlobalThreading_Ok in H as (Hs & ->).
    apply tokens_inv_set_state; [|done].
    intros s Hin. destruct Hinv as [_ _ _ H4 _ _]. apply H4 in Hin. congruence.
  - apply shutdownGlobalThreading_Ok in H as (-> & _ & ->).
    apply tokens_inv_set_state; [|done].
    intros s Hin. unfold step, blocked in Hstep. simpl in Hstep.
    rewrite bool_decide_true in Hstep; [done|].
    apply list_elem_of_fmap. by exists (main_thread_id_ w, s).
  - apply shutdownThread_Ok in H as (_ & x & ->).
    by apply (tokens_inv_same [] w).
  - by eapply dispatch_tokens_inv.
Qed.

Lemma tokens_inv_init main : tokens_inv (init main).
Proof.
  split; simpl; try done.
  - intros t s []%not_elem_of_nil.
  - apply NoDup_nil_2.
  - intros s []%not_elem_of_nil.
Qed.

Lemma reachable_tokens_inv w : reachable w → tokens_inv w.
Proof.
  intros Hw. induction Hw as [main|op w w' Hw IH Hstep] using reachable_ind.
  - apply tokens_inv_init.
  - by eapply step_tokens_inv.
Qed.

(** ** The invariant of the guards *)

Lemma guard_count_zero g w d :
  guard_count g w = 0 → (d, GuardCall g) ∉ posted w.
Proof.
  unfold guard_count. intros Hnil%length_zero_iff_nil Hin.
  eapply (filter_nil_not_elem_of _ _ (d, GuardCall g)); [done| |done].
  simpl. by rewrite bool_decide_true.
Qed.


(** A step that posts no closure holding a guard and leaves the guards as
    they are. *)
Lemma guards_inv_quiet w w' :
  guards_inv w →
  registered_threads_ w' = registered_threads_ w →
  guards w' = guards w →
  (∀ d g, (d, GuardCall g) ∈ posted w' → (d, GuardCall g) ∈ posted w) →
  (∀ e, e ∈ log w' →
        e ∈ log w ∨ event_guard e = None ∨
        ∃ d g, e = EvDispatch d (GuardCall g) ∧ (d, GuardCall g) ∈ posted w) →
  guards_inv w'.
Proof.
  intros [H1 H2 H3] Hr Hg Hp Hl. split.
  - by rewrite Hr.
  - rewrite Hg. eauto.
  - rewrite Hg. intros e g [He|[He|(d & g' & -> & Hin)]]%Hl Heg.
    + by eapply H3.
    + congruence.
    + simpl in Heg. injection Heg as ->. destruct (H2 _ _ Hin) as (c & Hc).
      by eapply lookup_lt_Some.
Qed.

Lemma guards_inv_set_heap h w : guards_inv w → guards_inv (set_heap h w).
Proof. intros [H1 H2 H3]. by split. Qed.

Lemma guards_inv_set_thread_local_data x w :
  guards_inv w → guards_inv (set_thread_local_data x w).
Proof. intros [H1 H2 H3]. by split. Qed.

Lemma guards_inv_emit e w :
  event_guard e = None → guards_inv w → guards_inv (emit e w).
Proof.
  intros He Hinv. apply (guards_inv_quiet w); try done.
  simpl. intros e' [?| ->%list_elem_of_singleton]%elem_of_app; eauto.
Qed.

Lemma guards_inv_post_all ds k w :
  (∀ d g, k d ≠ GuardCall g) →
  guards_inv w → guards_inv (post_all ds k w).
Proof.
  intros Hk Hinv. rewrite post_all_eq. apply (guards_inv_quiet w); try done; simpl.
  - intros d g [?|(d' & [= -> Heq] & _)%list_elem_of_fmap]%elem_of_app; [done|].
    by destruct (Hk d' g).
  - intros e [?|(d' & -> & _)%list_elem_of_fmap]%elem_of_app; [by left|].
    right. left. simpl. destruct (k d') eqn:E; try done. by destruct (Hk d' g).
Qed.

Lemma release_guard_guards_inv g w w' :
  guards_inv w → release_guard g w = Ok w' → guards_inv w'.
Proof.
  intros Hinv [[_ ->]|(Hc & cb & c & d & h & Hg & _ & H)]%release_guard_Ok; [done|].
  simpl in H. destruct H as [-> _]. apply guards_inv_set_heap.
  destruct Hinv as [H1 H2 H3]. split; simpl.
  - done.
  - intros d' g' [Hin|[=]%list_elem_of_singleton]%elem_of_app.
    rewrite list_lookup_insert_ne; [eauto|].
    intros <-. by eapply guard_count_zero.
  - rewrite length_insert. intros e g1.
    rewrite <- app_assoc. intros [He|[->| ->%list_elem_of_singleton]%elem_of_cons]%elem_of_app.
    + by apply H3.
    + intros [= <-]. by eapply lookup_lt_Some.
    + done.
Qed.

Lemma runOnAllThreads_guards_inv t cb w w' :
  guards_inv w → runOnAllThreads t cb w = Ok w' → guards_inv w'.
Proof.
  intros Hinv (_ & _ & x & ->)%runOnAllThreads_Ok.
  apply guards_inv_set_thread_local_data, guards_inv_emit; [done|].
  by apply guards_inv_post_all.
Qed.

Lemma guards_inv_new_guard ds gd w :
  guards_inv w →
  guards_inv (post_all ds (λ _, GuardCall (length (guards w)))
                (set_guards (guards w ++ [Some gd]) w)).
Proof.
  intros [H1 H2 H3]. rewrite post_all_eq. split; simpl.
  - done.
  - intros d g [Hin|(d' & [= -> ->] & _)%list_elem_of_fmap]%elem_of_app.
    + destruct (H2 _ _ Hin) as (c & Hc). exists c. by apply lookup_app_l_Some.
    + exists gd. rewrite lookup_app_r by done. by rewrite Nat.sub_diag.
  - rewrite length_app. simpl.
    intros e g [He|(d' & -> & _)%list_elem_of_fmap]%elem_of_app Heg.
    + specialize (H3 _ _ He Heg). lia.
    + simpl in Heg. injection Heg as <-. lia.
Qed.

Lemma runOnAllThreads_complete_guards_inv t cb c w w' :
  guards_inv w → runOnAllThreads_complete t cb c w = Ok w' → guards_inv w'.
Proof.
  intros Hinv (_ & _ & x & H)%runOnAllThreads_complete_Ok.
  eapply release_guard_guards_inv; [|done].
  apply (guards_inv_new_guard _ _ (set_thread_local_data x (emit (EvRun t cb) w))).
  by apply guards_inv_set_thread_local_data, guards_inv_emit.
Qed.

Lemma removeSlot_guards_inv t slot w w' :
  guards_inv w → removeSlot t slot w = Ok w' → guards_inv w'.
Proof.
  intros Hinv (_ & [[_ ->]|(_ & s & x & _ & _ & _ & ->)])%removeSlot_Ok; [done|].
  apply guards_inv_set_thread_local_data, guards_inv_emit; [done|].
  apply guards_inv_post_all; [done|]. destruct Hinv. by split.
Qed.

Lemma SlotImpl_dtor_finish_guards_inv t slot w w' :
  guards_inv w → SlotImpl_dtor_finish t slot w = Ok w' → guards_inv w'.
Proof.
  intros Hinv (w1 & Hrm & ->)%SlotImpl_dtor_finish_Ok.
  apply guards_inv_set_heap. by eapply removeSlot_guards_inv.
Qed.

Lemma guards_inv_set_waiting l w : guards_inv w → guards_inv (set_waiting l w).
Proof. intros [H1 H2 H3]. by split. Qed.

Lemma dispatch_guards_inv d w w' :
  guards_inv w → dispatch d w = Ok w' → guards_inv w'.
Proof.
  intros Hinv (k & q1 & q2 & Hq & _ & H)%dispatch_Ok. simpl in H.
  assert (guards_inv (emit (EvDispatch d k) (set_posted (q1 ++ q2) w))) as Hinv1.
  { apply (guards_inv_quiet w); try done; simpl.
    - intros d' g. rewrite Hq, !elem_of_app, elem_of_cons. tauto.
    - intros e [?| ->%list_elem_of_singleton]%elem_of_app; [by left|].
      right. destruct k as [cb|g|d']; [by left| |by left].
      right. exists d, g. split; [done|]. rewrite Hq, elem_of_app, elem_of_cons. tauto. }
  destruct k as [cb|g|d'].
  - destruct H as (x & h & _ & ->).
    by apply guards_inv_set_heap, guards_inv_set_thread_local_data, guards_inv_emit.
  - destruct H as (cb & c & x & _ & H).
    eapply release_guard_guards_inv; [|done].
    by apply guards_inv_set_thread_local_data, guards_inv_emit.
  - subst. by apply guards_inv_set_thread_local_data.
Qed.

Lemma perform_guards_inv op w w' :
  guards_inv w → perform op w = Ok w' → guards_inv w'.
Proof.
  intros Hinv. destruct op; simpl.
  - intros ([slot w1] & (_ & _ & _ & H)%allocateSlot_Ok & [= <-])%bind_Ok.
    destruct Hinv as [H1 H2 H3].
    destruct H as [[_ ->]|(front & rest & _ & _ & ->)]; by split.
  - intros (s & h & _ & _ & _ & [[_ ->]|[_ Hfin]])%SlotImpl_dtor_Ok.
    + by apply guards_inv_set_waiting, guards_inv_set_heap.
    + eapply SlotImpl_dtor_finish_guards_inv; [|done]. by apply guards_inv_set_heap.
  - intros (_ & s & _ & _ & Hfin)%SlotImpl_dtor_resume_Ok.
    eapply SlotImpl_dtor_finish_guards_inv; [|done]. by apply guards_inv_set_waiting.
  - intros (_ & _ & s & d & data & _ & _ & -> & _)%SlotImpl_set_Ok.
    apply guards_inv_set_thread_local_data. by apply guards_inv_post_all.
  - unfold SlotImpl_runOnAllThreads.
    intros (s & _ & ?)%bind_Ok. by eapply runOnAllThreads_guards_inv.
  - unfold SlotImpl_runOnAllThreads_complete.
    intros (s & _ & ?)%bind_Ok. by eapply runOnAllThreads_complete_guards_inv.
  - unfold SlotImpl_runOnAllThreads_update, SlotImpl_runOnAllThreads.
    intros (s & _ & ?)%bind_Ok. by eapply runOnAllThreads_guards_inv.
  - unfold SlotImpl_runOnAllThreads_update_complete, SlotImpl_runOnAllThreads_complete.
    intros (s & _ & ?)%bind_Ok. by eapply runOnAllThreads_complete_guards_inv.
  - intros (_ & _ & H)%registerThread_Ok. destruct main_thread.
    + subst. destruct Hinv. by split.
    + destruct H as [Hd ->]. destruct Hinv as [H1 H2 H3]. split; simpl.
      * apply NoDup_app. split; [done|]. split; [|apply NoDup_singleton].
        intros d' Hd' ->%list_elem_of_singleton. done.
      * intros d' g [Hin|[=]%list_elem_of_singleton]%elem_of_app. eauto.
      * intros e g [?| ->%list_elem_of_singleton]%elem_of_app; [eauto|done].
  - intros (_ & ->)%startGlobalThreading_Ok. destruct Hinv. by split.
  - intros (_ & _ & ->)%shutdownGlobalThreading_Ok. destruct Hinv. by split.
  - intros (_ & x & ->)%shutdownThread_Ok.
    apply guards_inv_set_thread_local_data. apply (guards_inv_quiet w); try done.
    simpl. intros e [?|(i & -> & _)%list_elem_of_fmap]%elem_of_app; eauto.
  - by apply dispatch_guards_inv.
Qed.

Lemma guards_inv_init main : guards_inv (init main).
Proof.
  split; simpl.
  - apply NoDup_nil_2.
  - intros d g []%not_elem_of_nil.
  - intros e g []%not_elem_of_nil.
Qed.

Lemma reachable_guards_inv w : reachable w → guards_inv w.
Proof.
  intros Hw. induction Hw as [main|op w w' Hw IH Hstep] using reachable_ind.
  - apply guards_inv_init.
  - eapply perform_guards_inv; [done|]. by apply step_perform.
Qed.

(** ** The guard of a broadcast with completion *)

Lemma releases_app g l1 l2 : releases g (l1 ++ l2) = releases g l1 + releases g l2.
Proof. unfold releases. by rewrite filter_app, length_app. Qed.

Lemma guard_dispatches_app d g l1 l2 :
  guard_dispatches d g (l1 ++ l2) = guard_dispatches d g l1 + guard_dispatches d g l2.
Proof. unfold guard_dispatches. by rewrite filter_app, length_app. Qed.


Lemma guard_count_app g l1 l2 w :
  guard_count g (set_posted (l1 ++ l2) w) =
  guard_count g (set_posted l1 w) + guard_count g (set_posted l2 w).
Proof. unfold guard_count. simpl. by rewrite filter_app, length_app. Qed.

Lemma filter_length_cons {A} (P : A → Prop) `{∀ x, Decision (P x)} x l :
  length (filter P (x :: l)) = (if decide (P x) then 1 else 0) + length (filter P l).
Proof. rewrite filter_cons. by destruct (decide (P x)). Qed.




Lemma guard_count_cons g p l w :
  guard_count g (set_posted (p :: l) w) =
  (if is_guard_call g p.2 then 1 else 0) + guard_count g (set_posted l w).
Proof.
  unfold guard_count. simpl. rewrite filter_length_cons.
  destruct (is_guard_call g p.2); by case_decide.
Qed.


(** Quiet steps *)


Lemma quiet_trans g w1 w2 w3 : quiet g w1 w2 → quiet g w2 w3 → quiet g w1 w3.
Proof.
  intros (Hg1 & Hl1 & Hq1 & Hc1 & evs1 & He1 & Hr1 & Hd1)
         (Hg2 & Hl2 & Hq2 & Hc2 & evs2 & He2 & Hr2 & Hd2).
  split; [congruence|]. split; [lia|]. split; [intros d; by rewrite Hq2|].
  split; [congruence|]. exists (evs1 ++ evs2).
  rewrite He2, He1, app_assoc. split; [done|].
  rewrite releases_app. split; [lia|]. intros d. rewrite guard_dispatches_app.
  rewrite Hd1, Hd2. done.
Qed.

Lemma quiet_same g w w' :
  posted w' = posted w → log w' = log w → guards w' = guards w → quiet g w w'.
Proof.
  intros Hp Hl Hg. unfold quiet, guard_count. rewrite Hp, Hl, Hg.
  repeat split; try done. exists []. by rewrite app_nil_r.
Qed.




Lemma quiet_set_waiting g l w0 w : quiet g w0 w → quiet g w0 (set_waiting l w).
Proof. intros H. eapply quiet_trans; [done|]. by apply quiet_same. Qed.











(** Progress of one guard *)






Lemma guard_count_none g w :
  (∀ d', (d', GuardCall g) ∉ posted w) → guard_count g w = 0.
Proof.
  intros Hl. unfold guard_count. apply length_zero_iff_nil, elem_of_nil_inv.
  intros [d' k] [Hp Hin]%list_elem_of_filter. simpl in Hp.
  apply Is_true_true in Hp.
  destruct k as [|g'|]; try done. simpl in Hp. apply bool_decide_eq_true in Hp as ->.
  by eapply Hl.
Qed.







Lemma guard_count_post_all g ds w :
  guard_count g (post_all ds (λ _, GuardCall g) w) = guard_count g w + length ds.
Proof.
  rewrite post_all_eq. unfold guard_count. simpl. rewrite filter_app, length_app.
  f_equal. induction ds as [|d ds IH]; [done|].
  simpl. rewrite filter_length_cons. simpl. rewrite IH.
  rewrite bool_decide_true by done. by case_decide.
Qed.





(** ** The lifecycle state *)

Lemma removeSlot_state t slot w w' : removeSlot t slot w = Ok w' → state_ w' = state_ w.
Proof.
  intros (_ & [[_ ->]|(_ & s & x & _ & _ & _ & ->)])%removeSlot_Ok; [done|].
  by rewrite post_all_eq.
Qed.

Lemma SlotImpl_dtor_finish_state t slot w w' :
  SlotImpl_dtor_finish t slot w = Ok w' → state_ w' = state_ w.
Proof.
  by intros (w1 & Hrm%removeSlot_state & ->)%SlotImpl_dtor_finish_Ok.
Qed.

Lemma perform_state op w w' :
  perform op w = Ok w' →
  state_ w' = state_ w ∨
  (state_ w = Initializing ∧ state_ w' = Running) ∨
  (state_ w ≠ Shutdown ∧ state_ w' = Shutdown).
Proof.
  destruct op; simpl.
  - intros ([slot w1] & (_ & _ & _ & H)%allocateSlot_Ok & [= <-])%bind_Ok. left.
    by destruct H as [[_ ->]|(front & rest & _ & _ & ->)].
  - intros (s & h & _ & _ & _ & [[_ ->]|[_ Hfin]])%SlotImpl_dtor_Ok; left; [done|].
    by apply SlotImpl_dtor_finish_state in Hfin.
  - intros (_ & s & _ & _ & Hfin%SlotImpl_dtor_finish_state)%SlotImpl_dtor_resume_Ok.
    by left.
  - intros (Hs & _)%SlotImpl_set_registry_frame. by left.
  - unfold SlotImpl_runOnAllThreads.
    intros (s & _ & (Hs & _)%runOnAllThreads_registry_frame)%bind_Ok. by left.
  - unfold SlotImpl_runOnAllThreads_complete.
    intros (s & _ & (Hs & _)%runOnAllThreads_complete_registry_frame)%bind_Ok. by left.
  - unfold SlotImpl_runOnAllThreads_update, SlotImpl_runOnAllThreads.
    intros (s & _ & (Hs & _)%runOnAllThreads_registry_frame)%bind_Ok. by left.
  - unfold SlotImpl_runOnAllThreads_update_complete, SlotImpl_runOnAllThreads_complete.
    intros (s & _ & (Hs & _)%runOnAllThreads_complete_registry_frame)%bind_Ok. by left.
  - intros (Hs & _)%registerThread_registry_frame. by left.
  - intros (Hs & ->)%startGlobalThreading_Ok. right. by left.
  - intros (_ & Hs & ->)%shutdownGlobalThreading_Ok. right. by right.
  - intros (Hs & _)%shutdownThread_registry_frame. by left.
  - intros (Hs & _)%dispatch_registry_frame. by left.
Qed.

Lemma step_state_rank op w w' :
  step op w = Ok w' → state_rank (state_ w) ≤ state_rank (state_ w').
Proof.
  intros [->|[[-> ->]|[Hs ->]]]%step_perform%perform_state; simpl; try lia.
  destruct (state_ w); simpl; lia.
Qed.

Lemma exec_state_rank ops w w' :
  exec ops w = Ok w' → state_rank (state_ w) ≤ state_rank (state_ w').
Proof.
  revert w. induction ops as [|op ops IH]; intros w; simpl.
  - by intros [= <-].
  - intros (w1 & Hstep%step_state_rank & Hexec%IH)%bind_Ok. lia.
Qed.

Lemma shutdown_fatal {A} t w (k : Result A) :
  state_ w = Shutdown →
  (_ ← ASSERT (on_main_thread t w); _ ← ASSERT (not_shutdown w); k) = Fail AssertFailed.
Proof.
  intros Hs. unfold not_shutdown. destruct (on_main_thread t w); simpl; [|done].
  by rewrite bool_decide_false by (by intros []).
Qed.

(** Nothing but the wait of the destructor blocks. *)

Lemma run_not_blocked t cb w : run t cb w ≠ Fail Blocked.
Proof.
  unfold run. generalize (emit (EvRun t cb) w). intros w0.
  induction cb as [name|index|index cb d|this cb|a cb IH]; simpl; try done.
  - by case_bool_decide.
  - unfold on_thread, setThreadLocal. by repeat (case_bool_decide; simpl).
  - unfold deref, SlotImpl_get, deref, currentThreadRegistered.
    destruct (heap w0 !! this); simpl; [|done].
    case_bool_decide; simpl; [|done].
    destruct (data_ (tld t w0) !! _); simpl; [|done].
    unfold on_thread, setThreadLocal. by repeat (case_bool_decide; simpl).
Qed.

Lemma runOnAllThreads_not_blocked t cb w : runOnAllThreads t cb w ≠ Fail Blocked.
Proof.
  unfold runOnAllThreads.
  destruct (on_main_thread t w); simpl; [|done].
  destruct (not_shutdown w); simpl; [|done]. apply run_not_blocked.
Qed.

Lemma removeSlot_not_blocked t slot w : removeSlot t slot w ≠ Fail Blocked.
Proof.
  unfold removeSlot, deref.
  destruct (on_main_thread t w); simpl; [|done].
  case_decide; [done|].
  destruct (heap w !! slot); simpl; [|done].
  case_bool_decide; [|done]. simpl.
  case_bool_decide; simpl; [|done]. apply runOnAllThreads_not_blocked.
Qed.

Lemma SlotImpl_dtor_finish_not_blocked t slot w :
  SlotImpl_dtor_finish t slot w ≠ Fail Blocked.
Proof.
  unfold SlotImpl_dtor_finish. pose proof (removeSlot_not_blocked t slot w).
  by destruct (removeSlot t slot w) as [|[]].
Qed.

Lemma release_token_not_blocked s w : release_token s w ≠ Fail Blocked.
Proof.
  unfold release_token, token_deleter, deref. case_bool_decide; [|done].
  case_decide; [|done]. by destruct (heap w !! s).
Qed.

(** ** What [removeSlot] does outside Shutdown *)

Lemma removeSlot_effect t slot w w' :
  removeSlot t slot w = Ok w' → state_ w ≠ Shutdown →
  ∃ s, heap w !! slot = Some s ∧ t = main_thread_id_ w ∧
    index_ s < length (slots_ w) ∧ (index_ s ∉ free_slot_indexes_ w) ∧
    slots_ w' = <[index_ s := None]> (slots_ w) ∧
    free_slot_indexes_ w' = free_slot_indexes_ w ++ [index_ s] ∧
    posted w' = posted w ++
      map (λ d, (d, Call (ClearCb (index_ s)))) (registered_threads_ w) ∧
    log w' = log w ++
      map (λ d, EvPost d (Call (ClearCb (index_ s)))) (registered_threads_ w) ++
      [EvRun t (ClearCb (index_ s))] ∧
    data_ (tld t w') =
      (if bool_decide (index_ s < length (data_ (tld t w)))
       then <[index_ s := None]> (data_ (tld t w)) else data_ (tld t w)) ∧
    heap w' = heap w ∧ waiting w' = waiting w ∧ state_ w' = state_ w.
Proof.
  intros Hrm Hs.
  destruct (removeSlot_Ok _ _ _ _ Hrm) as (Ht & [[Hs' _]|(_ & s & x & Hslot & Hlt & Hfree & _)]);
    [done|].
  exists s. split; [done|]. split; [done|]. split; [done|]. split; [done|].
  revert Hrm. unfold removeSlot, on_main_thread, deref.
  rewrite (bool_decide_true _ Ht). simpl. rewrite decide_False by done.
  rewrite Hslot. simpl. rewrite (bool_decide_true _ Hlt). simpl.
  rewrite bool_decide_true by done. simpl.
  rewrite runOnAllThreads_unfold by done. unfold run. rewrite post_all_eq.
  simpl.
  repeat match goal with |- context [tld t (emit ?e ?W)] =>
    change (tld t (emit e W)) with (tld t w) end.
  destruct (bool_decide (index_ s < length (data_ (tld t w)))); intros [= <-];
    simpl; rewrite <- ?app_assoc, ?tld_set_data; done.
Qed.

(** ** The loop of [shutdownThread] *)

Lemma take_reverse_seq n k :
  k ≤ n → take k (reverse (seq 0 n)) = reverse (seq (n - k) k).
Proof.
  intros Hk. replace n with ((n - k) + k) at 1 by lia.
  rewrite seq_app, reverse_app. simpl.
  apply take_app_length'. by rewrite length_reverse, length_seq.
Qed.

Lemma reverse_seq_lookup n k : k < n → reverse (seq 0 n) !! k = Some (n - 1 - k).
Proof.
  intros Hk. rewrite reverse_lookup by (by rewrite length_seq).
  rewrite length_seq. rewrite lookup_seq_lt by lia. f_equal. lia.
Qed.

Lemma data_reset_cell t w i :
  data_ (tld t (reset_cell t w i)) = <[i := None]> (data_ (tld t w)).
Proof. unfold reset_cell. by rewrite tld_emit, tld_set_data. Qed.

(** After the resets of the cells [l] of thread [t]: these cells are
    empty, the others are as they were. *)
Lemma foldl_reset_cell_data t l w :
  length (data_ (tld t (foldl (reset_cell t) w l))) = length (data_ (tld t w)) ∧
  ∀ i, i < length (data_ (tld t w)) →
    data_ (tld t (foldl (reset_cell t) w l)) !! i =
    if bool_decide (i ∈ l) then Some None else data_ (tld t w) !! i.
Proof.
  revert w. induction l as [|j l IH]; intros w; cbn [foldl].
  - split; [done|]. intros i _. by rewrite bool_decide_false by apply not_elem_of_nil.
  - destruct (IH (reset_cell t w j)) as [Hlen Hcells].
    rewrite data_reset_cell, length_insert in Hlen, Hcells.
    split; [done|]. intros i Hi. rewrite (Hcells i Hi).
    destruct (decide (i ∈ l)) as [Hin|Hnin].
    + rewrite !bool_decide_true; [done|by right|done].
    + rewrite (bool_decide_false _ Hnin).
      destruct (decide (i = j)) as [->|Hne].
      * rewrite bool_decide_true by (by left). by apply list_lookup_insert_eq.
      * rewrite bool_decide_false by (intros [?|?]%elem_of_cons; done).
        by apply list_lookup_insert_ne.
Qed.

(** * The statements of the specification *)

(** ** Allocation *)

(** Claim C4.  [allocateSlot] on the main thread, outside Shutdown: when
    the queue of free indices is empty the new handle gets the index
    [length slots_], which is appended to [slots_]; otherwise the front of
    the queue (the index freed first) is popped and the new handle is bound
    to it, in place.  In the Shutdown state the call is a failed assertion,
    whatever the thread.  The front is read into a [uint32_t] and asserted
    to be below [size()]: it is taken representable and in range. *)
Theorem allocateSlot_spec (t : Thread) (w : World) :
  t = main_thread_id_ w → state_ w ≠ Shutdown →
  (free_slot_indexes_ w = [] →
   ∃ w', allocateSlot t w = Ok (next_slot w, w') ∧
     slots_ w' = slots_ w ++ [Some (next_slot w)] ∧
     free_slot_indexes_ w' = [] ∧
     heap w' !! next_slot w =
       Some {| index_ := length (slots_ w); still_alive_ := true;
               ready_to_destroy_ := false |}) ∧
  (∀ front rest,
     free_slot_indexes_ w = front :: rest →
     fits_u32 front → front < length (slots_ w) →
     ∃ w', allocateSlot t w = Ok (next_slot w, w') ∧
       slots_ w' = <[front := Some (next_slot w)]> (slots_ w) ∧
       length (slots_ w') = length (slots_ w) ∧
       free_slot_indexes_ w' = rest ∧
       heap w' !! next_slot w =
         Some {| index_ := front; still_alive_ := true;
                 ready_to_destroy_ := false |}) ∧
  (∀ t0 w0, state_ w0 = Shutdown → allocateSlot t0 w0 = Fail AssertFailed).
Proof.
  intros Ht Hs. split; [|split].
  - intros Hfree. unfold allocateSlot, on_main_thread, not_shutdown.
    rewrite !bool_decide_true by done. simpl. rewrite Hfree. simpl.
    eexists. split; [done|]. simpl. by rewrite lookup_insert_eq.
  - intros front rest Hfree Hfit Hlt.
    unfold allocateSlot, on_main_thread, not_shutdown.
    rewrite !bool_decide_true by done. simpl. rewrite Hfree. simpl.
    rewrite (u32_fits _ Hfit). rewrite bool_decide_true by done. simpl.
    eexists. split; [done|]. simpl. by rewrite length_insert, lookup_insert_eq.
  - intros t0 w0 Hs0. by apply shutdown_fatal.
Qed.

(** In a registry where slot 0 was destroyed during initialization, the
    next handle is bound to index 0 again. *)
Lemma allocateSlot_spec_witness :
  ∃ w', allocateSlot 0 (world_after (setup ++ [OpDestroySlot 0 0])) = Ok (2, w') ∧
    slots_ w' = [Some 2; Some 1] ∧ free_slot_indexes_ w' = [].
Proof.
  destruct (allocateSlot_spec 0 (world_after (setup ++ [OpDestroySlot 0 0])))
    as (_ & Hfront & _); [reflexivity|by vm_compute|].
  destruct (Hfront 0 []) as (w' & Hw' & Hslots & _ & Hfree & _);
    [reflexivity|by vm_compute|vm_compute; lia|].
  exists w'. split; [exact Hw'|]. split; [exact Hslots|exact Hfree].
Defined.

(** ** Writes to the cells of a thread *)

(** Claim C10.  [setThreadLocal(index, object)]: a vector of length at
    most [index] is grown to exactly [index + 1] cells, the new ones empty;
    a longer vector keeps its length; [object] is in cell [index]; every
    other cell that existed keeps its value; the vector never shrinks.  On
    the world, only the storage of the calling thread changes.  [index] is
    a [uint32_t] and [index + 1] is computed in that type: the statement is
    for the indices whose successor is representable. *)
Theorem setThreadLocal_frame (index : nat) (object : Cell) (data : list Cell) :
  fits_u32 (index + 1) →
  ∃ data',
    setThreadLocal index object data = Ok data' ∧
    (length data ≤ index → length data' = index + 1) ∧
    (index < length data → length data' = length data) ∧
    length data ≤ length data' ∧
    data' !! index = Some object ∧
    (∀ j, j ≠ index → j < length data → data' !! j = data !! j) ∧
    (∀ j, length data ≤ j → j < index → data' !! j = Some None) ∧
    (∀ t w, ∃ w', on_thread t (setThreadLocal index object) w = Ok w' ∧
       (∀ t', t' ≠ t → tld t' w' = tld t' w) ∧
       (data_ (tld t w) = data → data_ (tld t w') = data')).
Proof.
  intros Hfit.
  destruct (setThreadLocal_fits index object data Hfit) as (data' & Hset & Hdata' & _).
  exists data'. split; [done|].
  assert (∀ t w, ∃ w', on_thread t (setThreadLocal index object) w = Ok w' ∧
       (∀ t', t' ≠ t → tld t' w' = tld t' w) ∧
       (data_ (tld t w) = data → data_ (tld t w') = data')) as Hworld.
  { intros t w.
    destruct (setThreadLocal_fits index object (data_ (tld t w)) Hfit)
      as (d1 & Hd1 & _).
    unfold on_thread. rewrite Hd1. simpl. eexists. split; [done|].
    split; [intros t' Hne; by apply tld_set_data_ne|].
    intros Hdata. rewrite tld_set_data. rewrite Hdata, Hset in Hd1. congruence. }
  enough ((length data ≤ index → length data' = index + 1) ∧
          (index < length data → length data' = length data) ∧
          length data ≤ length data' ∧
          data' !! index = Some object ∧
          (∀ j, j ≠ index → j < length data → data' !! j = data !! j) ∧
          (∀ j, length data ≤ j → j < index → data' !! j = Some None))
    as (?&?&?&?&?&?) by done.
  rewrite Hdata'. rewrite length_insert.
  destruct (decide (length data ≤ index)) as [Hlen|Hlen].
  - rewrite (bool_decide_true _ Hlen), length_resize.
    repeat split; try lia.
    + apply list_lookup_insert_eq. rewrite length_resize. lia.
    + intros j Hj Hlt. rewrite list_lookup_insert_ne by done.
      apply lookup_resize; lia.
    + intros j Hge Hlt. rewrite list_lookup_insert_ne by lia.
      apply lookup_resize_new; lia.
  - rewrite (bool_decide_false _ Hlen).
    repeat split; try lia.
    + apply list_lookup_insert_eq. lia.
    + intros j Hj _. by rewrite list_lookup_insert_ne.
Qed.

(** Writing cell 3 of a one-cell vector. *)
Lemma setThreadLocal_frame_witness :
  ∃ data', setThreadLocal 3 (Some 1) [Some 5] = Ok data' ∧ length data' = 4 ∧
    data' !! 3 = Some (Some 1) ∧ data' !! 0 = Some (Some 5).
Proof.
  destruct (setThreadLocal_frame 3 (Some 1) [Some 5])
    as (data' & Hset & Hgrow & _ & _ & Hobj & Hframe & _); [by vm_compute|].
  exists data'. split; [exact Hset|]. split; [apply Hgrow; simpl; lia|].
  split; [exact Hobj|]. rewrite Hframe; [reflexivity|lia|simpl; lia].
Defined.

(** ** Shutdown of a thread *)

(** Claim C9.  [shutdownThread] in the Shutdown state resets the cells of
    the calling thread from the highest index down to index 0, each one
    before every cell of a lower index, and leaves the thread an empty
    vector; the storage of the other threads is untouched.  In another
    state the call is a failed assertion.  The loop is followed iteration
    by iteration: iteration [k] resets cell [size - 1 - k]; after [k]
    iterations the [k] cells of highest index are empty, the cells below
    them still hold what they held, the vector has its full length, and
    the resets logged are those of these [k] cells, in descending order.
    The vector is cleared after the last iteration only. *)
Theorem shutdownThread_descending (t : Thread) (w : World) :
  state_ w = Shutdown →
  (∃ w', shutdownThread t w = Ok w' ∧
     log w' = log w ++ map (EvReset t) (reverse (seq 0 (length (data_ (tld t w))))) ∧
     data_ (tld t w') = [] ∧
     (∀ t', t' ≠ t → tld t' w' = tld t' w)) ∧
  (∀ n i j l1 l2 l3,
     reverse (seq 0 n) = l1 ++ i :: l2 ++ j :: l3 → j < i < n) ∧
  (∀ t0 w0, state_ w0 ≠ Shutdown → shutdownThread t0 w0 = Fail AssertFailed) ∧
  shutdownThread t w =
    Ok (set_data t []
          (foldl (reset_cell t) w (reverse (seq 0 (length (data_ (tld t w))))))) ∧
  (∀ k, k < length (data_ (tld t w)) →
     reverse (seq 0 (length (data_ (tld t w)))) !! k =
       Some (length (data_ (tld t w)) - 1 - k) ∧
     foldl (reset_cell t) w (take (S k) (reverse (seq 0 (length (data_ (tld t w)))))) =
       reset_cell t
         (foldl (reset_cell t) w (take k (reverse (seq 0 (length (data_ (tld t w)))))))
         (length (data_ (tld t w)) - 1 - k)) ∧
  (∀ k, k ≤ length (data_ (tld t w)) →
     log (foldl (reset_cell t) w
            (take k (reverse (seq 0 (length (data_ (tld t w))))))) =
       log w ++ map (EvReset t) (reverse (seq (length (data_ (tld t w)) - k) k)) ∧
     length (data_ (tld t (foldl (reset_cell t) w
            (take k (reverse (seq 0 (length (data_ (tld t w))))))))) =
       length (data_ (tld t w)) ∧
     (∀ i, length (data_ (tld t w)) - k ≤ i → i < length (data_ (tld t w)) →
        data_ (tld t (foldl (reset_cell t) w
            (take k (reverse (seq 0 (length (data_ (tld t w)))))))) !! i =
          Some None) ∧
     (∀ i, i < length (data_ (tld t w)) - k →
        data_ (tld t (foldl (reset_cell t) w
            (take k (reverse (seq 0 (length (data_ (tld t w)))))))) !! i =
          data_ (tld t w) !! i) ∧
     (∀ t', t' ≠ t →
        tld t' (foldl (reset_cell t) w
            (take k (reverse (seq 0 (length (data_ (tld t w))))))) = tld t' w)).
Proof.
  intros Hs. split; [|split; [|split; [|split; [|split]]]].
  - unfold shutdownThread. rewrite bool_decide_true by done. simpl.
    eexists. split; [done|]. split; [|split].
    + simpl. apply log_foldl_reset_cell.
    + apply tld_set_data.
    + intros t' Hne. rewrite tld_set_data_ne by done.
      by apply tld_foldl_reset_cell_ne.
  - intros n. induction n as [|n IH]; intros i j l1 l2 l3.
    + by destruct l1.
    + rewrite seq_S, reverse_app. simpl.
      destruct l1 as [|x l1]; simpl; intros [= Hi Heq].
      * assert (j ∈ reverse (seq 0 n)) as Hj
          by (rewrite Heq, elem_of_app, elem_of_cons; tauto).
        apply elem_of_reverse, elem_of_seq in Hj. lia.
      * specialize (IH _ _ _ _ _ Heq). lia.
  - intros t0 w0 Hs0. unfold shutdownThread. by rewrite bool_decide_false.
  - unfold shutdownThread. by rewrite bool_decide_true by done.
  - intros k Hk. pose proof (reverse_seq_lookup _ _ Hk) as Hlook.
    split; [done|].
    rewrite (take_S_r _ _ _ Hlook), foldl_app. done.
  - intros k Hk. rewrite (take_reverse_seq _ _ Hk).
    destruct (foldl_reset_cell_data t
                (reverse (seq (length (data_ (tld t w)) - k) k)) w) as [Hlen Hcells].
    split; [apply log_foldl_reset_cell|]. split; [done|]. split; [|split].
    + intros i Hge Hlt. rewrite (Hcells i Hlt). rewrite bool_decide_true; [done|].
      apply elem_of_reverse, elem_of_seq. lia.
    + intros i Hlt. rewrite Hcells by lia. rewrite bool_decide_false; [done|].
      intros Hin%elem_of_reverse%elem_of_seq. lia.
    + intros t' Hne. by apply tld_foldl_reset_cell_ne.
Qed.

(** The main thread holds two cells when the registry shuts down: cell 1
    is reset before cell 0, and after the first iteration cell 1 is empty
    while cell 0 still holds its object. *)
Lemma shutdownThread_descending_witness :
  ∃ w',
    shutdownThread 0
      (world_after (setup ++ [OpSet 0 0 example_init; OpSet 0 1 example_init;
                              OpShutdownGlobalThreading 0])) = Ok w' ∧
    log w' =
      log (world_after (setup ++ [OpSet 0 0 example_init; OpSet 0 1 example_init;
                                  OpShutdownGlobalThreading 0]))
      ++ [EvReset 0 1; EvReset 0 0] ∧
    data_ (tld 0 w') = [] ∧
    data_ (tld 0
      (foldl (reset_cell 0)
         (world_after (setup ++ [OpSet 0 0 example_init; OpSet 0 1 example_init;
                                 OpShutdownGlobalThreading 0]))
         (take 1 (reverse (seq 0 2))))) = [Some 10; None].
Proof.
  destruct (shutdownThread_descending 0
              (world_after (setup ++ [OpSet 0 0 example_init; OpSet 0 1 example_init;
                                      OpShutdownGlobalThreading 0])))
    as ((w' & Hw' & Hlog & Hdata & _) & _ & _ & _ & _ & Hloop); [reflexivity|].
  exists w'. split; [exact Hw'|]. split; [exact Hlog|]. split; [exact Hdata|].
  destruct (Hloop 1) as (_ & Hlen & Hnull & Hkept & _); [vm_compute; lia|].
  apply (list_eq_same_length _ _ 2); [exact Hlen|reflexivity|].
  intros i x y Hi Hx Hy. destruct i as [|[|i]]; [| |lia].
  - rewrite Hkept in Hx by (vm_compute; lia). vm_compute in Hx. simpl in Hy. congruence.
  - rewrite Hnull in Hx by (vm_compute; lia). simpl in Hy. congruence.
Defined.

(** ** Removal *)

(** Claim C5.  [removeSlot] on the main thread.  In the Shutdown state it
    returns at once and changes nothing.  Otherwise it nulls
    [slots_[index]], asserts that [index] is not in the queue of free
    indices (a failed assertion when it is), pushes [index] at the back of
    the queue, posts to every registered worker a callback and runs the
    same callback on the main thread; on whatever thread it runs, this
    callback clears cell [index] when the vector of the thread is long
    enough and does nothing else. *)
Theorem removeSlot_spec (t : Thread) (slot : SlotId) (s : SlotImpl) (w : World) :
  t = main_thread_id_ w → heap w !! slot = Some s →
  index_ s < length (slots_ w) →
  (state_ w = Shutdown → removeSlot t slot w = Ok w) ∧
  (state_ w ≠ Shutdown → index_ s ∈ free_slot_indexes_ w →
   removeSlot t slot w = Fail AssertFailed) ∧
  (state_ w ≠ Shutdown → index_ s ∉ free_slot_indexes_ w →
   ∃ w', removeSlot t slot w = Ok w' ∧
     slots_ w' = <[index_ s := None]> (slots_ w) ∧
     free_slot_indexes_ w' = free_slot_indexes_ w ++ [index_ s] ∧
     posted w' = posted w ++
       map (λ d, (d, Call (ClearCb (index_ s)))) (registered_threads_ w) ∧
     log w' = log w ++
       map (λ d, EvPost d (Call (ClearCb (index_ s)))) (registered_threads_ w) ++
       [EvRun t (ClearCb (index_ s))] ∧
     data_ (tld t w') =
       (if bool_decide (index_ s < length (data_ (tld t w)))
        then <[index_ s := None]> (data_ (tld t w)) else data_ (tld t w)) ∧
     heap w' = heap w ∧ state_ w' = state_ w) ∧
  (∀ d w0, ∃ w0',
     call d (ClearCb (index_ s)) w0 = Ok w0' ∧
     data_ (tld d w0') =
       (if bool_decide (index_ s < length (data_ (tld d w0)))
        then <[index_ s := None]> (data_ (tld d w0)) else data_ (tld d w0)) ∧
     ∀ t', t' ≠ d → tld t' w0' = tld t' w0).
Proof.
  intros Ht Hslot Hlt.
  assert (∀ d w0, ∃ w0',
     call d (ClearCb (index_ s)) w0 = Ok w0' ∧
     data_ (tld d w0') =
       (if bool_decide (index_ s < length (data_ (tld d w0)))
        then <[index_ s := None]> (data_ (tld d w0)) else data_ (tld d w0)) ∧
     ∀ t', t' ≠ d → tld t' w0' = tld t' w0) as Hclear.
  { intros d w0. simpl. case_bool_decide.
    - eexists. split; [done|]. split; [apply tld_set_data|].
      intros t' Hne. by apply tld_set_data_ne.
    - by exists w0. }
  unfold removeSlot, on_main_thread, deref. rewrite bool_decide_true by done.
  rewrite Hslot. simpl. split; [|split; [|split]]; try done.
  - intros Hs. by rewrite decide_True.
  - intros Hs Hin. rewrite decide_False by done. rewrite bool_decide_true by done.
    simpl. by rewrite bool_decide_false by (by intros []).
  - intros Hs Hnin. rewrite decide_False by done. rewrite bool_decide_true by done.
    simpl. rewrite bool_decide_true by done. simpl.
    rewrite runOnAllThreads_unfold by done.
    unfold run. rewrite post_all_eq.
    match goal with |- ∃ w', call t _ ?W = _ ∧ _ =>
      destruct (Hclear t W) as (w' & Hcall & Hdata & _) end.
    exists w'. split; [done|].
    destruct (call_frame _ _ _ _ Hcall) as (x & Hw' & _).
    rewrite Hdata. rewrite Hw'. simpl. rewrite <- app_assoc. done.
Qed.

(** Slot 0 of a registry with two slots and two workers is removed. *)
Lemma removeSlot_spec_witness :
  ∃ w', removeSlot 0 0 (world_after setup) = Ok w' ∧
    slots_ w' = [None; Some 1] ∧ free_slot_indexes_ w' = [0] ∧
    posted w' = posted (world_after setup) ++
                [(1, Call (ClearCb 0)); (2, Call (ClearCb 0))].
Proof.
  destruct (removeSlot_spec 0 0
              {| index_ := 0; still_alive_ := true; ready_to_destroy_ := false |}
              (world_after setup))
    as (_ & _ & Hremove & _); [reflexivity|reflexivity|vm_compute; lia|].
  destruct Hremove as (w' & Hw' & Hslots & Hfree & Hposted & _);
    [by vm_compute|vm_compute; apply not_elem_of_nil|].
  exists w'. split; [exact Hw'|]. split; [exact Hslots|].
  split; [exact Hfree|exact Hposted].
Defined.

(** ** The lifecycle *)

(** Claim C7.  Along every execution the state goes forward in the order
    Initializing, Running, Shutdown, and Shutdown is final.
    [startGlobalThreading] succeeds in the Initializing state only, and
    sets Running; [shutdownGlobalThreading] succeeds on the main thread
    outside Shutdown only, and sets Shutdown.  In the Shutdown state
    [allocateSlot], [registerThread] and the two forms of
    [runOnAllThreads] are failed assertions. *)
Theorem state_monotone (ops : list Op) (w w' : World) :
  exec ops w = Ok w' →
  state_rank (state_ w) ≤ state_rank (state_ w') ∧
  (state_ w = Shutdown → state_ w' = Shutdown) ∧
  (∀ w0, startGlobalThreading w0 =
         if decide (state_ w0 = Initializing)
         then Ok (set_state Running w0) else Fail AssertFailed) ∧
  (∀ t0 w0, shutdownGlobalThreading t0 w0 =
            if decide (t0 = main_thread_id_ w0 ∧ state_ w0 ≠ Shutdown)
            then Ok (set_state Shutdown w0) else Fail AssertFailed) ∧
  (∀ t0 w0, state_ w0 = Shutdown →
     allocateSlot t0 w0 = Fail AssertFailed ∧
     (∀ d main_thread, registerThread t0 d main_thread w0 = Fail AssertFailed) ∧
     (∀ cb, runOnAllThreads t0 cb w0 = Fail AssertFailed) ∧
     (∀ cb c, runOnAllThreads_complete t0 cb c w0 = Fail AssertFailed)).
Proof.
  intros Hexec%exec_state_rank. split; [done|]. split; [|split; [|split]].
  - intros Hs. rewrite Hs in Hexec. destruct (state_ w'); simpl in *; try lia. done.
  - intros w0. unfold startGlobalThreading. case_decide.
    + by rewrite bool_decide_true.
    + by rewrite bool_decide_false.
  - intros t0 w0. unfold shutdownGlobalThreading, on_main_thread, not_shutdown.
    case_decide as H.
    + destruct H. by rewrite !bool_decide_true.
    + destruct (decide (t0 = main_thread_id_ w0)) as [Ht0|Ht0].
      * rewrite (bool_decide_true _ Ht0). simpl.
        rewrite bool_decide_false; [done|]. intros ?. by apply H.
      * by rewrite (bool_decide_false _ Ht0).
  - intros t0 w0 Hs. repeat split; intros; by apply shutdown_fatal.
Qed.

(** From registration to shutdown. *)
Lemma state_monotone_witness :
  state_rank (state_ (init 0)) ≤
  state_rank (state_ (world_after (setup ++ [OpStartGlobalThreading 0;
                                             OpShutdownGlobalThreading 0]))).
Proof.
  apply (state_monotone (setup ++ [OpStartGlobalThreading 0; OpShutdownGlobalThreading 0])
           (init 0)).
  vm_compute. reflexivity.
Defined.

(** ** Setting the value of a slot *)

(** Claim C8.  [SlotImpl::set] on the main thread, outside Shutdown: to
    every registered worker is posted a wrapped callback which, when it
    runs on that worker, stores the value of the initializer at the
    dispatcher of the worker in the cell of the slot; then the cell of the
    main thread is set to the value of the initializer at the main
    dispatcher, so that [get] on the main thread returns that value when
    [set] has returned.  In the Shutdown state the call is a failed
    assertion.  The index of the slot goes through the [uint32_t]
    parameter of [setThreadLocal]: it is taken with a representable
    successor. *)
Theorem SlotImpl_set_spec (t : Thread) (slot : SlotId) (s : SlotImpl)
    (cb : Dispatcher → Cell) (d : Dispatcher) (w : World) :
  t = main_thread_id_ w → state_ w ≠ Shutdown →
  heap w !! slot = Some s → main_thread_dispatcher_ w = Some d →
  fits_u32 (index_ s + 1) →
  (∃ w', SlotImpl_set t slot cb w = Ok w' ∧
     posted w' = posted w ++
       map (λ d', (d', Call (wrapCallback slot s (InitCb (index_ s) cb d'))))
         (registered_threads_ w) ∧
     log w' = log w ++
       map (λ d', EvPost d' (Call (wrapCallback slot s (InitCb (index_ s) cb d'))))
         (registered_threads_ w) ∧
     data_ (tld t w') !! index_ s = Some (cb d) ∧
     SlotImpl_get t slot w' = Ok (cb d) ∧
     (∀ t', t' ≠ t → tld t' w' = tld t' w)) ∧
  (∀ d' w0, heap w0 !! slot = Some s →
     ∃ w0', call d' (wrapCallback slot s (InitCb (index_ s) cb d')) w0 = Ok w0' ∧
       data_ (tld d' w0') !! index_ s = Some (cb d') ∧
       SlotImpl_get d' slot w0' = Ok (cb d') ∧
       (∀ t', t' ≠ d' → tld t' w0' = tld t' w0)) ∧
  (∀ t0 w0, heap w0 !! slot = Some s → state_ w0 = Shutdown →
     SlotImpl_set t0 slot cb w0 = Fail AssertFailed).
Proof.
  intros Ht Hs Hslot Hd Hfit.
  assert (fits_u32 (index_ s)) as Hfit0 by (eapply fits_u32_le; [|done]; lia).
  assert (∀ t0 v w0, heap w0 !! slot = Some s →
    ∃ w0', on_thread t0 (setThreadLocal (index_ s) v) w0 = Ok w0' ∧
      w0' = set_data t0 (data_ (tld t0 w0')) w0 ∧
      data_ (tld t0 w0') !! index_ s = Some v ∧
      SlotImpl_get t0 slot w0' = Ok v ∧
      (∀ t', t' ≠ t0 → tld t' w0' = tld t' w0)) as Hstore.
  { intros t0 v w0 Hslot0.
    destruct (setThreadLocal_fits (index_ s) v (data_ (tld t0 w0)) Hfit)
      as (data' & Hset & Hdata' & Hlen).
    unfold on_thread. rewrite Hset. simpl. eexists. split; [done|].
    rewrite tld_set_data.
    assert (data' !! index_ s = Some v) as Hv.
    { rewrite Hdata'. apply list_lookup_insert_eq.
      rewrite Hdata', length_insert in Hlen. done. }
    split; [done|]. split; [done|]. split.
    - unfold SlotImpl_get, deref, currentThreadRegistered. simpl.
      rewrite Hslot0. simpl. rewrite tld_set_data.
      rewrite bool_decide_true by done. simpl. by rewrite Hv.
    - intros t' Hne. by apply tld_set_data_ne. }
  split; [|split].
  - unfold SlotImpl_set, deref, main_dispatcher. rewrite Hslot. simpl.
    unfold on_main_thread, not_shutdown. rewrite !bool_decide_true by done.
    simpl. rewrite post_all_eq. simpl. rewrite Hd. simpl.
    rewrite (u32_fits _ Hfit0).
    match goal with |- ∃ w', on_thread t _ ?W = _ ∧ _ =>
      destruct (Hstore t (cb d) W) as (w' & Hw' & Heq & Hv & Hget & Hother);
        [done|] end.
    exists w'. split; [done|]. rewrite Heq at 1 2. simpl. done.
  - intros d' w0 Hslot0. simpl.
    destruct (Hstore d' (cb d') w0 Hslot0) as (w0' & H1 & _ & H2 & H3 & H4).
    by exists w0'.
  - intros t0 w0 Hslot0 Hs0. unfold SlotImpl_set, deref. rewrite Hslot0. simpl.
    by apply shutdown_fatal.
Qed.

(** [set] on slot 0, from the main thread 0 whose dispatcher is 0. *)
Lemma SlotImpl_set_spec_witness :
  ∃ w', SlotImpl_set 0 0 example_init (world_after setup) = Ok w' ∧
    SlotImpl_get 0 0 w' = Ok (Some 10).
Proof.
  destruct (SlotImpl_set_spec 0 0
              {| index_ := 0; still_alive_ := true; ready_to_destroy_ := false |}
              example_init 0 (world_after setup))
    as ((w' & Hw' & _ & _ & _ & Hget & _) & _);
    [by vm_compute|by vm_compute|by vm_compute|by vm_compute|by vm_compute|].
  exists w'. split; [exact Hw'|exact Hget].
Defined.

(** ** The broadcast without completion *)

(** Claim C2, as the code has it.  [runOnAllThreads(cb)] on the main
    thread, outside Shutdown: [cb] is posted to every registered worker, in
    the order of registration, and then called on the main thread; no
    guard is made and nothing but these copies of [cb] is posted, so there
    is no completion notification.  The posts come before the call on the
    main thread, not after it. *)
Theorem runOnAllThreads_spec (t : Thread) (cb : Callback) (w w' : World) :
  runOnAllThreads t cb w = Ok w' →
  t = main_thread_id_ w ∧ state_ w ≠ Shutdown ∧
  log w' = log w ++ map (λ d, EvPost d (Call cb)) (registered_threads_ w)
                 ++ [EvRun t cb] ∧
  posted w' = posted w ++ map (λ d, (d, Call cb)) (registered_threads_ w) ∧
  guards w' = guards w ∧
  (∃ w1, call t cb w = Ok w1 ∧ thread_local_data_ w' = thread_local_data_ w1) ∧
  (∀ t0 name w0, t0 = main_thread_id_ w0 → state_ w0 ≠ Shutdown →
     ∃ w0', runOnAllThreads t0 (UserCb name) w0 = Ok w0').
Proof.
  intros Hrun. destruct (runOnAllThreads_Ok _ _ _ _ Hrun) as (Ht & Hs & _).
  split; [done|]. split; [done|].
  rewrite runOnAllThreads_unfold in Hrun by done.
  unfold run, emit in Hrun. rewrite post_all_eq in Hrun.
  rewrite call_set_log, call_set_log, call_set_posted in Hrun.
  destruct (call t cb w) as [w1|] eqn:Hcall; simpl in Hrun; [|done].
  injection Hrun as <-. simpl. rewrite <- app_assoc.
  destruct (call_frame _ _ _ _ Hcall) as (x & -> & _).
  repeat split; eauto.
  intros t0 name w0 Ht0 Hs0. rewrite runOnAllThreads_unfold by done.
  unfold run. simpl. eauto.
Qed.

(** A broadcast to the two workers of the example. *)
Lemma runOnAllThreads_spec_witness :
  ∃ w',
    runOnAllThreads 0 (UserCb 7) (world_after setup) = Ok w' ∧
    log w' = log (world_after setup) ++
             [EvPost 1 (Call (UserCb 7)); EvPost 2 (Call (UserCb 7));
              EvRun 0 (UserCb 7)].
Proof.
  destruct (runOnAllThreads 0 (UserCb 7) (world_after setup)) as [w'|f] eqn:Hrun;
    [|by vm_compute in Hrun].
  exists w'. split; [reflexivity|].
  exact (proj1 (proj2 (proj2 (runOnAllThreads_spec 0 (UserCb 7) _ w' Hrun)))).
Defined.

(** The sentence of the specification fails where a worker is registered:
    the first event of the broadcast is a post, not the call of [cb] on the
    main thread. *)
Lemma runOnAllThreads_main_thread_not_first :
  ∃ w' events,
    runOnAllThreads 0 (UserCb 7) (world_after setup) = Ok w' ∧
    log w' = log (world_after setup) ++ events ∧
    ¬ main_thread_first 0 (UserCb 7) events.
Proof.
  eexists. exists [EvPost 1 (Call (UserCb 7)); EvPost 2 (Call (UserCb 7));
                   EvRun 0 (UserCb 7)].
  split; [vm_compute; reflexivity|]. split; [vm_compute; reflexivity|].
  intros (posts & Heq). discriminate Heq.
Qed.

(** ** The invariant of the registry *)

(** Claim C6.  In every world an execution reaches from the initial
    registry, outside Shutdown: every free index has a null entry in
    [slots_]; every entry of [slots_] that is not null points to a live
    handle whose [index_] is the position of the entry; two live handles
    never have the same index; and a step makes [slots_] longer only by
    appending one index while the queue of free indices is empty.  The
    front of the queue is read into a [uint32_t]: the statement is for the
    registries whose number of slots is representable. *)
Theorem registry_invariant (w : World) :
  reachable w → state_ w ≠ Shutdown → fits_u32 (length (slots_ w)) →
  (∀ i, i ∈ free_slot_indexes_ w → slots_ w !! i = Some None) ∧
  (∀ i s, slots_ w !! i = Some (Some s) →
     ∃ slot, heap w !! s = Some slot ∧ index_ slot = i) ∧
  (∀ s1 s2 slot1 slot2,
     heap w !! s1 = Some slot1 → heap w !! s2 = Some slot2 →
     index_ slot1 = index_ slot2 → s1 = s2) ∧
  (∀ op w', step op w = Ok w' →
     length (slots_ w') = length (slots_ w) ∨
     (free_slot_indexes_ w = [] ∧ slots_ w' = slots_ w ++ [Some (next_slot w)])).
Proof.
  intros Hw Hs Hfit.
  destruct (reachable_registry_inv w Hw Hfit) as [H1 H2 H3 H4 H5].
  split; [done|]. split; [by apply H3|]. split.
  - intros s1 s2 slot1 slot2 Hs1%H4 Hs2%H4 Heq. rewrite Heq in Hs1. congruence.
  - intros op w' Hstep%step_perform. by apply (perform_slots w op).
Qed.

(** Slot 0 destroyed, slot 1 alive, index 0 free. *)
Lemma registry_invariant_witness :
  0 ∈ free_slot_indexes_ (world_after (setup ++ [OpDestroySlot 0 0])) ∧
  slots_ (world_after (setup ++ [OpDestroySlot 0 0])) !! 0 = Some None.
Proof.
  assert (0 ∈ free_slot_indexes_ (world_after (setup ++ [OpDestroySlot 0 0])))
    as Hin by (vm_compute; left).
  split; [exact Hin|].
  refine (proj1 (registry_invariant (world_after (setup ++ [OpDestroySlot 0 0]))
                   _ _ _) 0 Hin).
  - exists 0, (setup ++ [OpDestroySlot 0 0]). vm_compute. reflexivity.
  - by vm_compute.
  - by vm_compute.
Defined.

(** ** Destruction of a handle *)

Lemma pending_zero_no_owner s w :
  pending s w = 0 →
  (∀ d k, (d, k) ∈ posted w → s ∉ task_tokens k) ∧
  (∀ gd, gd ∈ guards w → s ∉ guard_tokens gd).
Proof.
  unfold pending. intros Hp.
  assert (occurrences s (posted w ≫= λ p, task_tokens p.2) = 0) as H1 by lia.
  assert (occurrences s (guards w ≫= guard_tokens) = 0) as H2 by lia.
  apply occurrences_zero in H1, H2. split.
  - intros d k Hin Hs. apply H1, list_elem_of_bind. by exists (d, k).
  - intros gd Hin Hs. apply H2, list_elem_of_bind. by exists gd.
Qed.

(** Claim C3.  In a world an execution reaches:
    - [~SlotImpl] entered in the Running state leaves the thread inside the
      wait: [removeSlot] has not run, the handle still exists, and the
      thread can perform nothing but the return from the wait;
    - the wait does not return while a posted callback or a guard holds a
      copy of the liveness token of the slot;
    - when it returns (and only then [removeSlot] runs and the handle
      disappears) no copy of the token is left, in any queue;
    - the main thread is not kept waiting once no copy is left;
    - in the states Initializing and Shutdown the destructor never waits:
      it runs to its end in one go;
    - what runs when the wait returns is [removeSlot], on the main thread
      and still in the Running state: the entry of the slot in [slots_] is
      nulled, its index is pushed at the back of the queue of free
      indices, the clearing callback is posted to every registered worker
      and run on the main thread, whose cell of that index is cleared;
      none of this has happened while the thread waits;
    - in the Initializing state the destructor does the same before it
      returns; in the Shutdown state it returns with [slots_], the queue
      of free indices, the queues of the dispatchers and the cells as
      they were. *)
Theorem slot_destructor_waits (t : Thread) (slot : SlotId) (w : World) :
  reachable w →
  (state_ w = Running → ∀ w1, SlotImpl_dtor t slot w = Ok w1 →
     (t, slot) ∈ waiting w1 ∧ blocked t w1 = true ∧ is_Some (heap w1 !! slot) ∧
     slots_ w1 = slots_ w ∧ free_slot_indexes_ w1 = free_slot_indexes_ w ∧
     posted w1 = posted w ∧
     (∀ op, op_thread op = t → (∀ s, op ≠ OpResumeDestroySlot t s) →
            step op w1 = Fail Blocked)) ∧
  ((t, slot) ∈ waiting w → 0 < pending slot w →
   SlotImpl_dtor_resume t slot w = Fail Blocked) ∧
  (∀ w1, SlotImpl_dtor_resume t slot w = Ok w1 →
     pending slot w = 0 ∧ use_count slot w = 0 ∧
     (∀ d k, (d, k) ∈ posted w → slot ∉ task_tokens k) ∧
     (∀ gd, gd ∈ guards w → slot ∉ guard_tokens gd) ∧
     is_Some (heap w !! slot) ∧ heap w1 !! slot = None) ∧
  (t = main_thread_id_ w → (t, slot) ∈ waiting w → pending slot w = 0 →
   SlotImpl_dtor_resume t slot w ≠ Fail Blocked) ∧
  (state_ w ≠ Running →
   SlotImpl_dtor t slot w ≠ Fail Blocked ∧
   ∀ w1, SlotImpl_dtor t slot w = Ok w1 →
         waiting w1 = waiting w ∧ heap w1 !! slot = None) ∧
  (∀ w1, SlotImpl_dtor_resume t slot w = Ok w1 →
     t = main_thread_id_ w ∧ state_ w = Running ∧
     ∃ s, heap w !! slot = Some s ∧
       index_ s < length (slots_ w) ∧
       slots_ w1 = <[index_ s := None]> (slots_ w) ∧
       free_slot_indexes_ w1 = free_slot_indexes_ w ++ [index_ s] ∧
       posted w1 = posted w ++
         map (λ d, (d, Call (ClearCb (index_ s)))) (registered_threads_ w) ∧
       log w1 = log w ++
         map (λ d, EvPost d (Call (ClearCb (index_ s)))) (registered_threads_ w) ++
         [EvRun t (ClearCb (index_ s))] ∧
       data_ (tld t w1) =
         (if bool_decide (index_ s < length (data_ (tld t w)))
          then <[index_ s := None]> (data_ (tld t w)) else data_ (tld t w)) ∧
       waiting w1 = filter (λ p, p ≠ (t, slot)) (waiting w) ∧
       (t, slot) ∉ waiting w1) ∧
  (state_ w = Initializing → ∀ w1, SlotImpl_dtor t slot w = Ok w1 →
     t = main_thread_id_ w ∧
     ∃ s, heap w !! slot = Some s ∧
       index_ s < length (slots_ w) ∧
       slots_ w1 = <[index_ s := None]> (slots_ w) ∧
       free_slot_indexes_ w1 = free_slot_indexes_ w ++ [index_ s] ∧
       posted w1 = posted w ++
         map (λ d, (d, Call (ClearCb (index_ s)))) (registered_threads_ w) ∧
       log w1 = log w ++
         map (λ d, EvPost d (Call (ClearCb (index_ s)))) (registered_threads_ w) ++
         [EvRun t (ClearCb (index_ s))] ∧
       data_ (tld t w1) =
         (if bool_decide (index_ s < length (data_ (tld t w)))
          then <[index_ s := None]> (data_ (tld t w)) else data_ (tld t w))) ∧
  (state_ w = Shutdown → ∀ w1, SlotImpl_dtor t slot w = Ok w1 →
     t = main_thread_id_ w ∧
     slots_ w1 = slots_ w ∧ free_slot_indexes_ w1 = free_slot_indexes_ w ∧
     posted w1 = posted w ∧ log w1 = log w ∧
     thread_local_data_ w1 = thread_local_data_ w).
Proof.
  intros Hw. pose proof (reachable_tokens_inv w Hw) as [H1 H2 H3 H4 H5 H6].
  split; [|split; [|split; [|split; [|split; [|split; [|split]]]]]].
  - intros Hs w1 (s & h & Hslot & Ha & (Hsame & _) & [[_ ->]|[Hns _]])%SlotImpl_dtor_Ok;
      [|done].
    simpl in *.
    assert (blocked t (set_waiting ((t, slot) :: waiting w) (set_heap h w)) = true)
      as Hblocked.
    { unfold blocked. simpl. apply bool_decide_true. by left. }
    split; [by left|]. split; [done|]. split.
    { destruct (same_slots_lookup_l _ _ slot _ Hsame (lookup_insert_eq _ _ _))
        as (b & Hb & _). by rewrite Hb. }
    split; [done|]. split; [done|]. split; [done|].
    intros op Hop Hres. unfold step.
    destruct op; simpl in Hop; subst; cbn [op_thread]; rewrite ?Hblocked;
      try done.
    by edestruct Hres.
  - intros Hin Hp. unfold SlotImpl_dtor_resume, deref.
    rewrite bool_decide_true by done.
    destruct (H2 _ _ Hin) as (s & Hslot & Ha). rewrite Hslot. simpl.
    destruct (ready_to_destroy_ s) eqn:Hr; [|done].
    specialize (H1 _ _ Hslot Hr). rewrite (use_count_reset _ _ _ Hslot Ha) in H1. lia.
  - intros w1 (Hin & s & Hslot & Hr & Hfin)%SlotImpl_dtor_resume_Ok.
    specialize (H1 _ _ Hslot Hr).
    destruct (use_count_zero _ _ _ Hslot H1) as [_ Hp].
    split; [done|]. split; [done|].
    destruct (pending_zero_no_owner _ _ Hp) as [Hq Hg].
    split; [done|]. split; [done|]. split; [by rewrite Hslot|].
    apply SlotImpl_dtor_finish_Ok in Hfin as (w2 & _ & ->). simpl.
    apply lookup_delete_eq.
  - intros Ht Hin Hp. subst t. unfold SlotImpl_dtor_resume, deref.
    rewrite bool_decide_true by done.
    destruct (H2 _ _ Hin) as (s & Hslot & Ha). rewrite Hslot. simpl.
    rewrite (H5 slot s); [|apply not_elem_of_nil|done..].
    apply SlotImpl_dtor_finish_not_blocked.
  - intros Hs. unfold SlotImpl_dtor, deref.
    destruct (heap w !! slot) as [s|] eqn:Hslot; simpl; [|done].
    destruct (still_alive_ s) eqn:Ha; [|done].
    match goal with |- context [release_token slot ?W] =>
      pose proof (release_token_not_blocked slot W) as Hnb;
      destruct (release_token slot W) as [w0|f] eqn:Hrel end.
    + apply release_token_Ok in Hrel as (h & -> & _). simpl.
      rewrite decide_False by done. split; [apply SlotImpl_dtor_finish_not_blocked|].
      intros w1 (w2 & (_ & Hrm)%removeSlot_Ok & ->)%SlotImpl_dtor_finish_Ok. simpl.
      split; [|apply lookup_delete_eq].
      destruct Hrm as [[_ ->]|(_ & s' & x & _ & _ & _ & ->)]; [done|].
      by rewrite post_all_eq.
    + simpl. split; [by intros [= ->]|done].
  - intros w1 (Hin & s & Hslot & _ & Hfin)%SlotImpl_dtor_resume_Ok.
    apply SlotImpl_dtor_finish_Ok in Hfin as (w2 & Hrm & ->).
    pose proof (removeSlot_Ok _ _ _ _ Hrm) as [Ht _]. simpl in Ht.
    assert (state_ w = Running) as Hs by (apply (H4 slot); by rewrite <- Ht).
    split; [done|]. split; [done|].
    destruct (removeSlot_effect _ _ _ _ Hrm) as (s' & Hslot' & _ & Hrest);
      [simpl; by rewrite Hs|].
    simpl in Hslot'. assert (s' = s) as -> by congruence.
    destruct Hrest as (Hlt & _ & Hsl & Hfr & Hpo & Hlo & Hda & _ & Hwa & _).
    exists s. simpl in *. rewrite Hwa.
    repeat (split; [done|]).
    intros [Hne _]%list_elem_of_filter. done.
  - intros Hs w1 (s & h & Hslot & _ & (Hsame & _) & [[Hr _]|[_ Hfin]])%SlotImpl_dtor_Ok;
      [congruence|].
    apply SlotImpl_dtor_finish_Ok in Hfin as (w2 & Hrm & ->).
    pose proof (removeSlot_Ok _ _ _ _ Hrm) as [Ht _]. simpl in Ht.
    split; [done|].
    destruct (removeSlot_effect _ _ _ _ Hrm) as (s' & Hslot' & _ & Hrest);
      [simpl; by rewrite Hs|].
    simpl in Hslot'.
    destruct (same_slots_lookup _ _ _ _ Hsame Hslot') as (a & Hlook & Hidx & _).
    simpl in Hlook. rewrite lookup_insert_eq in Hlook. injection Hlook as <-.
    simpl in Hidx. rewrite <- Hidx in Hrest.
    destruct Hrest as (Hlt & _ & Hsl & Hfr & Hpo & Hlo & Hda & _).
    exists s. simpl in *. done.
  - intros Hs w1 (s & h & Hslot & _ & _ & [[Hr _]|[_ Hfin]])%SlotImpl_dtor_Ok;
      [congruence|].
    apply SlotImpl_dtor_finish_Ok in Hfin as (w2 & Hrm & ->).
    apply removeSlot_Ok in Hrm as [Ht [[_ ->]|[Hns _]]]; [done|].
    by destruct Hns.
Qed.

(** The destructor of slot 0, entered while the callbacks of [set] wait in
    the queues of the two workers, does not return from the wait; once the
    two workers have run them it returns, and [removeSlot] has freed
    index 0. *)
Lemma slot_destructor_waits_witness :
  SlotImpl_dtor_resume 0 0
    (world_after (setup ++ [OpStartGlobalThreading 0; OpSet 0 0 example_init;
                            OpDestroySlot 0 0])) = Fail Blocked ∧
  slots_ (world_after (setup ++ [OpStartGlobalThreading 0; OpSet 0 0 example_init;
                                 OpDestroySlot 0 0; OpDispatch 1; OpDispatch 1;
                                 OpDispatch 2; OpDispatch 2;
                                 OpResumeDestroySlot 0 0])) = [None; Some 1] ∧
  free_slot_indexes_
    (world_after (setup ++ [OpStartGlobalThreading 0; OpSet 0 0 example_init;
                            OpDestroySlot 0 0; OpDispatch 1; OpDispatch 1;
                            OpDispatch 2; OpDispatch 2;
                            OpResumeDestroySlot 0 0])) = [0].
Proof.
  split.
  - apply (slot_destructor_waits 0 0
             (world_after (setup ++ [OpStartGlobalThreading 0; OpSet 0 0 example_init;
                                     OpDestroySlot 0 0]))).
    + exists 0, (setup ++ [OpStartGlobalThreading 0; OpSet 0 0 example_init;
                           OpDestroySlot 0 0]).
      vm_compute. reflexivity.
    + vm_compute. left.
    + vm_compute. lia.
  - destruct (slot_destructor_waits 0 0
                (world_after (setup ++ [OpStartGlobalThreading 0;
                                        OpSet 0 0 example_init; OpDestroySlot 0 0;
                                        OpDispatch 1; OpDispatch 1;
                                        OpDispatch 2; OpDispatch 2])))
      as (_ & _ & _ & _ & _ & Hreturn & _).
    { exists 0, (setup ++ [OpStartGlobalThreading 0; OpSet 0 0 example_init;
                           OpDestroySlot 0 0; OpDispatch 1; OpDispatch 1;
                           OpDispatch 2; OpDispatch 2]).
      vm_compute. reflexivity. }
    destruct (Hreturn
                (world_after (setup ++ [OpStartGlobalThreading 0;
                                        OpSet 0 0 example_init; OpDestroySlot 0 0;
                                        OpDispatch 1; OpDispatch 1;
                                        OpDispatch 2; OpDispatch 2;
                                        OpResumeDestroySlot 0 0])))
      as (_ & _ & s & Hslot & _ & Hslots & Hfree & _).
    { vm_compute. reflexivity. }
    vm_compute in Hslot. injection Hslot as <-.
    split; [exact Hslots|exact Hfree].
Defined.

(** ** The broadcast with completion *)



(** * Further properties of the code *)

(** ** The storage of the threads *)

Lemma tld_eq t w w' :
  thread_local_data_ w' = thread_local_data_ w → tld t w' = tld t w.
Proof. unfold tld. by intros ->. Qed.

Lemma tls_grow_refl t w w' :
  thread_local_data_ w' = thread_local_data_ w → tls_grow t w w'.
Proof. by left. Qed.

Lemma tls_grow_trans t w1 w2 w3 :
  tls_grow t w1 w2 → tls_grow t w2 w3 → tls_grow t w1 w3.
Proof.
  unfold tls_grow, tld.
  intros [H12|(d2 & Hl2 & H12)] [H23|(d3 & Hl3 & H23)]; rewrite H23, H12.
  - by left.
  - right. exists d3. by rewrite H12 in Hl3.
  - right. by exists d2.
  - right. exists d3. rewrite H12, lookup_insert_eq in Hl3. simpl in *.
    rewrite lookup_insert_eq. simpl. split; [lia|]. by rewrite insert_insert_eq.
Qed.

Lemma tls_grow_eq_l t w0 w w' :
  thread_local_data_ w0 = thread_local_data_ w → tls_grow t w0 w' → tls_grow t w w'.
Proof. unfold tls_grow, tld. by intros ->. Qed.

Lemma tls_grow_eq_r t w w0 w' :
  thread_local_data_ w' = thread_local_data_ w0 → tls_grow t w w0 → tls_grow t w w'.
Proof. unfold tls_grow, tld. by intros ->. Qed.

Lemma tls_grow_set_data t data w :
  length (data_ (tld t w)) ≤ length data → tls_grow t w (set_data t data w).
Proof. intros Hl. right. by exists data. Qed.

(** What [tls_grow] says of every thread. *)
Lemma tls_grow_tld t w w' :
  tls_grow t w w' →
  (∀ t', t' ≠ t → tld t' w' = tld t' w) ∧
  dispatcher_ (tld t w') = dispatcher_ (tld t w) ∧
  (∀ t', length (data_ (tld t' w)) ≤ length (data_ (tld t' w'))).
Proof.
  intros [H|(data & Hl & H)].
  - rewrite !(tld_eq _ _ _ H). split; [intros; by apply tld_eq|]. split; [done|].
    intros t'. by rewrite (tld_eq _ _ _ H).
  - assert (∀ t', t' ≠ t → tld t' w' = tld t' w) as Hother.
    { intros t' Hne. unfold tld. by rewrite H, lookup_insert_ne. }
    assert (tld t w' = {| dispatcher_ := dispatcher_ (tld t w); data_ := data |}) as Hown.
    { unfold tld at 1. by rewrite H, lookup_insert_eq. }
    split; [done|]. split; [by rewrite Hown|].
    intros t'. destruct (decide (t' = t)) as [->|Hne].
    + by rewrite Hown.
    + by rewrite Hother.
Qed.

Lemma setThreadLocal_length index object data data' :
  setThreadLocal index object data = Ok data' → length data ≤ length data'.
Proof.
  unfold setThreadLocal. cbv zeta.
  destruct (decide (length data ≤ index)) as [Hl|Hl].
  - rewrite (bool_decide_true _ Hl). case_bool_decide as Hi; [|done].
    intros [= <-]. rewrite length_insert. lia.
  - rewrite (bool_decide_false _ Hl). case_bool_decide as Hi; [|done].
    intros [= <-]. by rewrite length_insert.
Qed.

Lemma on_thread_setThreadLocal_grow t index object w w' :
  on_thread t (setThreadLocal index object) w = Ok w' → tls_grow t w w'.
Proof.
  intros (data & Hset%setThreadLocal_length & ->)%on_thread_Ok.
  by apply tls_grow_set_data.
Qed.

Lemma call_tls_grow t cb w w' : call t cb w = Ok w' → tls_grow t w w'.
Proof.
  induction cb as [name|index|index cb d|this cb|a cb IH]; simpl.
  - intros [= <-]. by left.
  - case_bool_decide; intros [= <-]; [|by left].
    apply tls_grow_set_data. by rewrite length_insert.
  - apply on_thread_setThreadLocal_grow.
  - intros (s & _ & (v & _ & H)%bind_Ok)%bind_Ok.
    by apply on_thread_setThreadLocal_grow in H.
  - done.
Qed.

Lemma run_tls_grow t cb w w' : run t cb w = Ok w' → tls_grow t w w'.
Proof. unfold run. intros H%call_tls_grow. by eapply tls_grow_eq_l; [|done]. Qed.

Lemma release_guard_tls g w w' :
  release_guard g w = Ok w' → thread_local_data_ w' = thread_local_data_ w.
Proof.
  intros [[_ ->]|(_ & cb & c & d & h & _ & _ & H)]%release_guard_Ok; [done|].
  simpl in H. by destruct H as [-> _].
Qed.

Lemma runOnAllThreads_tls_grow t cb w w' :
  runOnAllThreads t cb w = Ok w' → tls_grow t w w'.
Proof.
  intros (_ & _ & H%run_tls_grow)%main_and_running_Ok.
  eapply tls_grow_eq_l; [|done]. by rewrite post_all_eq.
Qed.

Lemma runOnAllThreads_complete_tls_grow t cb c w w' :
  runOnAllThreads_complete t cb c w = Ok w' → tls_grow t w w'.
Proof.
  intros (_ & _ & (w1 & H1%run_tls_grow & H2%release_guard_tls)%bind_Ok)%main_and_running_Ok.
  eapply tls_grow_eq_r; [|done]. rewrite H2, post_all_eq. done.
Qed.

Lemma removeSlot_tls_grow t slot w w' :
  removeSlot t slot w = Ok w' → tls_grow t w w'.
Proof.
  unfold removeSlot, deref.
  intros (_ & _ & H)%bind_Ok. case_decide; [injection H as <-; by left|].
  destruct (heap w !! slot) as [s|]; simpl in H; [|done].
  case_bool_decide; [|done].
  apply bind_Ok in H as (_ & _ & H%runOnAllThreads_tls_grow).
  by eapply tls_grow_eq_l; [|done].
Qed.

Lemma SlotImpl_dtor_finish_tls_grow t slot w w' :
  SlotImpl_dtor_finish t slot w = Ok w' → tls_grow t w w'.
Proof.
  intros (w1 & H%removeSlot_tls_grow & ->)%SlotImpl_dtor_finish_Ok.
  by eapply tls_grow_eq_r; [|done].
Qed.

Lemma SlotImpl_dtor_tls_grow t slot w w' :
  SlotImpl_dtor t slot w = Ok w' → tls_grow t w w'.
Proof.
  intros (s & h & _ & _ & _ & [[_ ->]|[_ H%SlotImpl_dtor_finish_tls_grow]])%SlotImpl_dtor_Ok.
  - by left.
  - by eapply tls_grow_eq_l; [|done].
Qed.

Lemma SlotImpl_dtor_resume_tls_grow t slot w w' :
  SlotImpl_dtor_resume t slot w = Ok w' → tls_grow t w w'.
Proof.
  intros (_ & s & _ & _ & H%SlotImpl_dtor_finish_tls_grow)%SlotImpl_dtor_resume_Ok.
  by eapply tls_grow_eq_l; [|done].
Qed.

Lemma SlotImpl_set_tls_grow t slot cb w w' :
  SlotImpl_set t slot cb w = Ok w' → tls_grow t w w'.
Proof.
  intros (_ & _ & s & d & data & _ & _ & -> & Hl%setThreadLocal_length)%SlotImpl_set_Ok.
  rewrite post_all_eq. right. exists data. done.
Qed.

Lemma dispatch_tls d w w' :
  dispatch d w = Ok w' →
  tls_grow d w w' ∨
  ∃ d' rest, take_first d (posted w) = Some (RegisterCall d', rest) ∧
    thread_local_data_ w' =
      <[d := {| dispatcher_ := Some d'; data_ := data_ (tld d w) |}]>
        (thread_local_data_ w).
Proof.
  unfold dispatch.
  destruct (take_first d (posted w)) as [[k rest]|] eqn:Htake; [|done].
  destruct k as [cb|g|d']; simpl.
  - intros (w1 & H1%run_tls_grow & (h & -> & _)%release_tokens_Ok)%bind_Ok.
    left. by eapply tls_grow_eq_r; [|done].
  - destruct (guards w !! g) as [[[cb c]|]|]; try done.
    intros (w1 & H1%run_tls_grow & H2%release_guard_tls)%bind_Ok.
    left. by eapply tls_grow_eq_r; [|done].
  - intros [= <-]. right. by exists d', rest.
Qed.

(** Every operation but [shutdownThread], the registration of the main
    dispatcher and the callback of a registration. *)
Lemma perform_tls op w w' :
  perform op w = Ok w' →
  tls_grow (op_thread op) w w' ∨
  (∃ t, op = OpShutdownThread t ∧ state_ w = Shutdown ∧
        data_ (tld t w') = [] ∧ dispatcher_ (tld t w') = dispatcher_ (tld t w) ∧
        ∀ t', t' ≠ t → tld t' w' = tld t' w) ∨
  (∃ t d, (op = OpRegisterThread t d true ∨
           (op = OpDispatch t ∧ ∃ rest, take_first t (posted w) = Some (RegisterCall d, rest))) ∧
     thread_local_data_ w' =
       <[t := {| dispatcher_ := Some d; data_ := data_ (tld t w) |}]>
         (thread_local_data_ w)).
Proof.
  destruct op as [t|t slot|t slot|t slot cb|t slot cb|t slot cb mcb|t slot cb|t slot cb ccb|t d0 main_thread|t|t|t|d];
    simpl.
  - intros ([slot w1] & (_ & _ & _ & H)%allocateSlot_Ok & [= <-])%bind_Ok. left. left.
    by destruct H as [[_ ->]|(front & rest & _ & _ & ->)].
  - intros H%SlotImpl_dtor_tls_grow. by left.
  - intros H%SlotImpl_dtor_resume_tls_grow. by left.
  - intros H%SlotImpl_set_tls_grow. by left.
  - unfold SlotImpl_runOnAllThreads.
    intros (s & _ & H%runOnAllThreads_tls_grow)%bind_Ok. by left.
  - unfold SlotImpl_runOnAllThreads_complete.
    intros (s & _ & H%runOnAllThreads_complete_tls_grow)%bind_Ok. by left.
  - unfold SlotImpl_runOnAllThreads_update, SlotImpl_runOnAllThreads.
    intros (s & _ & H%runOnAllThreads_tls_grow)%bind_Ok. by left.
  - unfold SlotImpl_runOnAllThreads_update_complete, SlotImpl_runOnAllThreads_complete.
    intros (s & _ & H%runOnAllThreads_complete_tls_grow)%bind_Ok. by left.
  - intros (_ & _ & H)%registerThread_Ok. destruct main_thread.
    + right. right. exists t, d0. split; [by left|]. by subst.
    + left. left. by destruct H as [_ ->].
  - intros (_ & ->)%startGlobalThreading_Ok. left. by left.
  - intros (_ & _ & ->)%shutdownGlobalThreading_Ok. left. by left.
  - unfold shutdownThread.
    intros (_ & Hs%ASSERT_Ok%bool_decide_eq_true & [= <-])%bind_Ok.
    right. left. exists t. split; [done|]. split; [done|].
    split; [apply tld_set_data|]. split.
    + unfold tld at 1, set_data. simpl. rewrite lookup_insert_eq. simpl.
      generalize (reverse (seq 0 (length (data_ (tld t w))))). intros l.
      clear Hs. revert w. induction l as [|i l IH]; intros w; simpl; [done|].
      rewrite IH. unfold reset_cell. rewrite tld_emit.
      unfold tld at 1, set_data. simpl. by rewrite lookup_insert_eq.
    + intros t' Hne. rewrite tld_set_data_ne by done.
      by apply tld_foldl_reset_cell_ne.
  - intros [H|(d' & rest & Htake & H)]%dispatch_tls; [by left|].
    right. right. exists d, d'. split; [|done]. right. split; [done|]. by exists rest.
Qed.

(** ** The queues of the dispatchers *)

Lemma release_guard_posted g w w' :
  release_guard g w = Ok w' →
  ∃ new evs,
    posted w' = posted w ++ new ∧ log w' = log w ++ evs ∧
    Forall (λ p, ∃ c, p.2 = Call c) new ∧
    registered_threads_ w' = registered_threads_ w ∧
    main_thread_dispatcher_ w' = main_thread_dispatcher_ w ∧
    main_thread_id_ w' = main_thread_id_ w.
Proof.
  intros [[_ ->]|(_ & cb & c & d & h & _ & _ & H)]%release_guard_Ok.
  - exists [], []. by rewrite !app_nil_r.
  - simpl in H. destruct H as [-> _]. simpl.
    exists [(d, Call c)], [EvRelease g; EvPost d (Call c)].
    rewrite <- app_assoc. repeat split; try done.
    apply Forall_singleton. by exists c.
Qed.

Lemma Forall_map_const {A B} (P : B → Prop) (f : A → B) (l : list A) :
  (∀ a, P (f a)) → Forall P (map f l).
Proof. intros H. apply Forall_fmap, Forall_forall. intros a _. apply H. Qed.

(** Every operation adds to the back of the queues; the turn of a
    dispatcher takes the oldest entry of its own queue, and only the
    registration of a worker posts the callback of a registration. *)
Lemma perform_posted op w w' :
  perform op w = Ok w' →
  ∃ new,
    Forall (λ p, ∀ d', p.2 = RegisterCall d' →
                  ∃ t, op = OpRegisterThread t d' false ∧ p.1 = d') new ∧
    match op with
    | OpDispatch d =>
        ∃ k q1 q2 evs,
          posted w = q1 ++ (d, k) :: q2 ∧ (∀ p, p ∈ q1 → p.1 ≠ d) ∧
          posted w' = (q1 ++ q2) ++ new ∧
          log w' = log w ++ EvDispatch d k :: evs
    | _ => posted w' = posted w ++ new
    end.
Proof.
  destruct op as [t|t slot|t slot|t slot cb|t slot cb|t slot cb mcb|t slot cb|t slot cb ccb|t d0 main_thread|t|t|t|d];
    simpl.
  - intros ([slot w1] & (_ & _ & _ & H)%allocateSlot_Ok & [= <-])%bind_Ok.
    exists []. split; [done|]. rewrite app_nil_r.
    by destruct H as [[_ ->]|(front & rest & _ & _ & ->)].
  - intros (s & h & _ & _ & _ & [[_ ->]|[_ Hfin]])%SlotImpl_dtor_Ok.
    + exists []. by rewrite app_nil_r.
    + apply SlotImpl_dtor_finish_Ok in Hfin as (w1 & (_ & H)%removeSlot_Ok & ->).
      destruct H as [[_ ->]|(_ & s' & x & _ & _ & _ & ->)].
      * exists []. by rewrite app_nil_r.
      * rewrite post_all_eq. simpl. eexists. split; [|done].
        by apply Forall_map_const.
  - intros (_ & s & _ & _ & Hfin)%SlotImpl_dtor_resume_Ok.
    apply SlotImpl_dtor_finish_Ok in Hfin as (w1 & (_ & H)%removeSlot_Ok & ->).
    destruct H as [[_ ->]|(_ & s' & x & _ & _ & _ & ->)].
    + exists []. by rewrite app_nil_r.
    + rewrite post_all_eq. simpl. eexists. split; [|done].
      by apply Forall_map_const.
  - intros (_ & _ & s & d & data & _ & _ & -> & _)%SlotImpl_set_Ok.
    rewrite post_all_eq. simpl. eexists. split; [|done]. by apply Forall_map_const.
  - unfold SlotImpl_runOnAllThreads.
    intros (s & _ & (_ & _ & x & ->)%runOnAllThreads_Ok)%bind_Ok.
    rewrite post_all_eq. simpl. eexists. split; [|done]. by apply Forall_map_const.
  - unfold SlotImpl_runOnAllThreads_complete.
    intros (s & _ & (_ & _ & x & H)%runOnAllThreads_complete_Ok)%bind_Ok.
    apply release_guard_posted in H as (new & evs & -> & _ & Hnew & _).
    rewrite post_all_eq. simpl. rewrite <- app_assoc. eexists. split; [|done].
    apply Forall_app. split; [by apply Forall_map_const|].
    eapply Forall_impl; [done|]. by intros p [c ->].
  - unfold SlotImpl_runOnAllThreads_update, SlotImpl_runOnAllThreads.
    intros (s & _ & (_ & _ & x & ->)%runOnAllThreads_Ok)%bind_Ok.
    rewrite post_all_eq. simpl. eexists. split; [|done]. by apply Forall_map_const.
  - unfold SlotImpl_runOnAllThreads_update_complete, SlotImpl_runOnAllThreads_complete.
    intros (s & _ & (_ & _ & x & H)%runOnAllThreads_complete_Ok)%bind_Ok.
    apply release_guard_posted in H as (new & evs & -> & _ & Hnew & _).
    rewrite post_all_eq. simpl. rewrite <- app_assoc. eexists. split; [|done].
    apply Forall_app. split; [by apply Forall_map_const|].
    eapply Forall_impl; [done|]. by intros p [c ->].
  - intros (_ & _ & H)%registerThread_Ok. destruct main_thread.
    + subst. exists []. by rewrite app_nil_r.
    + destruct H as [_ ->]. simpl. eexists. split; [|done].
      apply Forall_singleton. simpl. intros d' [= <-]. by exists t.
  - intros (_ & ->)%startGlobalThreading_Ok. exists []. by rewrite app_nil_r.
  - intros (_ & _ & ->)%shutdownGlobalThreading_Ok. exists []. by rewrite app_nil_r.
  - intros (_ & x & ->)%shutdownThread_Ok. exists []. by rewrite app_nil_r.
  - intros (k & q1 & q2 & Hq & Hq1 & H)%dispatch_Ok. simpl in H.
    destruct k as [cb|g|d'].
    + destruct H as (x & h & _ & ->). simpl. exists []. split; [done|].
      exists (Call cb), q1, q2, [EvRun d cb]. rewrite app_nil_r, <- app_assoc. done.
    + destruct H as (cb & c & x & _ & H).
      apply release_guard_posted in H as (new & evs & Hp & Hl & Hnew & _).
      simpl in Hp, Hl. exists new. split.
      { eapply Forall_impl; [done|]. by intros p [c' ->]. }
      exists (GuardCall g), q1, q2, (EvRun d cb :: evs).
      rewrite Hp, Hl, <- !app_assoc. done.
    + subst w'. simpl. exists []. split; [done|].
      exists (RegisterCall d'), q1, q2, []. by rewrite app_nil_r.
Qed.

Lemma filter_none_for d (q : list (Dispatcher * Task)) :
  (∀ p, p ∈ q → p.1 ≠ d) → filter (λ p, p.1 = d) q = [].
Proof.
  intros H. apply elem_of_nil_inv. intros p [Hp Hin]%list_elem_of_filter.
  by apply (H p).
Qed.

(** ** The fields of the registry *)

Lemma removeSlot_fields t slot w w' :
  removeSlot t slot w = Ok w' →
  registered_threads_ w' = registered_threads_ w ∧
  main_thread_dispatcher_ w' = main_thread_dispatcher_ w ∧
  main_thread_id_ w' = main_thread_id_ w.
Proof.
  intros (_ & [[_ ->]|(_ & s & x & _ & _ & _ & ->)])%removeSlot_Ok; [done|].
  by rewrite post_all_eq.
Qed.

(** The list of workers and the main dispatcher change by registration
    only. *)
Lemma perform_fields op w w' :
  perform op w = Ok w' →
  main_thread_id_ w' = main_thread_id_ w ∧
  (registered_threads_ w' = registered_threads_ w ∨
   ∃ t d, op = OpRegisterThread t d false ∧ (d ∉ registered_threads_ w) ∧
          registered_threads_ w' = registered_threads_ w ++ [d]) ∧
  (main_thread_dispatcher_ w' = main_thread_dispatcher_ w ∨
   ∃ t d, op = OpRegisterThread t d true ∧ main_thread_dispatcher_ w' = Some d).
Proof.
  destruct op as [t|t slot|t slot|t slot cb|t slot cb|t slot cb mcb|t slot cb|t slot cb ccb|t d0 main_thread|t|t|t|d];
    simpl.
  - intros ([slot w1] & (_ & _ & _ & H)%allocateSlot_Ok & [= <-])%bind_Ok.
    destruct H as [[_ ->]|(front & rest & _ & _ & ->)]; simpl; auto.
  - intros (s & h & _ & _ & _ & [[_ ->]|[_ Hfin]])%SlotImpl_dtor_Ok; [simpl; auto|].
    apply SlotImpl_dtor_finish_Ok in Hfin as (w1 & (?&?&?)%removeSlot_fields & ->).
    simpl in *. auto.
  - intros (_ & s & _ & _ & Hfin)%SlotImpl_dtor_resume_Ok.
    apply SlotImpl_dtor_finish_Ok in Hfin as (w1 & (?&?&?)%removeSlot_fields & ->).
    simpl in *. auto.
  - intros (_ & _ & s & d & data & _ & _ & -> & _)%SlotImpl_set_Ok.
    rewrite post_all_eq. simpl. auto.
  - unfold SlotImpl_runOnAllThreads.
    intros (s & _ & (_ & _ & x & ->)%runOnAllThreads_Ok)%bind_Ok.
    rewrite post_all_eq. simpl. auto.
  - unfold SlotImpl_runOnAllThreads_complete.
    intros (s & _ & (_ & _ & x & H)%runOnAllThreads_complete_Ok)%bind_Ok.
    apply release_guard_posted in H as (new & evs & _ & _ & _ & H1 & H2 & H3).
    rewrite post_all_eq in H1, H2, H3. simpl in *. auto.
  - unfold SlotImpl_runOnAllThreads_update, SlotImpl_runOnAllThreads.
    intros (s & _ & (_ & _ & x & ->)%runOnAllThreads_Ok)%bind_Ok.
    rewrite post_all_eq. simpl. auto.
  - unfold SlotImpl_runOnAllThreads_update_complete, SlotImpl_runOnAllThreads_complete.
    intros (s & _ & (_ & _ & x & H)%runOnAllThreads_complete_Ok)%bind_Ok.
    apply release_guard_posted in H as (new & evs & _ & _ & _ & H1 & H2 & H3).
    rewrite post_all_eq in H1, H2, H3. simpl in *. auto.
  - intros (_ & _ & H)%registerThread_Ok. destruct main_thread.
    + subst. simpl. split; [done|]. split; [by left|]. right. eauto.
    + destruct H as [Hd ->]. simpl. split; [done|]. split; [|by left].
      right. exists t, d0. done.
  - intros (_ & ->)%startGlobalThreading_Ok. simpl. auto.
  - intros (_ & _ & ->)%shutdownGlobalThreading_Ok. simpl. auto.
  - intros (_ & x & ->)%shutdownThread_Ok. simpl. auto.
  - intros (k & q1 & q2 & _ & _ & H)%dispatch_Ok. simpl in H.
    destruct k as [cb|g|d'].
    + destruct H as (x & h & _ & ->). simpl. auto.
    + destruct H as (cb & c & x & _ & H).
      apply release_guard_posted in H as (new & evs & _ & _ & _ & H1 & H2 & H3).
      simpl in *. auto.
    + subst w'. simpl. auto.
Qed.

(** ** Dispatchers of the threads *)

Lemma posts_to_distinct {A} (k : Dispatcher → A) (ds : list Dispatcher) (d : Dispatcher) :
  NoDup ds →
  filter (λ p, p.1 = d) (map (λ d', (d', k d')) ds) =
  if bool_decide (d ∈ ds) then [(d, k d)] else [].
Proof.
  induction 1 as [|d0 ds Hd0 Hnd IH]; [done|]. simpl.
  destruct (decide (d0 = d)) as [->|Hne].
  - rewrite filter_cons_True by done.
    rewrite bool_decide_true by (by left).
    rewrite IH, bool_decide_false by done. done.
  - rewrite filter_cons_False by done. rewrite IH.
    destruct (decide (d ∈ ds)) as [Hin|Hnin].
    + rewrite !bool_decide_true; [done| |done]. by right.
    + rewrite !bool_decide_false; [done| |done].
      intros [->|?]%elem_of_cons; done.
Qed.

(** The dispatcher a thread knows was registered for it, and the callback
    of a registration waits in the queue of the worker it registers. *)
Lemma reachable_dispatchers w :
  reachable w →
  (∀ t d, dispatcher_ (tld t w) = Some d →
     (t = main_thread_id_ w ∧ main_thread_dispatcher_ w = Some d) ∨
     (d = t ∧ d ∈ registered_threads_ w)) ∧
  (∀ d d', (d, RegisterCall d') ∈ posted w → d' = d ∧ d ∈ registered_threads_ w).
Proof.
  revert w. apply reachable_ind.
  { intros main. split; [|by intros d d' []%not_elem_of_nil].
    intros t d. unfold tld. simpl. by rewrite lookup_empty. }
  intros op w w' _ [IH1 IH2] Hstep%step_perform.
  destruct (perform_fields _ _ _ Hstep) as (Hid & Hreg & Hmain).
  destruct (perform_posted _ _ _ Hstep) as (new & Hnew & Hposted).
  assert (∀ d, d ∈ registered_threads_ w → d ∈ registered_threads_ w') as Hregs.
  { intros d Hd. destruct Hreg as [->|(_ & d1 & _ & _ & ->)]; [done|].
    apply elem_of_app. by left. }
  assert (∀ p, p ∈ posted w' → p ∈ posted w ∨ p ∈ new) as Hin.
  { intros p. destruct op; simpl in Hposted;
      try (rewrite Hposted; by intros ?%elem_of_app).
    destruct Hposted as (k & q1 & q2 & evs & -> & _ & -> & _).
    rewrite !elem_of_app, elem_of_cons. tauto. }
  split; last first.
  { intros d d' [Hp|Hp]%Hin.
    - destruct (IH2 _ _ Hp) as [-> Hd]. auto.
    - rewrite Forall_forall in Hnew.
      destruct (Hnew _ Hp d' eq_refl) as (t & -> & Hd). simpl in *. subst d'.
      split; [done|].
      apply registerThread_Ok in Hstep as (_ & _ & _ & ->). simpl.
      apply elem_of_app. right. by left. }
  assert ((∀ t0 d0, op ≠ OpRegisterThread t0 d0 true) →
          ∀ t d, dispatcher_ (tld t w') = Some d →
            (t = main_thread_id_ w' ∧ main_thread_dispatcher_ w' = Some d) ∨
            (d = t ∧ d ∈ registered_threads_ w')) as Hcommon.
  { intros Hop t d.
    destruct Hmain as [Hmain|(t0 & d0 & -> & _)]; [|by destruct (Hop t0 d0)].
    rewrite Hid, Hmain.
    assert (dispatcher_ (tld t w) = Some d →
            (t = main_thread_id_ w ∧ main_thread_dispatcher_ w = Some d) ∨
            (d = t ∧ d ∈ registered_threads_ w')) as Hold.
    { intros [?|[-> ?]]%IH1; auto. }
    destruct (perform_tls _ _ _ Hstep)
      as [Hgrow|[(t0 & -> & _ & _ & Hdisp & Hother)|(t0 & d0 & Hop0 & Hmap)]].
    - destruct (tls_grow_tld _ _ _ Hgrow) as (Hother & Hown & _).
      destruct (decide (t = op_thread op)) as [->|Hne].
      + by rewrite Hown.
      + by rewrite Hother.
    - destruct (decide (t = t0)) as [->|Hne].
      + by rewrite Hdisp.
      + by rewrite Hother.
    - destruct Hop0 as [->|[-> [rest Htake]]]; [by destruct (Hop t0 d0)|].
      destruct (decide (t = t0)) as [->|Hne].
      + unfold tld at 1. rewrite Hmap, lookup_insert_eq. simpl. intros [= <-].
        apply take_first_Some in Htake as (q1 & q2 & Hq & _).
        destruct (IH2 t0 d0) as [-> Hd].
        { rewrite Hq, elem_of_app, elem_of_cons. auto. }
        auto.
      + unfold tld at 1. rewrite Hmap, lookup_insert_ne by done. apply Hold. }
  destruct op as [t|t slot|t slot|t slot cb|t slot cb|t slot cb mcb|t slot cb|t slot cb ccb|t d0 main_thread|t|t|t|d];
    try (apply Hcommon; intros; discriminate).
  destruct main_thread; [|apply Hcommon; intros; discriminate].
  simpl in Hstep. apply registerThread_Ok in Hstep as (Ht & _ & ->).
  intros t0 d. simpl. destruct (decide (t0 = t)) as [->|Hne].
  - unfold tld, set_dispatcher. simpl. rewrite lookup_insert_eq. simpl.
    intros [= <-]. by left.
  - unfold tld at 1, set_dispatcher. simpl. rewrite lookup_insert_ne by done.
    intros [[-> _]|?]%IH1; [by subst|by right].
Qed.

(** ** Reading and updating a cell *)

Lemma SlotImpl_get_Ok t slot s w v :
  heap w !! slot = Some s →
  SlotImpl_get t slot w = Ok v ↔
  index_ s < length (data_ (tld t w)) ∧ data_ (tld t w) !! index_ s = Some v.
Proof.
  intros Hslot. unfold SlotImpl_get, deref, currentThreadRegistered.
  rewrite Hslot. simpl. case_bool_decide as Hlt; simpl.
  - destruct (data_ (tld t w) !! index_ s) as [c|] eqn:Hc.
    + split; [intros [= ->]; done|intros [_ [= ->]]; done].
    + apply lookup_ge_None in Hc. lia.
  - split; [done|]. by intros [? _].
Qed.

Lemma SlotImpl_get_same t slot w w' :
  heap w' = heap w → thread_local_data_ w' = thread_local_data_ w →
  SlotImpl_get t slot w' = SlotImpl_get t slot w.
Proof.
  intros Hh Ht. unfold SlotImpl_get, deref, currentThreadRegistered, tld.
  by rewrite Hh, Ht.
Qed.

(** The closure of the [UpdateCb] broadcasts, on a thread. *)
Lemma call_UpdateCb d slot s cb w :
  heap w !! slot = Some s → fits_u32 (index_ s) →
  call d (wrapCallback slot s (UpdateCb slot cb)) w =
  match SlotImpl_get d slot w with
  | Ok v => Ok (set_data d (<[index_ s := cb v]> (data_ (tld d w))) w)
  | Fail f => Fail f
  end.
Proof.
  intros Hslot Hfit. simpl. unfold deref. rewrite Hslot. simpl.
  destruct (SlotImpl_get d slot w) as [v|f] eqn:Hget; simpl; [|done].
  apply (SlotImpl_get_Ok _ _ _ _ _ Hslot) in Hget as [Hlt _].
  assert (¬ length (data_ (tld d w)) ≤ index_ s) as Hn by lia.
  unfold on_thread, setThreadLocal. cbv zeta. rewrite (u32_fits _ Hfit).
  rewrite (bool_decide_false _ Hn), (bool_decide_true _ Hlt). done.
Qed.

(** ** Copies of the liveness tokens *)

Lemma pending_same s w w' :
  posted w' = posted w → guards w' = guards w → pending s w' = pending s w.
Proof. unfold pending. by intros -> ->. Qed.

Lemma occurrences_posts s (k : Task) (ds : list Dispatcher) :
  occurrences s (map (λ d, (d, k)) ds ≫= λ p, task_tokens p.2) =
  length ds * occurrences s (task_tokens k).
Proof.
  induction ds as [|d ds IH]; [done|].
  cbn [map length]. rewrite bind_cons, occurrences_app, IH. simpl. lia.
Qed.

Lemma runOnAllThreads_pending s t cb w w' :
  runOnAllThreads t cb w = Ok w' →
  pending s w' =
  pending s w + length (registered_threads_ w) * occurrences s (cb_tokens cb).
Proof.
  intros (_ & _ & x & ->)%runOnAllThreads_Ok.
  rewrite <- (occurrences_posts s (Call cb)), <- pending_post_all. done.
Qed.

Lemma release_guard_pending s g w w' :
  release_guard g w = Ok w' → pending s w' ≤ pending s w.
Proof.
  intros [[_ ->]|(_ & cb & c & d & h & Hg & _ & H)]%release_guard_Ok; [done|].
  simpl in H. destruct H as [-> _].
  rewrite (pending_guard_deleted s g cb c d w Hg). unfold pending. simpl. lia.
Qed.

Lemma runOnAllThreads_complete_pending s t cb c w w' :
  runOnAllThreads_complete t cb c w = Ok w' →
  pending s w' ≤ pending s w + occurrences s (cb_tokens cb) + occurrences s (cb_tokens c).
Proof.
  intros (_ & _ & x & H%(release_guard_pending s))%runOnAllThreads_complete_Ok.
  rewrite pending_post_all in H.
  rewrite (occurrences_posts s (GuardCall (length (guards w)))) in H.
  unfold pending in *. simpl in *.
  rewrite bind_app, occurrences_app in H. simpl in H.
  rewrite app_nil_r, occurrences_app, occurrences_nil in H. lia.
Qed.

(** ** The clearing callback and the write of a cell *)

Lemma call_ClearCb t i w :
  ∃ x, call t (ClearCb i) w = Ok (set_thread_local_data x w) ∧
    (∀ v, data_ (default no_data (x !! t)) !! i = Some v → v = None).
Proof.
  simpl. case_bool_decide as Hlt.
  - eexists. split; [done|]. rewrite lookup_insert_eq. simpl.
    rewrite list_lookup_insert_eq by done. by intros v [= <-].
  - exists (thread_local_data_ w). split; [by destruct w|].
    intros v Hv%lookup_lt_Some. done.
Qed.

Lemma setThreadLocal_fits_eq index object data :
  fits_u32 (index + 1) →
  setThreadLocal index object data =
  Ok (<[index := object]>
        (if bool_decide (length data ≤ index)
         then resize (index + 1) None data else data)).
Proof.
  intros Hfit.
  by destruct (setThreadLocal_fits index object data Hfit) as (data' & Hset & -> & _).
Qed.

Lemma call_InitCb_Ok t a index cb d w w' :
  call t (WrappedCb a (InitCb index cb d)) w = Ok w' →
  index < length (data_ (tld t w')) ∧ data_ (tld t w') !! index = Some (cb d).
Proof.
  simpl. intros (data & Hset & ->)%on_thread_Ok. rewrite tld_set_data.
  unfold setThreadLocal in Hset. cbv zeta in Hset.
  case_bool_decide as Hlt; [|done]. injection Hset as <-.
  rewrite length_insert. split; [done|]. by apply list_lookup_insert_eq.
Qed.

(** ** Tokens of a handle that is gone *)

Lemma removeSlot_pending s t slot w w' :
  removeSlot t slot w = Ok w' →
  pending s w' = pending s w ∧ heap w' = heap w.
Proof.
  intros (_ & [[_ ->]|(_ & s0 & x & _ & _ & _ & ->)])%removeSlot_Ok; [done|].
  split; [|by rewrite post_all_eq].
  unfold pending. rewrite post_all_eq. simpl. rewrite bind_app, occurrences_app.
  rewrite (occurrences_posts s (Call (ClearCb (index_ s0)))). simpl.
  rewrite occurrences_nil. unfold pending. lia.
Qed.

Lemma registry_frame_heap w w' slot :
  registry_frame w w' → heap w' !! slot = None → heap w !! slot = None.
Proof.
  intros (_ & _ & _ & Hh & _) Hnone.
  destruct (heap w !! slot) as [s|] eqn:Hs; [|done].
  assert (heap_index w' !! slot = Some (index_ s)) as Hi.
  { rewrite Hh. apply heap_index_lookup. eauto. }
  apply heap_index_lookup in Hi as (s' & Hs' & _). congruence.
Qed.

Lemma occurrences_posts_other s (k : Dispatcher → Task) (ds : list Dispatcher) :
  (∀ d, s ∉ task_tokens (k d)) →
  occurrences s (map (λ d, (d, k d)) ds ≫= λ p, task_tokens p.2) = 0.
Proof.
  intros Hk. apply occurrences_zero.
  intros (p & Hs & (d & -> & _)%list_elem_of_fmap)%list_elem_of_bind.
  by apply (Hk d).
Qed.

Lemma wrapCallback_tokens_other slot s0 s cb :
  cb_tokens cb = [] → slot ≠ s0 → slot ∉ cb_tokens (wrapCallback s0 s cb).
Proof.
  intros Hcb Hne [-> _]%elem_of_cb_tokens_wrapCallback; done.
Qed.

Lemma occurrences_wrapCallback_other slot s0 s cb :
  cb_tokens cb = [] → slot ≠ s0 →
  occurrences slot (cb_tokens (wrapCallback s0 s cb)) = 0.
Proof. intros. by apply occurrences_zero, wrapCallback_tokens_other. Qed.

(** Once a handle is gone no operation makes a copy of its token. *)
Lemma perform_pending_dead slot op w w' :
  perform op w = Ok w' → heap w' !! slot = None → pending slot w' ≤ pending slot w.
Proof.
  assert (∀ t s0 cb, cb_tokens cb = [] →
            SlotImpl_runOnAllThreads t s0 cb w = Ok w' →
            heap w' !! slot = None → pending slot w' ≤ pending slot w) as Hrun.
  { intros t s0 cb Hcb. unfold SlotImpl_runOnAllThreads, deref.
    destruct (heap w !! s0) as [s|] eqn:Hs0; simpl; [|done].
    intros Hcall Hnone.
    pose proof (registry_frame_heap _ _ _ (runOnAllThreads_registry_frame _ _ _ _ Hcall)
                  Hnone) as Hnone0.
    rewrite (runOnAllThreads_pending slot _ _ _ _ Hcall).
    rewrite occurrences_wrapCallback_other; [lia|done|congruence]. }
  assert (∀ t s0 cb c, cb_tokens cb = [] → cb_tokens c = [] →
            SlotImpl_runOnAllThreads_complete t s0 cb c w = Ok w' →
            heap w' !! slot = None → pending slot w' ≤ pending slot w) as Hcomplete.
  { intros t s0 cb c Hcb Hc. unfold SlotImpl_runOnAllThreads_complete, deref.
    destruct (heap w !! s0) as [s|] eqn:Hs0; simpl; [|done].
    intros Hcall Hnone.
    pose proof (registry_frame_heap _ _ _
                  (runOnAllThreads_complete_registry_frame _ _ _ _ _ Hcall)
                  Hnone) as Hnone0.
    pose proof (runOnAllThreads_complete_pending slot _ _ _ _ _ Hcall) as Hle.
    rewrite occurrences_wrapCallback_other, Hc, occurrences_nil in Hle;
      [lia|done|congruence]. }
  destruct op as [t|t slot0|t slot0|t slot0 cb|t slot0 cb|t slot0 cb mcb|t slot0 cb|t slot0 cb ccb|t d0 main_thread|t|t|t|d];
    simpl.
  - intros ([s0 w1] & (_ & _ & _ & H)%allocateSlot_Ok & [= <-])%bind_Ok _.
    by destruct H as [[_ ->]|(front & rest & _ & _ & ->)].
  - intros (s & h & _ & _ & _ & [[_ ->]|[_ Hfin]])%SlotImpl_dtor_Ok _; [done|].
    apply SlotImpl_dtor_finish_Ok in Hfin
      as (w1 & [Hp _]%(removeSlot_pending slot) & ->).
    unfold pending in *. simpl in *. lia.
  - intros (_ & s & _ & _ & Hfin)%SlotImpl_dtor_resume_Ok _.
    apply SlotImpl_dtor_finish_Ok in Hfin
      as (w1 & [Hp _]%(removeSlot_pending slot) & ->).
    unfold pending in *. simpl in *. lia.
  - intros Hset Hnone.
    pose proof (registry_frame_heap _ _ _ (SlotImpl_set_registry_frame _ _ _ _ _ Hset)
                  Hnone) as Hnone0.
    apply SlotImpl_set_Ok in Hset as (_ & _ & s & d & data & Hs0 & _ & -> & _).
    unfold pending. rewrite post_all_eq. simpl. rewrite bind_app, occurrences_app.
    rewrite (occurrences_posts_other slot
               (λ d', Call (wrapCallback slot0 s (InitCb (u32 (index_ s)) cb d')))).
    + unfold pending. lia.
    + intros d'.
      apply (wrapCallback_tokens_other slot slot0 s (InitCb (u32 (index_ s)) cb d'));
        [done|congruence].
  - by apply Hrun.
  - by apply Hcomplete.
  - by apply Hrun.
  - by apply Hcomplete.
  - intros (_ & _ & H)%registerThread_Ok _. destruct main_thread; [by subst|].
    destruct H as [_ ->]. unfold pending. simpl.
    rewrite bind_app, occurrences_app. simpl. rewrite occurrences_nil. lia.
  - by intros (_ & ->)%startGlobalThreading_Ok _.
  - by intros (_ & _ & ->)%shutdownGlobalThreading_Ok _.
  - by intros (_ & x & ->)%shutdownThread_Ok _.
  - intros (k & q1 & q2 & Hq & _ & H)%dispatch_Ok _. simpl in H.
    rewrite (pending_posted_remove slot _ _ _ _ Hq).
    destruct k as [cb|g|d'].
    + destruct H as (x & h & _ & ->). unfold pending. simpl. lia.
    + destruct H as (cb & c & x & _ & H%(release_guard_pending slot)).
      unfold pending in *. simpl in *. lia.
    + subst w'. unfold pending. simpl. lia.
Qed.

(** In the Running state a handle disappears only when its destructor
    returns from the wait. *)
Lemma perform_heap_kept slot s op w w' :
  perform op w = Ok w' → state_ w = Running →
  heap w !! slot = Some s → heap w' !! slot = None →
  ready_to_destroy_ s = true.
Proof.
  intros Hop Hs Hslot Hnone.
  assert (registry_frame w w' → ready_to_destroy_ s = true) as Hframe.
  { intros Hf. pose proof (registry_frame_heap _ _ _ Hf Hnone). congruence. }
  destruct op as [t|t slot0|t slot0|t slot0 cb|t slot0 cb|t slot0 cb mcb|t slot0 cb|t slot0 cb ccb|t d0 main_thread|t|t|t|d];
    simpl in Hop.
  - apply bind_Ok in Hop as ([s0 w1] & (_ & _ & -> & H)%allocateSlot_Ok & [= <-]).
    destruct H as [[_ ->]|(front & rest & _ & _ & ->)]; simpl in Hnone;
      (destruct (decide (next_slot w = slot)) as [<-|Hne];
       [by rewrite lookup_insert_eq in Hnone
       |rewrite lookup_insert_ne in Hnone by done; congruence]).
  - apply SlotImpl_dtor_Ok in Hop
      as (s0 & h & Hs0 & _ & Hrel & [[_ ->]|[? _]]); [|done].
    apply Hframe. by apply (reset_registry_frame w slot0 s0 h).
  - apply SlotImpl_dtor_resume_Ok in Hop as (_ & s0 & Hs0 & Hr & Hfin).
    apply SlotImpl_dtor_finish_Ok in Hfin
      as (w1 & [_ Hh]%(removeSlot_pending slot) & ->).
    simpl in *. rewrite Hh in Hnone.
    destruct (decide (slot0 = slot)) as [->|Hne]; [congruence|].
    rewrite lookup_delete_ne in Hnone by done. congruence.
  - by eapply Hframe, SlotImpl_set_registry_frame.
  - unfold SlotImpl_runOnAllThreads in Hop.
    apply bind_Ok in Hop as (s0 & _ & Hop). by eapply Hframe, runOnAllThreads_registry_frame.
  - unfold SlotImpl_runOnAllThreads_complete in Hop.
    apply bind_Ok in Hop as (s0 & _ & Hop).
    by eapply Hframe, runOnAllThreads_complete_registry_frame.
  - unfold SlotImpl_runOnAllThreads_update, SlotImpl_runOnAllThreads in Hop.
    apply bind_Ok in Hop as (s0 & _ & Hop). by eapply Hframe, runOnAllThreads_registry_frame.
  - unfold SlotImpl_runOnAllThreads_update_complete,
      SlotImpl_runOnAllThreads_complete in Hop.
    apply bind_Ok in Hop as (s0 & _ & Hop).
    by eapply Hframe, runOnAllThreads_complete_registry_frame.
  - by eapply Hframe, registerThread_registry_frame.
  - apply startGlobalThreading_Ok in Hop as (_ & ->). simpl in *. congruence.
  - apply shutdownGlobalThreading_Ok in Hop as (_ & _ & ->). simpl in *. congruence.
  - by eapply Hframe, shutdownThread_registry_frame.
  - by eapply Hframe, dispatch_registry_frame.
Qed.

(** From a Running world on, as long as the registry is Running: the
    token of a handle that is gone has no copy left. *)
Lemma exec_dead_no_copies slot ops w0 w :
  tokens_inv w0 → exec ops w0 = Ok w → state_ w0 = Running → state_ w = Running →
  (heap w0 !! slot = None → pending slot w0 = 0) →
  heap w !! slot = None → pending slot w = 0.
Proof.
  revert w0. induction ops as [|op ops IH]; intros w0 Hinv; simpl.
  - by intros [= <-].
  - intros (w1 & Hstep & Hexec)%bind_Ok Hs0 Hs Hdead.
    pose proof (step_state_rank _ _ _ Hstep) as Hr1.
    pose proof (exec_state_rank _ _ _ Hexec) as Hr2.
    rewrite Hs0 in Hr1. rewrite Hs in Hr2. simpl in *.
    assert (state_ w1 = Running) as Hs1
      by (destruct (state_ w1); simpl in *; try lia; done).
    apply (IH w1); try done; [by eapply step_tokens_inv|].
    intros Hnone1. apply step_perform in Hstep.
    pose proof (perform_pending_dead slot _ _ _ Hstep Hnone1) as Hle.
    destruct (heap w0 !! slot) as [s|] eqn:Hslot.
    + pose proof (perform_heap_kept _ _ _ _ _ Hstep Hs0 Hslot Hnone1) as Hready.
      destruct Hinv as [Hno _ _ _ _ _].
      destruct (use_count_zero _ _ _ Hslot (Hno _ _ Hslot Hready)) as [_ Hp]. lia.
    + specialize (Hdead eq_refl). lia.
Qed.

(** ** The order of a queue *)

Lemma step_queue (op : Op) (w w' : World) (d : Dispatcher) :
  step op w = Ok w' →
  (op ≠ OpDispatch d → ∃ new, queue d w' = queue d w ++ new) ∧
  (op = OpDispatch d →
   ∃ k rest new evs,
     queue d w = k :: rest ∧ queue d w' = rest ++ new ∧
     log w' = log w ++ EvDispatch d k :: evs).
Proof.
  intros Hstep%step_perform.
  destruct (perform_posted _ _ _ Hstep) as (new & _ & Hposted).
  assert (∀ q, posted w' = posted w ++ q →
               ∃ new, queue d w' = queue d w ++ new) as Hback.
  { intros q Hq. unfold queue. rewrite Hq, filter_app, fmap_app. eauto. }
  split.
  - intros Hop. destruct op as [t|t slot|t slot|t slot cb|t slot cb|t slot cb mcb|t slot cb|t slot cb ccb|t d1 main_thread|t|t|t|d0];
      try (by apply (Hback new Hposted)).
    destruct Hposted as (k & q1 & q2 & evs & Hq & Hq1 & Hq' & _).
    assert (d0 ≠ d) as Hne by congruence.
    unfold queue. rewrite Hq, Hq'.
    rewrite !filter_app, filter_cons_False by done.
    rewrite <- filter_app, fmap_app. eauto.
  - intros ->. destruct Hposted as (k & q1 & q2 & evs & Hq & Hq1 & Hq' & Hlog).
    exists k, (filter (λ p, p.1 = d) q2).*2, (filter (λ p, p.1 = d) new).*2, evs.
    unfold queue. rewrite Hq, Hq'.
    rewrite !filter_app, (filter_none_for _ _ Hq1), filter_cons_True by done.
    simpl. rewrite fmap_app. done.
Qed.

Lemma turns_cons d op ops :
  turns d (op :: ops) = (if is_dispatch d op then 1 else 0) + turns d ops.
Proof. unfold turns. rewrite filter_length_cons. by destruct (is_dispatch d op). Qed.

Lemma is_dispatch_true d op : is_dispatch d op = true ↔ op = OpDispatch d.
Proof.
  destruct op; simpl; try (split; [done|discriminate]).
  rewrite bool_decide_eq_true. split; [by intros ->|by intros [= ->]].
Qed.

(** A callback that has [length q] callbacks before it in the queue of [d]
    is at the head of the queue after as many turns of [d]. *)
Lemma exec_queue d q k rest ops w w' :
  queue d w = q ++ k :: rest → exec ops w = Ok w' → turns d ops = length q →
  ∃ new, queue d w' = k :: rest ++ new.
Proof.
  revert q rest w. induction ops as [|op ops IH]; intros q rest w Hq; simpl.
  - intros [= <-] Hturns. destruct q; [|done]. exists []. by rewrite app_nil_r.
  - intros (w1 & Hstep & Hexec)%bind_Ok. rewrite turns_cons.
    destruct (step_queue op w w1 d Hstep) as [Hother Hturn].
    destruct (is_dispatch d op) eqn:Hop.
    + apply is_dispatch_true in Hop.
      destruct (Hturn Hop) as (k0 & rest0 & new & evs & Hq0 & Hq1 & _).
      rewrite Hq in Hq0. destruct q as [|k1 q]; simpl in *; [intros; lia|].
      injection Hq0 as -> <-. intros Hturns.
      destruct (IH q (rest ++ new) w1) as (new' & Hnew'); [|done|lia|].
      { rewrite Hq1, <- app_assoc. done. }
      rewrite Hnew'. rewrite <- app_assoc. eauto.
    + assert (op ≠ OpDispatch d) as Hne.
      { intros Heq%is_dispatch_true. congruence. }
      destruct (Hother Hne) as (new & Hq1). intros Hturns.
      destruct (IH q (rest ++ new) w1) as (new' & Hnew'); [|done|lia|].
      { rewrite Hq1, Hq, <- app_assoc. done. }
      rewrite Hnew', <- app_assoc. eauto.
Qed.

(** ** Thread-local storage is local *)

(** Whatever a thread does, the storage of the other threads is untouched:
    [setThreadLocal], the clearing callback of [removeSlot], [shutdownThread]
    and the two writes of [dispatcher_] in [registerThread] all go to the
    [thread_local] of the thread that runs them. *)
Theorem thread_local_isolation (op : Op) (w w' : World) (t' : Thread) :
  step op w = Ok w' → t' ≠ op_thread op → tld t' w' = tld t' w.
Proof.
  intros Hstep%step_perform Hne.
  destruct (perform_tls _ _ _ Hstep)
    as [Hgrow|[(t & -> & _ & _ & _ & Hother)|(t & d & Hop & Hmap)]].
  - by apply (tls_grow_tld _ _ _ Hgrow).
  - by apply Hother.
  - assert (op_thread op = t) as <- by (by destruct Hop as [->|[-> _]]).
    unfold tld. by rewrite Hmap, lookup_insert_ne.
Qed.

(** [set] on the main thread leaves the cells of worker 1 as they were. *)
Lemma thread_local_isolation_witness :
  tld 1 (world_after (setup ++ [OpSet 0 0 example_init])) = tld 1 (world_after setup).
Proof.
  apply (thread_local_isolation (OpSet 0 0 example_init)).
  - vm_compute. reflexivity.
  - simpl. lia.
Defined.

(** Until the registry is shut down the vector of cells of a thread never
    gets shorter: a slot for which [currentThreadRegistered] holds on a
    thread keeps it on that thread. *)
Theorem cells_never_shrink (ops : list Op) (w w' : World) (t : Thread) (s : SlotImpl) :
  exec ops w = Ok w' → state_ w' ≠ Shutdown →
  length (data_ (tld t w)) ≤ length (data_ (tld t w')) ∧
  (currentThreadRegistered t s w = true → currentThreadRegistered t s w' = true).
Proof.
  intros Hexec Hs.
  assert (length (data_ (tld t w)) ≤ length (data_ (tld t w'))) as Hlen.
  { revert w Hexec. induction ops as [|op ops IH]; intros w; simpl.
    - by intros [= <-].
    - intros (w1 & Hstep & Hexec)%bind_Ok.
      pose proof (exec_state_rank _ _ _ Hexec) as Hrank1.
      pose proof (step_state_rank _ _ _ Hstep) as Hrank.
      specialize (IH _ Hexec).
      enough (length (data_ (tld t w)) ≤ length (data_ (tld t w1))) by lia.
      apply step_perform in Hstep.
      destruct (perform_tls _ _ _ Hstep)
        as [Hgrow|[(t0 & _ & Hs0 & _)|(t0 & d & _ & Hmap)]].
      + by apply (tls_grow_tld _ _ _ Hgrow).
      + rewrite Hs0 in Hrank. simpl in *.
        destruct (state_ w'); simpl in *; try lia. done.
      + destruct (decide (t = t0)) as [->|Hne].
        * unfold tld at 2. by rewrite Hmap, lookup_insert_eq.
        * unfold tld at 2. by rewrite Hmap, lookup_insert_ne. }
  split; [done|]. unfold currentThreadRegistered.
  intros Hreg%bool_decide_eq_true. apply bool_decide_eq_true. lia.
Qed.

(** The main thread after [set] on the second slot. *)
Lemma cells_never_shrink_witness :
  length (data_ (tld 0 (world_after (setup ++ [OpSet 0 0 example_init])))) ≤
  length (data_ (tld 0 (world_after (setup ++ [OpSet 0 0 example_init;
                                               OpSet 0 1 example_init])))).
Proof.
  refine (proj1 (cells_never_shrink [OpSet 0 1 example_init] _ _ 0
                   {| index_ := 0; still_alive_ := true; ready_to_destroy_ := false |}
                   _ _)).
  - vm_compute. reflexivity.
  - by vm_compute.
Defined.

(** ** Posted callbacks run in the order of the posts *)

(** Every operation leaves the queue of a dispatcher as it is or adds to
    its end; the turn of the dispatcher runs the oldest entry of its queue
    and removes this entry only.  So what is posted to one dispatcher runs
    in the order of the posts, which is what [removeSlot] relies on. *)
Theorem queues_are_fifo (op : Op) (w w' : World) (d : Dispatcher) :
  step op w = Ok w' →
  (op ≠ OpDispatch d → ∃ new, queue d w' = queue d w ++ new) ∧
  (op = OpDispatch d →
   ∃ k rest new evs,
     queue d w = k :: rest ∧ queue d w' = rest ++ new ∧
     log w' = log w ++ EvDispatch d k :: evs).
Proof.
  intros Hstep%step_perform.
  destruct (perform_posted _ _ _ Hstep) as (new & _ & Hposted).
  assert (∀ q, posted w' = posted w ++ q →
               ∃ new, queue d w' = queue d w ++ new) as Hback.
  { intros q Hq. unfold queue. rewrite Hq, filter_app, fmap_app. eauto. }
  split.
  - intros Hop. destruct op as [t|t slot|t slot|t slot cb|t slot cb|t slot cb mcb|t slot cb|t slot cb ccb|t d1 main_thread|t|t|t|d0];
      try (by apply (Hback new Hposted)).
    destruct Hposted as (k & q1 & q2 & evs & Hq & Hq1 & Hq' & _).
    assert (d0 ≠ d) as Hne by congruence.
    unfold queue. rewrite Hq, Hq'.
    rewrite !filter_app, filter_cons_False by done.
    rewrite <- filter_app, fmap_app. eauto.
  - intros ->. destruct Hposted as (k & q1 & q2 & evs & Hq & Hq1 & Hq' & Hlog).
    exists k, (filter (λ p, p.1 = d) q2).*2, (filter (λ p, p.1 = d) new).*2, evs.
    unfold queue. rewrite Hq, Hq'.
    rewrite !filter_app, (filter_none_for _ _ Hq1), filter_cons_True by done.
    simpl. rewrite fmap_app. done.
Qed.

(** Worker 1 takes its turn: the callback of its registration, posted
    first, is the one that runs. *)
Lemma queues_are_fifo_witness :
  ∃ k rest new evs,
    queue 1 (world_after (setup ++ [OpSet 0 0 example_init])) = k :: rest ∧
    queue 1 (world_after (setup ++ [OpSet 0 0 example_init; OpDispatch 1])) =
      rest ++ new ∧
    log (world_after (setup ++ [OpSet 0 0 example_init; OpDispatch 1])) =
      log (world_after (setup ++ [OpSet 0 0 example_init])) ++ EvDispatch 1 k :: evs.
Proof.
  refine (proj2 (queues_are_fifo (OpDispatch 1) _ _ 1 _) eq_refl).
  vm_compute. reflexivity.
Defined.

(** A callback that has [length q] callbacks before it in the queue of a
    dispatcher is the one that turn [length q + 1] of this dispatcher
    runs, whatever the other threads do in between and whatever is posted
    meanwhile. *)
Theorem callback_runs_in_turn (d : Dispatcher) (q : list Task) (k : Task)
    (rest : list Task) (ops : list Op) (w w' w'' : World) :
  queue d w = q ++ k :: rest → exec ops w = Ok w' → turns d ops = length q →
  step (OpDispatch d) w' = Ok w'' →
  ∃ new evs,
    queue d w' = k :: rest ++ new ∧ log w'' = log w' ++ EvDispatch d k :: evs.
Proof.
  intros Hq Hexec Hturns Hstep.
  destruct (exec_queue _ _ _ _ _ _ _ Hq Hexec Hturns) as (new & Hnew).
  destruct (proj2 (step_queue _ _ _ d Hstep) eq_refl)
    as (k0 & rest0 & new0 & evs & Hq0 & _ & Hlog).
  rewrite Hnew in Hq0. injection Hq0 as <- _. eauto.
Qed.

(** The callback of [set] is second in the queue of worker 1: it runs in
    the second turn of the worker, after an allocation on the main
    thread. *)
Lemma callback_runs_in_turn_witness :
  ∃ new evs,
    queue 1 (world_after (setup ++ [OpSet 0 0 example_init; OpDispatch 1;
                                    OpAllocateSlot 0])) =
      Call (WrappedCb (Some 0) (InitCb 0 example_init 1)) :: [] ++ new ∧
    log (world_after (setup ++ [OpSet 0 0 example_init; OpDispatch 1;
                                OpAllocateSlot 0; OpDispatch 1])) =
      log (world_after (setup ++ [OpSet 0 0 example_init; OpDispatch 1;
                                  OpAllocateSlot 0]))
      ++ EvDispatch 1 (Call (WrappedCb (Some 0) (InitCb 0 example_init 1))) :: evs.
Proof.
  apply (callback_runs_in_turn 1 [RegisterCall 1] _ []
           [OpDispatch 1; OpAllocateSlot 0]
           (world_after (setup ++ [OpSet 0 0 example_init]))).
  - vm_compute. reflexivity.
  - vm_compute. reflexivity.
  - vm_compute. reflexivity.
  - vm_compute. reflexivity.
Defined.

(** ** The registry is written by the main thread *)

(** An operation of a thread other than the main thread changes neither
    [slots_], nor the queue of free indices, nor the list of workers, nor
    the main dispatcher; it creates, destroys and re-indexes no handle.
    The state alone can change from another thread, and only by
    [startGlobalThreading], which asserts nothing about its thread. *)
Theorem registry_single_writer (op : Op) (w w' : World) :
  step op w = Ok w' → op_thread op ≠ main_thread_id_ w →
  slots_ w' = slots_ w ∧
  free_slot_indexes_ w' = free_slot_indexes_ w ∧
  registered_threads_ w' = registered_threads_ w ∧
  main_thread_dispatcher_ w' = main_thread_dispatcher_ w ∧
  heap_index w' = heap_index w ∧
  (state_ w' = state_ w ∨
   ∃ t, op = OpStartGlobalThreading t ∧ state_ w = Initializing ∧ state_ w' = Running).
Proof.
  intros Hstep%step_perform Hne.
  destruct (perform_fields _ _ _ Hstep) as (_ & Hreg & Hmain).
  assert (registry_frame w w' →
          registered_threads_ w' = registered_threads_ w →
          main_thread_dispatcher_ w' = main_thread_dispatcher_ w →
          slots_ w' = slots_ w ∧
          free_slot_indexes_ w' = free_slot_indexes_ w ∧
          registered_threads_ w' = registered_threads_ w ∧
          main_thread_dispatcher_ w' = main_thread_dispatcher_ w ∧
          heap_index w' = heap_index w ∧
          (state_ w' = state_ w ∨
           ∃ t, op = OpStartGlobalThreading t ∧ state_ w = Initializing ∧
                state_ w' = Running)) as Hframe.
  { intros (?&?&?&?&?) ? ?. repeat split; auto. }
  destruct op as [t|t slot|t slot|t slot cb|t slot cb|t slot cb mcb|t slot cb|t slot cb ccb|t d0 main_thread|t|t|t|d];
    simpl in *.
  - apply bind_Ok in Hstep as ([slot w1] & (Ht & _)%allocateSlot_Ok & _). done.
  - apply SlotImpl_dtor_Ok in Hstep
      as (s & h & Hslot & _ & Hrel & [[_ ->]|[_ Hfin]]).
    + apply Hframe; [|done..]. by apply (reset_registry_frame w slot s h).
    + by apply SlotImpl_dtor_finish_Ok in Hfin as (w1 & (Ht & _)%removeSlot_Ok & _).
  - apply SlotImpl_dtor_resume_Ok in Hstep as (_ & s & _ & _ & Hfin).
    by apply SlotImpl_dtor_finish_Ok in Hfin as (w1 & (Ht & _)%removeSlot_Ok & _).
  - by apply SlotImpl_set_Ok in Hstep as (Ht & _).
  - unfold SlotImpl_runOnAllThreads in Hstep.
    by apply bind_Ok in Hstep as (s & _ & (Ht & _)%runOnAllThreads_Ok).
  - unfold SlotImpl_runOnAllThreads_complete in Hstep.
    by apply bind_Ok in Hstep as (s & _ & (Ht & _)%runOnAllThreads_complete_Ok).
  - unfold SlotImpl_runOnAllThreads_update, SlotImpl_runOnAllThreads in Hstep.
    by apply bind_Ok in Hstep as (s & _ & (Ht & _)%runOnAllThreads_Ok).
  - unfold SlotImpl_runOnAllThreads_update_complete,
      SlotImpl_runOnAllThreads_complete in Hstep.
    by apply bind_Ok in Hstep as (s & _ & (Ht & _)%runOnAllThreads_complete_Ok).
  - by apply registerThread_Ok in Hstep as (Ht & _).
  - apply startGlobalThreading_Ok in Hstep as (Hs & ->). simpl.
    repeat split; try done. right. by exists t.
  - by apply shutdownGlobalThreading_Ok in Hstep as (Ht & _).
  - destruct Hreg as [Hreg|(? & ? & ? & _)]; [|done].
    destruct Hmain as [Hmain|(? & ? & ? & _)]; [|done].
    apply Hframe; [|done..]. by eapply shutdownThread_registry_frame.
  - destruct Hreg as [Hreg|(? & ? & ? & _)]; [|done].
    destruct Hmain as [Hmain|(? & ? & ? & _)]; [|done].
    apply Hframe; [|done..]. by eapply dispatch_registry_frame.
Qed.

(** The turn of worker 1 leaves the slots where they are. *)
Lemma registry_single_writer_witness :
  slots_ (world_after (setup ++ [OpSet 0 0 example_init; OpDispatch 1])) =
  slots_ (world_after (setup ++ [OpSet 0 0 example_init])).
Proof.
  refine (proj1 (registry_single_writer (OpDispatch 1) _ _ _ _)).
  - vm_compute. reflexivity.
  - by vm_compute.
Defined.

(** ** Registration of the threads *)

(** [registerThread] on the main thread, outside Shutdown.  For the main
    dispatcher: it becomes the main dispatcher and the dispatcher of the
    calling thread at once, and nothing is posted.  For a worker: a
    dispatcher that is registered already is a failed assertion; a new one
    is appended to the list of workers and the callback that records it is
    posted to it, the storage of every thread being as it was when
    [registerThread] returns; when the loop of the worker runs this
    callback, [dispatcher()] on the worker returns the worker's
    dispatcher.  On another thread the call is a failed assertion. *)
Theorem registerThread_spec (t : Thread) (d : Dispatcher) (w : World) :
  t = main_thread_id_ w → state_ w ≠ Shutdown →
  (∃ w', registerThread t d true w = Ok w' ∧
     main_thread_dispatcher_ w' = Some d ∧ dispatcher t w' = Ok d ∧
     registered_threads_ w' = registered_threads_ w ∧ posted w' = posted w ∧
     data_ (tld t w') = data_ (tld t w)) ∧
  (d ∈ registered_threads_ w → registerThread t d false w = Fail AssertFailed) ∧
  (d ∉ registered_threads_ w →
   ∃ w', registerThread t d false w = Ok w' ∧
     registered_threads_ w' = registered_threads_ w ++ [d] ∧
     posted w' = posted w ++ [(d, RegisterCall d)] ∧
     thread_local_data_ w' = thread_local_data_ w ∧
     main_thread_dispatcher_ w' = main_thread_dispatcher_ w) ∧
  (∀ w0 rest, take_first d (posted w0) = Some (RegisterCall d, rest) →
     ∃ w0', dispatch d w0 = Ok w0' ∧ dispatcher d w0' = Ok d ∧
       data_ (tld d w0') = data_ (tld d w0) ∧ posted w0' = rest) ∧
  (∀ t0 w0 main_thread, t0 ≠ main_thread_id_ w0 →
     registerThread t0 d main_thread w0 = Fail AssertFailed).
Proof.
  intros Ht Hs. unfold registerThread, on_main_thread, not_shutdown.
  rewrite !bool_decide_true by done. simpl.
  split; [|split; [|split; [|split]]].
  - eexists. split; [done|]. simpl. split; [done|].
    unfold dispatcher, tld, set_dispatcher. simpl. rewrite lookup_insert_eq. done.
  - intros Hd. by rewrite bool_decide_false by (by intros []).
  - intros Hd. rewrite bool_decide_true by done. simpl. eexists. split; [done|].
    done.
  - intros w0 rest Htake. unfold dispatch. rewrite Htake. simpl.
    eexists. split; [done|].
    unfold dispatcher, tld, set_dispatcher. simpl. rewrite lookup_insert_eq. done.
  - intros t0 w0 m Hne. by rewrite (bool_decide_false _ Hne).
Qed.

(** Worker 3 joins the two workers of the example. *)
Lemma registerThread_spec_witness :
  ∃ w', registerThread 0 3 false (world_after setup) = Ok w' ∧
    registered_threads_ w' = [1; 2; 3].
Proof.
  destruct (registerThread_spec 0 3 (world_after setup))
    as (_ & _ & (w' & Hw' & Hreg & _) & _);
    [reflexivity|by vm_compute| |].
  - vm_compute. intros H. repeat (apply elem_of_cons in H as [H|H]; [lia|]).
    by apply not_elem_of_nil in H.
  - exists w'. split; [exact Hw'|exact Hreg].
Defined.

(** In every world an execution reaches no dispatcher is registered twice,
    so a broadcast puts exactly one callback in the queue of every
    registered worker and none in the queue of another dispatcher: the
    callback itself for [runOnAllThreads], for [set] the wrapped callback
    that holds the index of the slot, the initializer and the dispatcher
    of that worker. *)
Theorem broadcast_once_per_worker (t : Thread) (d : Dispatcher) (w : World) :
  reachable w →
  NoDup (registered_threads_ w) ∧
  (∀ cb w', runOnAllThreads t cb w = Ok w' →
     queue d w' = queue d w ++
       if bool_decide (d ∈ registered_threads_ w) then [Call cb] else []) ∧
  (∀ slot s cb w', heap w !! slot = Some s → SlotImpl_set t slot cb w = Ok w' →
     queue d w' = queue d w ++
       if bool_decide (d ∈ registered_threads_ w)
       then [Call (wrapCallback slot s (InitCb (u32 (index_ s)) cb d))] else []).
Proof.
  intros Hw%reachable_guards_inv. destruct Hw as [Hnd _ _].
  split; [done|]. split.
  - intros cb w' (_ & _ & x & ->)%runOnAllThreads_Ok.
    rewrite post_all_eq. unfold queue. simpl.
    rewrite filter_app, fmap_app, (posts_to_distinct (λ _, Call cb)) by done.
    by case_bool_decide.
  - intros slot s cb w' Hslot (_ & _ & s' & d0 & data & Hslot' & _ & -> & _)%SlotImpl_set_Ok.
    assert (s' = s) as -> by congruence.
    rewrite post_all_eq. unfold queue. simpl.
    rewrite filter_app, fmap_app.
    rewrite (posts_to_distinct
               (λ d', Call (wrapCallback slot s (InitCb (u32 (index_ s)) cb d'))))
      by done.
    by case_bool_decide.
Qed.

(** A broadcast to the workers 1 and 2: one callback more for worker 2. *)
Lemma broadcast_once_per_worker_witness :
  queue 2 (world_after (setup ++ [OpRunOnAllThreads 0 0 7])) =
  queue 2 (world_after setup) ++
    if bool_decide (2 ∈ registered_threads_ (world_after setup))
    then [Call (WrappedCb (Some 0) (UserCb 7))] else [].
Proof.
  refine (proj1 (proj2 (broadcast_once_per_worker 0 2 (world_after setup) _))
            (WrappedCb (Some 0) (UserCb 7)) _ _).
  - exists 0, setup. vm_compute. reflexivity.
  - vm_compute. reflexivity.
Defined.

(** [dispatcher()] in a world an execution reaches: on a thread for which no
    dispatcher was recorded it is a failed assertion; the dispatcher it
    returns is the main dispatcher, on the main thread, or the registered
    dispatcher of the calling worker. *)
Theorem dispatcher_registered (t : Thread) (w : World) :
  reachable w →
  (dispatcher_ (tld t w) = None → dispatcher t w = Fail AssertFailed) ∧
  (∀ d, dispatcher t w = Ok d →
     (t = main_thread_id_ w ∧ main_thread_dispatcher_ w = Some d) ∨
     (d = t ∧ d ∈ registered_threads_ w)).
Proof.
  intros [Hdisp _]%reachable_dispatchers. unfold dispatcher. split.
  - intros ->. by rewrite bool_decide_false by (by intros []).
  - intros d. destruct (dispatcher_ (tld t w)) as [d0|] eqn:Hd.
    + rewrite bool_decide_true by done. simpl. intros [= <-]. by apply Hdisp.
    + by rewrite bool_decide_false by (by intros []).
Qed.

(** Worker 1 before its loop has run the callback of its registration. *)
Lemma dispatcher_registered_witness :
  dispatcher 1 (world_after setup) = Fail AssertFailed.
Proof.
  refine (proj1 (dispatcher_registered 1 (world_after setup) _) _).
  - exists 0, setup. vm_compute. reflexivity.
  - vm_compute. reflexivity.
Defined.

(** ** Reading a slot *)

(** [get] through a live handle.  It returns cell [index_] of the calling
    thread when [currentThreadRegistered] holds, and is a failed assertion
    when it does not: the assertion keeps the access inside the vector.
    [currentThreadRegistered] compares sizes only: on a thread where the
    slot was never set, [get] becomes possible, and returns null, as soon
    as the thread writes the cell of a slot of higher index. *)
Theorem SlotImpl_get_spec (t : Thread) (slot : SlotId) (s : SlotImpl) (w : World) :
  heap w !! slot = Some s →
  (currentThreadRegistered t s w = true →
   ∃ v, data_ (tld t w) !! index_ s = Some v ∧ SlotImpl_get t slot w = Ok v) ∧
  (currentThreadRegistered t s w = false →
   SlotImpl_get t slot w = Fail AssertFailed) ∧
  (∀ i object,
     currentThreadRegistered t s w = false → index_ s < i → fits_u32 (i + 1) →
     ∃ w1, on_thread t (setThreadLocal i object) w = Ok w1 ∧
       currentThreadRegistered t s w1 = true ∧ SlotImpl_get t slot w1 = Ok None).
Proof.
  intros Hslot. unfold currentThreadRegistered. split; [|split].
  - intros Hlt%bool_decide_eq_true.
    destruct (data_ (tld t w) !! index_ s) as [v|] eqn:Hv.
    + exists v. split; [done|]. by apply (SlotImpl_get_Ok _ _ _ _ _ Hslot).
    + apply lookup_ge_None in Hv. lia.
  - intros Hlt. unfold SlotImpl_get, deref, currentThreadRegistered.
    rewrite Hslot. simpl. by rewrite Hlt.
  - intros i object Hge%bool_decide_eq_false Hi Hfit.
    destruct (setThreadLocal_fits i object (data_ (tld t w)) Hfit)
      as (data' & Hset & Hdata' & Hlen).
    unfold on_thread. rewrite Hset. simpl. eexists. split; [done|].
    rewrite tld_set_data.
    assert (data' !! index_ s = Some None) as Hnone.
    { rewrite Hdata', bool_decide_true by lia.
      rewrite list_lookup_insert_ne by lia. apply lookup_resize_new; lia. }
    split; [apply bool_decide_eq_true; lia|].
    apply (SlotImpl_get_Ok _ _ s); [done|]. rewrite tld_set_data. split; [lia|done].
Qed.

(** Worker 1 has no cell yet: [get] on slot 0 is a failed assertion
    there. *)
Lemma SlotImpl_get_spec_witness :
  SlotImpl_get 1 0 (world_after setup) = Fail AssertFailed.
Proof.
  refine (proj1 (proj2 (SlotImpl_get_spec 1 0
            {| index_ := 0; still_alive_ := true; ready_to_destroy_ := false |}
            (world_after setup) _)) _).
  - vm_compute. reflexivity.
  - vm_compute. reflexivity.
Defined.

(** ** Updating a slot on all threads *)

(** [runOnAllThreads(const UpdateCb&)] through a live handle whose index is
    representable in the [uint32_t] parameter of [setThreadLocal].  The
    closure it broadcasts, on whatever thread it runs, replaces the object
    that [get] returns there by its image under the update, leaving the
    other cells and the other threads alone; on a thread where [get] is a
    failed assertion so is the closure.  The call itself posts the wrapped
    closure to every worker and runs it on the main thread, so that [get]
    on the main thread returns the updated object afterwards. *)
Theorem SlotImpl_update_spec (t : Thread) (slot : SlotId) (s : SlotImpl)
    (cb : Cell → Cell) (w : World) :
  heap w !! slot = Some s → fits_u32 (index_ s) →
  (∀ d w0 v, heap w0 !! slot = Some s → SlotImpl_get d slot w0 = Ok v →
     ∃ w0', call d (wrapCallback slot s (UpdateCb slot cb)) w0 = Ok w0' ∧
       SlotImpl_get d slot w0' = Ok (cb v) ∧
       length (data_ (tld d w0')) = length (data_ (tld d w0)) ∧
       (∀ j, j ≠ index_ s → data_ (tld d w0') !! j = data_ (tld d w0) !! j) ∧
       (∀ t', t' ≠ d → tld t' w0' = tld t' w0)) ∧
  (∀ d w0, heap w0 !! slot = Some s → currentThreadRegistered d s w0 = false →
     call d (wrapCallback slot s (UpdateCb slot cb)) w0 = Fail AssertFailed) ∧
  (∀ w', SlotImpl_runOnAllThreads_update t slot cb w = Ok w' →
     t = main_thread_id_ w ∧ state_ w ≠ Shutdown ∧
     posted w' = posted w ++
       map (λ d, (d, Call (wrapCallback slot s (UpdateCb slot cb))))
         (registered_threads_ w) ∧
     ∃ v, SlotImpl_get t slot w = Ok v ∧ SlotImpl_get t slot w' = Ok (cb v)).
Proof.
  intros Hslot Hfit.
  assert (∀ d w0 v, heap w0 !! slot = Some s → SlotImpl_get d slot w0 = Ok v →
     ∃ w0', call d (wrapCallback slot s (UpdateCb slot cb)) w0 = Ok w0' ∧
       SlotImpl_get d slot w0' = Ok (cb v) ∧
       length (data_ (tld d w0')) = length (data_ (tld d w0)) ∧
       (∀ j, j ≠ index_ s → data_ (tld d w0') !! j = data_ (tld d w0) !! j) ∧
       (∀ t', t' ≠ d → tld t' w0' = tld t' w0)) as Hcall.
  { intros d w0 v Hslot0 Hget. rewrite (call_UpdateCb _ _ _ _ _ Hslot0 Hfit), Hget.
    apply (SlotImpl_get_Ok _ _ _ _ _ Hslot0) in Hget as [Hlt Hv].
    eexists. split; [done|]. rewrite tld_set_data, length_insert.
    split; [|split; [done|split]].
    - apply (SlotImpl_get_Ok _ _ s); [done|]. rewrite tld_set_data, length_insert.
      split; [done|]. by apply list_lookup_insert_eq.
    - intros j Hj. by rewrite list_lookup_insert_ne.
    - intros t' Hne. by apply tld_set_data_ne. }
  split; [done|]. split.
  - intros d w0 Hslot0 Hreg. rewrite (call_UpdateCb _ _ _ _ _ Hslot0 Hfit).
    unfold SlotImpl_get, deref. rewrite Hslot0. simpl. by rewrite Hreg.
  - intros w'. unfold SlotImpl_runOnAllThreads_update, SlotImpl_runOnAllThreads, deref.
    rewrite Hslot. simpl. intros Hrun.
    destruct (runOnAllThreads_Ok _ _ _ _ Hrun) as (Ht & Hs & _).
    split; [done|]. split; [done|].
    rewrite runOnAllThreads_unfold in Hrun by done.
    unfold run, emit in Hrun. rewrite post_all_eq in Hrun.
    rewrite call_set_log, call_set_log, call_set_posted in Hrun.
    destruct (call t (wrapCallback slot s (UpdateCb slot cb)) w) as [w1|] eqn:Hw1;
      simpl in Hrun; [|done].
    injection Hrun as <-. simpl. split; [done|].
    rewrite (call_UpdateCb _ _ _ _ _ Hslot Hfit) in Hw1.
    destruct (SlotImpl_get t slot w) as [v|] eqn:Hget; [|done].
    exists v. split; [done|].
    destruct (Hcall t w v Hslot Hget) as (w1' & Hw1' & Hget' & _).
    rewrite (call_UpdateCb _ _ _ _ _ Hslot Hfit), Hget in Hw1'.
    assert (w1' = w1) as -> by congruence.
    rewrite <- Hget'. by apply SlotImpl_get_same.
Qed.

(** The object of slot 0 on the main thread, 10, is replaced by its image
    under the update, here the null pointer. *)
Lemma SlotImpl_update_spec_witness :
  ∃ v,
    SlotImpl_get 0 0 (world_after (setup ++ [OpSet 0 0 example_init])) = Ok v ∧
    SlotImpl_get 0 0
      (world_after (setup ++ [OpSet 0 0 example_init;
                              OpUpdateOnAllThreads 0 0 (λ _, None)])) = Ok None.
Proof.
  refine (proj2 (proj2 (proj2 (proj2 (proj2 (SlotImpl_update_spec 0 0
            {| index_ := 0; still_alive_ := true; ready_to_destroy_ := false |}
            (λ _, None) (world_after (setup ++ [OpSet 0 0 example_init])) _ _))
            _ _)))).
  - vm_compute. reflexivity.
  - by vm_compute.
  - vm_compute. reflexivity.
Defined.

(** ** Copies of the liveness token *)

(** [SlotImpl::runOnAllThreads(cb)] through a live handle: [wrapCallback]
    puts one copy of the liveness token of the slot in every closure that is
    posted, so the number of copies held outside the handle grows by the
    number of registered workers; the copy of the call on the main thread
    is gone when the function returns, and the tokens of the other slots
    are not concerned. *)
Theorem slot_broadcast_tokens (t : Thread) (slot : SlotId) (s : SlotImpl)
    (cb : Callback) (w w' : World) :
  heap w !! slot = Some s → still_alive_ s = true → cb_tokens cb = [] →
  SlotImpl_runOnAllThreads t slot cb w = Ok w' →
  pending slot w' = pending slot w + length (registered_threads_ w) ∧
  use_count slot w' = 1 + pending slot w + length (registered_threads_ w) ∧
  (∀ s', s' ≠ slot → pending s' w' = pending s' w).
Proof.
  intros Hslot Ha Hcb. unfold SlotImpl_runOnAllThreads, deref.
  rewrite Hslot. simpl. intros Hrun.
  pose proof (cb_tokens_wrapCallback slot s cb Hcb) as Htok. rewrite Ha in Htok.
  assert (pending slot w' = pending slot w + length (registered_threads_ w)) as Hp.
  { rewrite (runOnAllThreads_pending slot _ _ _ _ Hrun), Htok.
    unfold occurrences. rewrite filter_cons_True by done. simpl. lia. }
  split; [done|]. split.
  - apply runOnAllThreads_Ok in Hrun as (_ & _ & x & Hw'). unfold use_count.
    rewrite Hp. rewrite Hw', post_all_eq. simpl. rewrite Hslot, Ha. lia.
  - intros s' Hne. rewrite (runOnAllThreads_pending s' _ _ _ _ Hrun), Htok.
    unfold occurrences. rewrite filter_cons_False by done. simpl. lia.
Qed.

(** A broadcast through slot 0 to the two workers of the example. *)
Lemma slot_broadcast_tokens_witness :
  pending 0 (world_after (setup ++ [OpRunOnAllThreads 0 0 7])) =
  pending 0 (world_after setup) + length (registered_threads_ (world_after setup)).
Proof.
  refine (proj1 (slot_broadcast_tokens 0 0
            {| index_ := 0; still_alive_ := true; ready_to_destroy_ := false |}
            (UserCb 7) (world_after setup) _ _ _ _ _)).
  - vm_compute. reflexivity.
  - reflexivity.
  - reflexivity.
  - vm_compute. reflexivity.
Defined.

(** The turn of a dispatcher whose oldest entry is a callback [cb]: the
    copies of liveness tokens that the closure held are given back, and in
    the Running state the slot whose last copy this was is marked ready to
    be destroyed, which is what its destructor waits for. *)
Theorem dispatch_releases_tokens (d : Dispatcher) (cb : Callback) (rest : list Task)
    (s : SlotId) (w w' : World) :
  queue d w = Call cb :: rest → dispatch d w = Ok w' →
  pending s w' + occurrences s (cb_tokens cb) = pending s w ∧
  (state_ w = Running → s ∈ cb_tokens cb → use_count s w' = 0 →
   ∃ slot, heap w' !! s = Some slot ∧ ready_to_destroy_ slot = true).
Proof.
  intros Hqueue (k & q1 & q2 & Hq & Hq1 & H)%dispatch_Ok.
  assert (k = Call cb) as ->.
  { unfold queue in Hqueue. rewrite Hq, filter_app, (filter_none_for _ _ Hq1) in Hqueue.
    rewrite filter_cons_True in Hqueue by done. simpl in Hqueue. congruence. }
  simpl in H. destruct H as (x & h & (Hsame & _ & Hready) & ->). split.
  - rewrite (pending_posted_remove s _ _ _ _ Hq). simpl. unfold pending. simpl. lia.
  - intros Hs Hin Hcount. simpl in Hready. apply Hready; [done..|].
    by rewrite use_count_same_slots in Hcount.
Qed.

(** Worker 1 runs the callback that [set] posted for slot 0: its copy of
    the token is given back. *)
Lemma dispatch_releases_tokens_witness :
  pending 0 (world_after (setup ++ [OpSet 0 0 example_init; OpDispatch 1; OpDispatch 1]))
  + occurrences 0 (cb_tokens (WrappedCb (Some 0) (InitCb 0 example_init 1))) =
  pending 0 (world_after (setup ++ [OpSet 0 0 example_init; OpDispatch 1])).
Proof.
  refine (proj1 (dispatch_releases_tokens 1 _ [] 0 _ _ _ _)).
  - vm_compute. reflexivity.
  - vm_compute. reflexivity.
Defined.

(** ** The guard holds the token of the slot *)

(** [SlotImpl::runOnAllThreads] with a completion callback, in its two
    forms, through a live handle of a world an execution reaches.  The
    wrapped callback is stored once, in the guard, and the closures posted
    to the workers share the guard: while workers are registered the call
    leaves one copy of the liveness token of the slot outside the handle,
    whatever the number of workers, where the form without completion
    leaves one per worker.  Without workers the guard is released before
    the call returns, and no copy is left. *)
Theorem slot_completion_tokens (t : Thread) (slot : SlotId) (s : SlotImpl)
    (cb c : Callback) (w w' : World) :
  reachable w → heap w !! slot = Some s → still_alive_ s = true →
  cb_tokens cb = [] → cb_tokens c = [] →
  SlotImpl_runOnAllThreads_complete t slot cb c w = Ok w' →
  (registered_threads_ w ≠ [] →
   guards w' = guards w ++ [Some (wrapCallback slot s cb, c)] ∧
   pending slot w' = pending slot w + 1) ∧
  (registered_threads_ w = [] →
   guards w' = guards w ++ [None] ∧ pending slot w' = pending slot w) ∧
  (∀ s', s' ≠ slot → pending s' w' = pending s' w).
Proof.
  intros Hw%reachable_guards_inv Hslot Ha Hcb Hc.
  unfold SlotImpl_runOnAllThreads_complete, deref. rewrite Hslot. simpl.
  intros (_ & _ & x & Hrel)%runOnAllThreads_complete_Ok.
  pose proof (cb_tokens_wrapCallback slot s cb Hcb) as Htok. rewrite Ha in Htok.
  assert (guard_count (length (guards w)) w = 0) as Hc0.
  { apply guard_count_none. intros d' Hin. destruct Hw as [_ H2 _].
    destruct (H2 _ _ Hin) as (c' & Hc'). apply lookup_lt_Some in Hc'. lia. }
  match type of Hrel with release_guard _ ?W0 = _ => set (W := W0) in * end.
  assert (∀ s', pending s' W = pending s' w + occurrences s' [slot]) as HpW;
    [|assert (guard_count (length (guards w)) W = length (registered_threads_ w))
        as Hcount].
  { intros s'. unfold W. rewrite pending_post_all, (occurrences_posts s' (GuardCall _)).
    unfold pending. simpl. rewrite bind_app, occurrences_app. simpl.
    rewrite Ha, Hcb, Hc. simpl. rewrite occurrences_nil. lia. }
  { unfold W. rewrite guard_count_post_all. unfold guard_count in *. simpl. lia. }
  apply release_guard_Ok in Hrel as [[Hpos ->]|(Hzero & cb0 & c0 & d & h & Hg & Hd & H)].
  - rewrite Hcount in Hpos. split; [|split].
    + intros _. rewrite HpW. unfold W. rewrite post_all_eq. simpl. split; [done|].
      unfold occurrences. rewrite filter_cons_True by done. done.
    + intros Hnil. rewrite Hnil in Hpos. done.
    + intros s' Hne. rewrite HpW. unfold occurrences.
      rewrite filter_cons_False by done. simpl. lia.
  - rewrite Hcount in Hzero. apply length_zero_iff_nil in Hzero.
    simpl in H. destruct H as [-> _].
    assert (∀ s', pending s'
              (set_heap h
                 (set_guards (<[length (guards w) := None]> (guards W))
                    (post d (Call c0) (emit (EvRelease (length (guards w))) W)))) =
            pending s' w) as Hp.
    { intros s'. pose proof (pending_guard_deleted s' _ _ _ d _ Hg) as Hdel.
      rewrite HpW in Hdel. unfold W in Hg. rewrite post_all_eq in Hg. simpl in Hg.
      rewrite lookup_app_r, Nat.sub_diag in Hg by done. injection Hg as <- <-.
      rewrite Htok in Hdel. unfold pending in *. simpl in *. lia. }
    split; [|split].
    + intros Hnil. by destruct Hnil.
    + intros _. split; [|apply Hp]. unfold W. rewrite post_all_eq. simpl.
      rewrite insert_app_r_alt, Nat.sub_diag by done. done.
    + intros s' _. apply Hp.
Qed.


(** The broadcast with completion through slot 0, to two workers: one
    copy of the token. *)
Lemma slot_completion_tokens_witness :
  pending 0 (world_after (setup ++ [OpRunOnAllThreadsComplete 0 0 7 8])) =
  pending 0 (world_after setup) + 1.
Proof.
  refine (proj2 (proj1 (slot_completion_tokens 0 0
            {| index_ := 0; still_alive_ := true; ready_to_destroy_ := false |}
            (UserCb 7) (UserCb 8) (world_after setup) _ _ _ _ _ _ _) _)).
  - exists 0, setup. vm_compute. reflexivity.
  - vm_compute. reflexivity.
  - reflexivity.
  - reflexivity.
  - reflexivity.
  - vm_compute. reflexivity.
  - by vm_compute.
Defined.

(** ** Teardown *)

(** [~InstanceImpl] succeeds on the main thread in the Shutdown state, and
    is a failed assertion elsewhere.  It empties the vector of the main
    thread, without the descending resets of [shutdownThread], and touches
    neither the storage of the other threads nor the registry: the cells
    of a worker are destroyed by the [shutdownThread] of that worker only.
    After [shutdownThread] on the main thread it changes nothing. *)
Theorem InstanceImpl_dtor_spec (t : Thread) (w : World) :
  (t = main_thread_id_ w → state_ w = Shutdown →
   ∃ w', InstanceImpl_dtor t w = Ok w' ∧
     data_ (tld t w') = [] ∧
     dispatcher_ (tld t w') = dispatcher_ (tld t w) ∧
     (∀ t', t' ≠ t → tld t' w' = tld t' w) ∧
     log w' = log w ∧ posted w' = posted w ∧ slots_ w' = slots_ w ∧
     heap w' = heap w) ∧
  (t ≠ main_thread_id_ w ∨ state_ w ≠ Shutdown →
   InstanceImpl_dtor t w = Fail AssertFailed) ∧
  (∀ w0, t = main_thread_id_ w → shutdownThread t w = Ok w0 →
         InstanceImpl_dtor t w0 = Ok w0).
Proof.
  unfold InstanceImpl_dtor, on_main_thread. split; [|split].
  - intros Ht Hs. rewrite !bool_decide_true by done. simpl.
    eexists. split; [done|]. split; [apply tld_set_data|].
    split; [unfold tld, set_data; simpl; by rewrite lookup_insert_eq|].
    split; [|done]. intros t' Hne. by apply tld_set_data_ne.
  - intros [Ht|Hs].
    + by rewrite (bool_decide_false _ Ht).
    + destruct (bool_decide (t = main_thread_id_ w)); simpl; [|done].
      by rewrite (bool_decide_false _ Hs).
  - intros w0 Ht. unfold shutdownThread.
    intros (_ & Hs%ASSERT_Ok%bool_decide_eq_true & [= <-])%bind_Ok.
    destruct (foldl_reset_cell_eq t (reverse (seq 0 (length (data_ (tld t w))))) w)
      as (x & ->).
    simpl. rewrite !bool_decide_true by done. simpl. f_equal.
    unfold set_data, tld. simpl. rewrite lookup_insert_eq. simpl.
    by rewrite insert_insert_eq.
Qed.

(** Destroying a handle once the registry is shut down, on the main
    thread: the handle disappears and nothing else happens.  No clearing
    callback is posted to the workers, whose dispatchers may be gone, the
    cells keep their objects until [shutdownThread], and the index is not
    recorded as free: [slots_] keeps the pointer to the handle that is
    gone. *)
Theorem SlotImpl_dtor_after_shutdown (t : Thread) (slot : SlotId) (s : SlotImpl)
    (w : World) :
  state_ w = Shutdown → t = main_thread_id_ w →
  heap w !! slot = Some s → still_alive_ s = true →
  ∃ w', SlotImpl_dtor t slot w = Ok w' ∧
    heap w' = delete slot (heap w) ∧
    slots_ w' = slots_ w ∧ free_slot_indexes_ w' = free_slot_indexes_ w ∧
    posted w' = posted w ∧ log w' = log w ∧ waiting w' = waiting w ∧
    thread_local_data_ w' = thread_local_data_ w.
Proof.
  intros Hs Ht Hslot Ha. unfold SlotImpl_dtor, deref. rewrite Hslot. simpl.
  rewrite Ha. unfold release_token, token_deleter. simpl.
  rewrite (decide_False (P := state_ w = Running)) by (by rewrite Hs).
  match goal with |- context [bool_decide ?P] => destruct (bool_decide P) end;
    simpl; rewrite decide_False by (by rewrite Hs);
    unfold SlotImpl_dtor_finish, removeSlot, on_main_thread; simpl;
    rewrite bool_decide_true by done; simpl; rewrite decide_True by done; simpl;
    (eexists; split; [done|]); simpl; by rewrite delete_insert_eq.
Qed.

(** After the shutdown of the example registry, the handle of slot 0 is
    destroyed; [slots_] is as before. *)
Lemma SlotImpl_dtor_after_shutdown_witness :
  ∃ w',
    SlotImpl_dtor 0 0 (world_after (setup ++ [OpShutdownGlobalThreading 0])) = Ok w' ∧
    heap w' !! 0 = None ∧
    slots_ w' = slots_ (world_after (setup ++ [OpShutdownGlobalThreading 0])).
Proof.
  destruct (SlotImpl_dtor_after_shutdown 0 0
              {| index_ := 0; still_alive_ := true; ready_to_destroy_ := false |}
              (world_after (setup ++ [OpShutdownGlobalThreading 0])))
    as (w' & Hw' & Hheap & Hslots & _);
    [reflexivity|reflexivity|vm_compute; reflexivity|reflexivity|].
  exists w'. split; [exact Hw'|]. split; [|exact Hslots].
  rewrite Hheap. apply lookup_delete_eq.
Defined.

(** ** A recycled index *)

(** The end of a destructor, a new allocation and [set] on the new slot,
    one after the other on the main thread of a world an execution reaches,
    when no other index is free.  The three calls succeed; the new handle
    gets the index of the slot that was destroyed; through it [get] on the
    main thread never shows the object of the old slot, and returns the
    value of the initializer after [set].  In the queue of every
    registered worker the clearing callback of the removal comes before the
    callback of the new [set]: run in this order they leave the new object
    in the cell, where the other order would leave it empty. *)
Theorem recycled_index_sequenced (t : Thread) (slot : SlotId) (s : SlotImpl)
    (cb : Dispatcher → Cell) (dm d : Dispatcher) (w : World) :
  reachable w → fits_u32 (length (slots_ w)) →
  t = main_thread_id_ w → state_ w ≠ Shutdown →
  heap w !! slot = Some s → free_slot_indexes_ w = [] →
  main_thread_dispatcher_ w = Some dm →
  ∃ w1 w2 w3,
    SlotImpl_dtor_finish t slot w = Ok w1 ∧
    allocateSlot t w1 = Ok (next_slot w, w2) ∧
    heap w2 !! next_slot w =
      Some {| index_ := index_ s; still_alive_ := true; ready_to_destroy_ := false |} ∧
    slots_ w2 = <[index_ s := Some (next_slot w)]> (slots_ w) ∧
    (SlotImpl_get t (next_slot w) w2 = Ok None ∨
     SlotImpl_get t (next_slot w) w2 = Fail AssertFailed) ∧
    SlotImpl_set t (next_slot w) cb w2 = Ok w3 ∧
    SlotImpl_get t (next_slot w) w3 = Ok (cb dm) ∧
    (d ∈ registered_threads_ w →
     queue d w3 = queue d w ++
       [Call (ClearCb (index_ s));
        Call (WrappedCb (Some (next_slot w)) (InitCb (index_ s) cb d))]) ∧
    (∀ w4 w5 w6,
       call d (ClearCb (index_ s)) w4 = Ok w5 →
       call d (WrappedCb (Some (next_slot w)) (InitCb (index_ s) cb d)) w5 = Ok w6 →
       data_ (tld d w6) !! index_ s = Some (cb d)) ∧
    (∀ w4 w5 w6,
       call d (WrappedCb (Some (next_slot w)) (InitCb (index_ s) cb d)) w4 = Ok w5 →
       call d (ClearCb (index_ s)) w5 = Ok w6 →
       data_ (tld d w6) !! index_ s = Some None).
Proof.
  intros Hw Hfit Ht Hs Hslot Hfree Hdm.
  destruct (reachable_registry_inv w Hw Hfit) as [_ _ _ Hlive Hfresh].
  pose proof (reachable_guards_inv w Hw) as [Hnd _ _].
  assert (index_ s < length (slots_ w)) as Hlt
    by (eapply lookup_lt_Some; by apply Hlive).
  assert (fits_u32 (index_ s + 1)) as Hfit1 by (eapply fits_u32_le; [|done]; lia).
  assert (fits_u32 (index_ s)) as Hfit0 by (eapply fits_u32_le; [|done]; lia).
  assert (heap w !! next_slot w = None) as Hnew.
  { destruct (heap w !! next_slot w) as [s0|] eqn:E; [|done].
    apply Hfresh in E. lia. }
  unfold SlotImpl_dtor_finish, removeSlot, on_main_thread, deref.
  rewrite (bool_decide_true _ Ht). simpl. rewrite decide_False by done. rewrite Hslot. simpl.
  rewrite (bool_decide_true _ Hlt). simpl. rewrite Hfree.
  rewrite bool_decide_true by apply not_elem_of_nil. simpl.
  rewrite runOnAllThreads_unfold by done. unfold run.
  match goal with |- context [call t (ClearCb (index_ s)) ?W] =>
    destruct (call_ClearCb t (index_ s) W) as (x & Hcall & Hx); rewrite Hcall end.
  clear Hcall. rewrite post_all_eq in *. simpl in Hx. simpl.
  eexists. eexists. eexists. split; [done|].
  unfold allocateSlot, on_main_thread, not_shutdown. simpl.
  rewrite (bool_decide_true _ Ht), (bool_decide_true _ Hs). simpl.
  rewrite (u32_fits _ Hfit0).
  rewrite bool_decide_true by (by rewrite length_insert). simpl.
  split; [done|]. simpl. split; [by rewrite lookup_insert_eq|].
  split; [by rewrite list_insert_insert_eq|]. split.
  { unfold SlotImpl_get, deref, currentThreadRegistered, tld. simpl.
    rewrite lookup_insert_eq. simpl. case_bool_decide as Hreg; simpl; [|by right].
    destruct (data_ (default no_data (x !! t)) !! index_ s) as [v|] eqn:Hv.
    - rewrite (Hx v eq_refl). by left.
    - apply lookup_ge_None in Hv. lia. }
  unfold SlotImpl_set, deref, on_main_thread, not_shutdown, main_dispatcher. simpl.
  rewrite lookup_insert_eq. simpl.
  rewrite (bool_decide_true _ Ht), (bool_decide_true _ Hs). simpl.
  rewrite post_all_eq. simpl. rewrite Hdm. simpl. rewrite (u32_fits _ Hfit0).
  unfold on_thread. rewrite (setThreadLocal_fits_eq _ _ _ Hfit1). simpl.
  split; [reflexivity|]. split.
  { eapply SlotImpl_get_Ok.
    - simpl. apply lookup_insert_eq.
    - rewrite tld_set_data. simpl.
      match goal with |- context [bool_decide ?P] => destruct (bool_decide_reflect P) end.
      + rewrite length_insert, length_resize. split; [lia|].
        apply list_lookup_insert_eq. rewrite length_resize. lia.
      + rewrite length_insert. split; [lia|]. apply list_lookup_insert_eq. lia. }
  split; [|split].
  - intros Hd. unfold queue. simpl. rewrite !filter_app, !fmap_app.
    rewrite (posts_to_distinct (λ _, Call (ClearCb (index_ s)))) by done.
    rewrite (posts_to_distinct
               (λ d', Call (wrapCallback (next_slot w) _ (InitCb (index_ s) cb d'))))
      by done.
    rewrite !bool_decide_true by done. by rewrite <- app_assoc.
  - intros w4 w5 w6 _ Hinit.
    by apply (call_InitCb_Ok _ (Some (next_slot w))) in Hinit as [_ Hcell].
  - intros w4 w5 w6 Hinit.
    apply (call_InitCb_Ok _ (Some (next_slot w))) in Hinit as [Hlen _]. simpl.
    rewrite bool_decide_true by done. intros [= <-]. rewrite tld_set_data.
    by apply list_lookup_insert_eq.
Qed.

(** Slot 0 of the example is destroyed and its index is handed out again:
    worker 1 finds the clearing callback before the callback of the new
    [set]. *)
Lemma recycled_index_sequenced_witness :
  ∃ w1 w2 w3,
    SlotImpl_dtor_finish 0 0 (world_after setup) = Ok w1 ∧
    allocateSlot 0 w1 = Ok (2, w2) ∧
    SlotImpl_set 0 2 example_init w2 = Ok w3 ∧
    queue 1 w3 = queue 1 (world_after setup) ++
      [Call (ClearCb 0); Call (WrappedCb (Some 2) (InitCb 0 example_init 1))].
Proof.
  destruct (recycled_index_sequenced 0 0
              {| index_ := 0; still_alive_ := true; ready_to_destroy_ := false |}
              example_init 0 1 (world_after setup))
    as (w1 & w2 & w3 & H1 & H2 & _ & _ & _ & H3 & _ & H4 & _).
  - exists 0, setup. vm_compute. reflexivity.
  - by vm_compute.
  - reflexivity.
  - by vm_compute.
  - vm_compute. reflexivity.
  - reflexivity.
  - reflexivity.
  - exists w1, w2, w3. split; [exact H1|]. split; [exact H2|]. split; [exact H3|].
    apply H4. vm_compute. left.
Defined.



(** ** No index is recycled under a callback in flight *)

(** Take a handle that is alive at some point of the Running state, and
    any later point of the same state at which a posted callback or a guard
    still holds a copy of its liveness token.  Then the handle is still
    there: its index is not free, no other handle has this index, and
    [allocateSlot] hands out another index.  This is what the wait of the
    destructor is for. *)
Theorem no_recycling_in_flight (slot : SlotId) (ops : list Op) (w0 w : World) :
  reachable w0 → state_ w0 = Running → is_Some (heap w0 !! slot) →
  exec ops w0 = Ok w → state_ w = Running → fits_u32 (length (slots_ w)) →
  0 < pending slot w →
  ∃ s, heap w !! slot = Some s ∧
    slots_ w !! index_ s = Some (Some slot) ∧
    (index_ s ∉ free_slot_indexes_ w) ∧
    (∀ slot' s', heap w !! slot' = Some s' → index_ s' = index_ s → slot' = slot) ∧
    (∀ t slot' w', allocateSlot t w = Ok (slot', w') →
       ∃ s', heap w' !! slot' = Some s' ∧ index_ s' ≠ index_ s).
Proof.
  intros Hw0 Hs0 Halive Hexec Hs Hfit Hp.
  pose proof (exec_dead_no_copies slot ops w0 w (reachable_tokens_inv _ Hw0)
                Hexec Hs0 Hs) as Hdead.
  destruct (heap w !! slot) as [s|] eqn:Hslot; last first.
  { rewrite Hdead in Hp; [lia| |done]. intros Hnone. rewrite Hnone in Halive.
    by destruct Halive. }
  destruct (reachable_registry_inv w (reachable_exec _ _ _ Hw0 Hexec) Hfit)
    as [Hnull _ _ Hlive _].
  pose proof (Hlive _ _ Hslot) as Hentry.
  assert (index_ s ∉ free_slot_indexes_ w) as Hnfree.
  { intros Hin%Hnull. congruence. }
  exists s. split; [done|]. split; [done|]. split; [done|]. split.
  - intros slot' s' Hslot'%Hlive Heq. rewrite Heq in Hslot'. congruence.
  - intros t slot' w' (_ & _ & -> & H)%allocateSlot_Ok.
    destruct H as [[_ ->]|(front & rest & Hfree & Hlt & ->)]; simpl;
      rewrite lookup_insert_eq; eexists; (split; [done|]); simpl.
    + apply lookup_lt_Some in Hentry. lia.
    + assert (front ∈ free_slot_indexes_ w) as Hin by (rewrite Hfree; by left).
      assert (fits_u32 front) as Hfront.
      { apply Hnull, lookup_lt_Some in Hin. eapply fits_u32_le; [|done]. lia. }
      rewrite (u32_fits _ Hfront). congruence.
Qed.

(** While the callbacks that [set] posted for slot 0 wait in the queues of
    the workers, slot 0 keeps index 0. *)
Lemma no_recycling_in_flight_witness :
  ∃ s,
    heap (world_after (setup ++ [OpStartGlobalThreading 0; OpSet 0 0 example_init]))
      !! 0 = Some s ∧
    slots_ (world_after (setup ++ [OpStartGlobalThreading 0; OpSet 0 0 example_init]))
      !! index_ s = Some (Some 0).
Proof.
  destruct (no_recycling_in_flight 0 [OpSet 0 0 example_init]
              (world_after (setup ++ [OpStartGlobalThreading 0]))
              (world_after (setup ++ [OpStartGlobalThreading 0; OpSet 0 0 example_init])))
    as (s & Hs & Hentry & _).
  - exists 0, (setup ++ [OpStartGlobalThreading 0]). vm_compute. reflexivity.
  - reflexivity.
  - vm_compute. eexists. reflexivity.
  - vm_compute. reflexivity.
  - reflexivity.
  - by vm_compute.
  - vm_compute. lia.
  - exists s. split; [exact Hs|exact Hentry].
Defined.
